(** * Fixed-point money arithmetic (the [currency] value type of src/source.ts)

    A shallow embedding of the currency part of the repository: [parse], the
    [currency] constructor, the arithmetic methods, [distribute], [format]
    and [toString].

    Numbers are IEEE-754 binary64 values, as in JavaScript: Rocq's primitive
    [float].  The built-ins of the language that the code calls ([Math.round],
    [Number.prototype.toFixed], [Number] on a string, [String.prototype.replace]
    and [split]) are written out below from ECMA-262, on the exact rational
    value of a float.  Where rounding errors are bounded, exact values are
    rationals of [Q].

    Strings are sequences of UTF-16 code units; an [ascii] stands for a code
    unit below 256.  The settings are read at the types of the interface
    [Settings]: [precision] is a non-negative integer and the decimal
    separator one character.  An array is a list, of a length up to
    [2^32 - 1].

    The file has three layers: [JS], the numbers and strings of the
    language; [Lib], the functions of the repository on values; [Store],
    the instances as objects that refer to their settings, for what depends
    on the identity of an object.  Two more modules follow them: [Units],
    the methods [dollars] and [cents], and [Emitter], the event emitter
    that the same source file defines before the currency type. *)

From Stdlib Require Import QArith Qpower Lqa.
From Stdlib Require Import ZArith List Bool Lia Ascii String.
From Stdlib Require Import Floats.
From Stdlib Require Import DecimalString.
From Stdlib Require DecimalFacts DecimalN.
Import ListNotations.

Local Open Scope string_scope.
Local Open Scope Z_scope.

(* ================================================================= *)
(** ** JavaScript numbers *)

Module JS.

(** The float nearest to an integer (round to nearest, ties to even). *)
Definition of_Z (z : Z) : float :=
  SF2Prim (binary_normalize prec emax z 0 false).

(** The float nearest to the rational [p / q] with sign [s] ([p], [q]
    positive): the quotient carries at least [prec] bits and the remainder
    decides the rounding. *)
Definition of_ratio (s : bool) (p q : positive) : float :=
  let '(m, e, l) := SFdiv_core_binary prec emax (Zpos p) 0 (Zpos q) 0 in
  SF2Prim (binary_round_aux prec emax s m e l).

(** [x || y] on numbers: [x] is falsy when it is a zero or NaN. *)
Definition truthy (x : float) : bool := negb (is_nan x || is_zero x).

Definition or_else (x y : float) : float := if truthy x then x else y.

(** The mantissa with its sign: the finite float [S754_finite s m e] has the
    exact value [signed s m * 2^e]. *)
Definition signed (s : bool) (m : positive) : Z :=
  if s then Zneg m else Zpos m.

(** [Math.round]: the nearest integer, a tie going towards +infinity; an
    integral, infinite or NaN argument is returned as it is, and a result of
    zero keeps the sign of the argument. *)
Definition Math_round (x : float) : float :=
  match Prim2SF x with
  | S754_finite s m e =>
      if 0 <=? e then x
      else
        let n := (2 * signed s m + 2 ^ (- e)) / 2 ^ (1 - e) in
        if n =? 0 then (if s then neg_zero else zero) else of_Z n
  | _ => x
  end.

(** [Math.floor] and [Math.ceil]. *)
Definition Math_floor (x : float) : float :=
  match Prim2SF x with
  | S754_finite s m e =>
      if 0 <=? e then x
      else
        let n := signed s m / 2 ^ (- e) in
        if n =? 0 then zero else of_Z n
  | _ => x
  end.

Definition Math_ceil (x : float) : float :=
  match Prim2SF x with
  | S754_finite s m e =>
      if 0 <=? e then x
      else
        let n := - ((- signed s m) / 2 ^ (- e)) in
        if n =? 0 then neg_zero else of_Z n
  | _ => x
  end.

Definition Math_abs (x : float) : float := abs x.

(** [Math.pow(10, p)] for a non-negative integer [p]: exactly [10^p] up to
    [p = 22], where [10^p] is a float.  Beyond, the language leaves the
    value to the implementation; the float nearest to [10^p] is taken here,
    and what is proved of the scaling is stated for [p] up to 22. *)
Definition pow10 (p : N) : float := of_Z (10 ^ Z.of_N p).

(* ----------------------------------------------------------------- *)
(** *** Characters and decimal digits *)

Definition code (c : ascii) : N := N_of_ascii c.

Definition is_digit (c : ascii) : bool :=
  ((48 <=? code c) && (code c <=? 57))%N.

(** A word character of a regular expression: [[A-Za-z0-9_]]. *)
Definition is_word (c : ascii) : bool :=
  (is_digit c
   || ((65 <=? code c) && (code c <=? 90))
   || ((97 <=? code c) && (code c <=? 122))
   || (code c =? 95))%N.

(** The line terminators below 256: [.] in a regular expression matches
    every code unit but these. *)
Definition is_line_terminator (c : ascii) : bool :=
  ((code c =? 10) || (code c =? 13))%N.

(** White space and line terminators below 256, which [Number] trims. *)
Definition is_space (c : ascii) : bool :=
  (((9 <=? code c) && (code c <=? 13)) || (code c =? 32) || (code c =? 160))%N.

Definition digit_val (c : ascii) : N := (code c - 48)%N.

(** The value of a string of decimal digits. *)
Definition digits_val (s : string) : N :=
  fold_left (fun acc c => (10 * acc + digit_val c)%N) (list_ascii_of_string s) 0%N.

(** The decimal digits of a natural number, ["0"] for zero. *)
Definition digits_of (n : N) : string := NilZero.string_of_uint (N.to_uint n).

Fixpoint zeros (k : nat) : string :=
  match k with
  | O => ""
  | S k' => String "0" (zeros k')
  end.

(** The longest prefix of [s] whose characters satisfy [p], and the rest. *)
Fixpoint span (p : ascii -> bool) (s : string) : string * string :=
  match s with
  | EmptyString => ("", "")
  | String c s' =>
      if p c then let '(a, b) := span p s' in (String c a, b)
      else ("", s)
  end.

Fixpoint string_rev_app (s acc : string) : string :=
  match s with
  | EmptyString => acc
  | String c s' => string_rev_app s' (String c acc)
  end.

Definition string_rev (s : string) : string := string_rev_app s "".

Fixpoint drop_while (p : ascii -> bool) (s : string) : string :=
  match s with
  | EmptyString => ""
  | String c s' => if p c then drop_while p s' else s
  end.

Definition trim (s : string) : string :=
  string_rev (drop_while is_space (string_rev (drop_while is_space s))).

(* ----------------------------------------------------------------- *)
(** *** Number to string *)

(** The digits of [n] with a decimal point before the last [f] of them,
    padded on the left with zeros up to [f + 1] digits: how [toFixed] lays
    out the integer [n] that stands for [n / 10^f]. *)
Definition fixed_point (n : N) (f : nat) : string :=
  let m := digits_of n in
  match f with
  | O => m
  | _ =>
      let m := zeros (f + 1 - String.length m) ++ m in
      let k := String.length m in
      substring 0 (k - f) m ++ "." ++ substring (k - f) f m
  end%string.

(** The shortest decimal digits that read back as the float [x], for an
    integral [x] of exact value [X] with [nd] decimal digits: the candidates
    with [k] digits are the two multiples of [10^(nd-k)] around [X]; the
    closer one that rounds to [x] is taken, the even one on a tie.  The
    result is the digits and the decimal exponent of the first digit. *)
Definition shortest_candidate (x : float) (X : Z) (nd k : Z)
  : option (string * Z) :=
  let scale := 10 ^ (nd - k) in
  let lo := X / scale in
  let hi := lo + 1 in
  let ok s := Leibniz.eqb (of_Z (s * scale)) x in
  let render s :=
    if s =? 10 ^ k then ("1", nd) else (digits_of (Z.to_N s), nd - 1) in
  let dlo := X - lo * scale in
  let dhi := hi * scale - X in
  match ok lo, ok hi with
  | true, true =>
      if dlo <? dhi then Some (render lo)
      else if dhi <? dlo then Some (render hi)
      else Some (render (if Z.even lo then lo else hi))
  | true, false => Some (render lo)
  | false, true => Some (render hi)
  | false, false => None
  end.

Fixpoint shortest_from (x : float) (X : Z) (nd : Z) (k : Z) (fuel : nat)
  : string * Z :=
  match fuel with
  | O => (digits_of (Z.to_N X), nd - 1)
  | S fuel' =>
      match shortest_candidate x X nd k with
      | Some r => r
      | None => shortest_from x X nd (k + 1) fuel'
      end
  end.

(** [Number::toString] of a finite float of magnitude at least [10^21]
    (always in exponent notation there), given its sign and exact value. *)
Definition toString_large (x : float) (s : bool) (X : Z) : string :=
  let nd := Z.of_nat (String.length (digits_of (Z.to_N X))) in
  let '(ds, e) := shortest_from (abs x) X nd 1 17 in
  let body :=
    match ds with
    | String d EmptyString => String d ""
    | String d rest => String d ("." ++ rest)
    | EmptyString => ""
    end%string in
  ((if s then "-" else "") ++ body ++ "e+" ++ digits_of (Z.to_N e))%string.

(** The exceptions of the code: the [Error('Invalid Input')] of [parse], and
    the [RangeError] and [SyntaxError] that built-ins raise. *)
Inductive error := InvalidInput | RangeError | SyntaxError.

Inductive result (A : Type) :=
| Ok (a : A)
| Err (e : error).
Arguments Ok {A} a.
Arguments Err {A} e.

(** [Number.prototype.toFixed(f)] for an integer [f]: a RangeError when
    [f] is below 0 or above 100; the [toString] form for a value that is
    not finite or is at least [10^21]; otherwise the integer [n] nearest to
    [|x| * 10^f] (the larger one on a tie), laid out with [f] fractional
    digits, after a minus sign when [x] is negative. *)
Definition toFixed (x : float) (f : Z) : result string :=
  if (f <? 0) || (100 <? f) then Err RangeError
  else
    match Prim2SF x with
    | S754_nan => Ok "NaN"
    | S754_infinity s => Ok (if s then "-Infinity" else "Infinity")
    | S754_zero _ => Ok (fixed_point 0 (Z.to_nat f))
    | S754_finite s m e =>
        if (0 <=? e) && (10 ^ 21 <=? Zpos m * 2 ^ e)
        then Ok (toString_large x s (Zpos m * 2 ^ e))
        else
          let n :=
            if 0 <=? e then Zpos m * 2 ^ e * 10 ^ f
            else (2 * Zpos m * 10 ^ f + 2 ^ (- e)) / 2 ^ (1 - e) in
          Ok ((if s then "-" else "") ++ fixed_point (Z.to_N n) (Z.to_nat f))%string
    end.

(* ----------------------------------------------------------------- *)
(** *** String to number *)

(** The float nearest to [m * 10^e] with sign [s].  A value whose decimal
    exponent is beyond the range of the format is settled without computing
    the power. *)
Definition of_decimal (s : bool) (m : N) (e : Z) : float :=
  match m with
  | N0 => if s then neg_zero else zero
  | Npos p =>
      let nd := Z.of_nat (String.length (digits_of m)) in
      if 400 <? nd + e then (if s then neg_infinity else infinity)
      else if nd + e <? -400 then (if s then neg_zero else zero)
      else if 0 <=? e then of_ratio s (p * Z.to_pos (10 ^ e)) 1
      else of_ratio s p (Z.to_pos (10 ^ (- e)))
  end.

Definition is_e (c : ascii) : bool := ((code c =? 101) || (code c =? 69))%N.

(** The exponent part of a decimal literal: nothing, or [e] or [E], an
    optional sign and at least one digit, up to the end of the string. *)
Definition exponent_part (s : string) : option Z :=
  match s with
  | EmptyString => Some 0
  | String c r =>
      if is_e c then
        let '(neg, r) :=
          match r with
          | String "-" r' => (true, r')
          | String "+" r' => (false, r')
          | _ => (false, r)
          end in
        let '(ds, rest) := span is_digit r in
        match ds, rest with
        | String _ _, EmptyString =>
            Some (if neg then - Z.of_N (digits_val ds) else Z.of_N (digits_val ds))
        | _, _ => None
        end
      else None
  end.

(** An unsigned decimal literal: [Infinity], or digits with an optional
    fraction and exponent, with a digit on at least one side of the point. *)
Definition unsigned_decimal (s : bool) (str : string) : float :=
  if String.eqb str "Infinity" then (if s then neg_infinity else infinity)
  else
    let '(ip, r1) := span is_digit str in
    let '(dot, fp, r2) :=
      match r1 with
      | String "." r => let '(fp, r2) := span is_digit r in (true, fp, r2)
      | _ => (false, "", r1)
      end in
    match (ip ++ fp)%string, exponent_part r2 with
    | String _ _, Some e =>
        of_decimal s (digits_val (ip ++ fp)) (e - Z.of_nat (String.length fp))
    | _, _ => nan
    end.

(** The value of a digit in a radix up to 16, when it is one. *)
Definition radix_digit (radix : N) (c : ascii) : option N :=
  let v :=
    (if is_digit c then Some (code c - 48)
     else if (97 <=? code c) && (code c <=? 102) then Some (code c - 87)
     else if (65 <=? code c) && (code c <=? 70) then Some (code c - 55)
     else None)%N in
  match v with
  | Some d => if (d <? radix)%N then Some d else None
  | None => None
  end.

Fixpoint radix_val (radix : N) (s : string) (acc : N) : option N :=
  match s with
  | EmptyString => Some acc
  | String c s' =>
      match radix_digit radix c with
      | Some d => radix_val radix s' (radix * acc + d)%N
      | None => None
      end
  end.

Definition non_decimal (radix : N) (s : string) : float :=
  match s with
  | EmptyString => nan
  | _ => match radix_val radix s 0 with
         | Some n => of_Z (Z.of_N n)
         | None => nan
         end
  end.

(** [Number(s)] on a string: white space is trimmed; the empty string is
    [0]; a signed decimal literal or an unsigned binary, octal or
    hexadecimal literal has its value, rounded to the nearest float (all the
    digits count, as engines do it; the standard allows the digits after the
    twentieth to be dropped); every other string is NaN. *)
Definition Number (s : string) : float :=
  match trim s with
  | EmptyString => zero
  | String "0" (String "x" r) | String "0" (String "X" r) => non_decimal 16 r
  | String "0" (String "o" r) | String "0" (String "O" r) => non_decimal 8 r
  | String "0" (String "b" r) | String "0" (String "B" r) => non_decimal 2 r
  | String "-" r => unsigned_decimal true r
  | String "+" r => unsigned_decimal false r
  | str => unsigned_decimal false str
  end.

(* ----------------------------------------------------------------- *)
(** *** String.prototype.replace and split *)

Definition nth_capture (captures : list (option string)) (i : N) : string :=
  match nth_error captures (N.to_nat i - 1) with
  | Some (Some c) => c
  | _ => ""
  end.

(** The expansion of a replacement string (GetSubstitution): [$$] is a
    dollar, [$&] the match, [$`] and [$'] the text before and after it, [$n]
    and [$nn] the capture of that number when there is one; a two-digit
    number beyond the captures is read as one digit and a literal digit, and
    every other [$] stands for itself. *)
Fixpoint substitute (matched before after : string)
    (captures : list (option string)) (repl : string) : string :=
  let go := substitute matched before after captures in
  let m := N.of_nat (List.length captures) in
  match repl with
  | EmptyString => ""
  | String "$" r =>
      match r with
      | String "$" r' => String "$" (go r')
      | String "&" r' => matched ++ go r'
      | String "`" r' => before ++ go r'
      | String "'" r' => after ++ go r'
      | String d1 r' =>
          if is_digit d1 then
            let one :=
              if ((1 <=? digit_val d1) && (digit_val d1 <=? m))%N
              then nth_capture captures (digit_val d1) ++ go r'
              else String "$" (String d1 (go r')) in
            match r' with
            | String d2 r'' =>
                if is_digit d2 then
                  let idx := (10 * digit_val d1 + digit_val d2)%N in
                  if (m <? idx)%N then one
                  else if (1 <=? idx)%N then nth_capture captures idx ++ go r''
                  else String "$" (String d1 (String d2 (go r'')))
                else one
            | EmptyString => one
            end
          else String "$" (go r)
      | EmptyString => "$"
      end
  | String c r => String c (go r)
  end%string.

(** [s.replace(c, repl)] for a search string of the one character [c]: the
    first occurrence is replaced by the expansion of [repl]. *)
Fixpoint replace_char_from (c : ascii) (repl : string) (before s : string)
  : string :=
  match s with
  | EmptyString => ""
  | String a rest =>
      if Ascii.eqb a c
      then substitute (String c "") before rest [] repl ++ rest
      else String a (replace_char_from c repl (before ++ String a "") rest)
  end%string.

Definition replace_char (c : ascii) (repl s : string) : string :=
  replace_char_from c repl "" s.

(** [s.split(c)]: the pieces of [s] between the occurrences of [c]; the
    first piece and the others. *)
Fixpoint split (c : ascii) (s : string) : string * list string :=
  match s with
  | EmptyString => ("", [])
  | String a rest =>
      let '(p, ps) := split c rest in
      if Ascii.eqb a c then ("", p :: ps) else (String a p, ps)
  end.

End JS.

(* ================================================================= *)
(** ** The currency value type *)

Module Lib.
Import JS.

Notation "x <- c ;; k" :=
  (match c with Ok x => k | Err e => Err e end)
  (at level 61, c at next level, right associativity).

(** The two grouping expressions, [/(\d)(?=(\d{3})+\b)/g] and
    [/(\d)(?=(\d\d)+\d\b)/g]. *)
Inductive Groups := groupRegex | vedicRegex.

(** The settings object of an instance.  [precision] is a non-negative
    integer and [decimal] one character.  [increment], [useVedic] and
    [groups] are absent from [defaults]; the constructor sets [increment] and
    [groups]. *)
Record Settings := {
  symbol : string;
  separator : string;
  decimal : ascii;
  formatWithSymbol : bool;
  errorOnInvalid : bool;
  precision : N;
  pattern : string;
  negativePattern : string;
  increment : option float;
  useVedic : option bool;
  groups : option Groups
}.

(** The options a caller passes: any part of the settings. *)
Record Opts := {
  o_symbol : option string;
  o_separator : option string;
  o_decimal : option ascii;
  o_formatWithSymbol : option bool;
  o_errorOnInvalid : option bool;
  o_precision : option N;
  o_pattern : option string;
  o_negativePattern : option string;
  o_increment : option float;
  o_useVedic : option bool;
  o_groups : option Groups
}.

Definition no_opts : Opts :=
  Build_Opts None None None None None None None None None None None.

(** A settings object passed as the options of a new instance. *)
Definition as_opts (s : Settings) : Opts := {|
  o_symbol := Some (symbol s);
  o_separator := Some (separator s);
  o_decimal := Some (decimal s);
  o_formatWithSymbol := Some (formatWithSymbol s);
  o_errorOnInvalid := Some (errorOnInvalid s);
  o_precision := Some (precision s);
  o_pattern := Some (pattern s);
  o_negativePattern := Some (negativePattern s);
  o_increment := increment s;
  o_useVedic := useVedic s;
  o_groups := groups s
|}.

Definition defaults : Settings := {|
  symbol := "$";
  separator := ",";
  decimal := ".";
  formatWithSymbol := false;
  errorOnInvalid := false;
  precision := 2;
  pattern := "!#";
  negativePattern := "-!#";
  increment := None;
  useVedic := None;
  groups := None
|}.

Definition override {A} (o : option A) (d : A) : A :=
  match o with Some a => a | None => d end.

Definition override_opt {A} (o d : option A) : option A :=
  match o with Some a => Some a | None => d end.

(** [Object.assign({}, base, opts)]: a new object with the fields of [base],
    each replaced by the one [opts] has. *)
Definition assign (base : Settings) (opts : Opts) : Settings := {|
  symbol := override (o_symbol opts) (symbol base);
  separator := override (o_separator opts) (separator base);
  decimal := override (o_decimal opts) (decimal base);
  formatWithSymbol := override (o_formatWithSymbol opts) (formatWithSymbol base);
  errorOnInvalid := override (o_errorOnInvalid opts) (errorOnInvalid base);
  precision := override (o_precision opts) (precision base);
  pattern := override (o_pattern opts) (pattern base);
  negativePattern := override (o_negativePattern opts) (negativePattern base);
  increment := override_opt (o_increment opts) (increment base);
  useVedic := override_opt (o_useVedic opts) (useVedic base);
  groups := override_opt (o_groups opts) (groups base)
|}.

Definition round (v : float) : float := Math_round v.
Definition pow (p : N) : float := pow10 p.
Definition rounding (value increment : float) : float :=
  (round (value / increment) * increment)%float.

(** An instance: [intValue], [value], [_settings] and [_precision]. *)
Record Currency := {
  intValue : float;
  value : float;
  _settings : Settings;
  _precision : float
}.

(** What the constructor and [parse] are given: a number, a string, an
    instance, or a value of any other type. *)
Inductive Value :=
| VNum (n : float)
| VStr (s : string)
| VCur (c : Currency)
| VOther.

(* ----------------------------------------------------------------- *)
(** *** parse *)



(** The text after an opening parenthesis up to the last closing one that
    [.*] reaches (it stops at a line terminator), and the text after it. *)
Fixpoint last_close (s : string) : option (string * string) :=
  match s with
  | EmptyString => None
  | String c s' =>
      if is_line_terminator c then None
      else
        match last_close s' with
        | Some (inner, rest) => Some (String c inner, rest)
        | None => if Ascii.eqb c ")" then Some ("", s') else None
        end
  end.

(** The first [replace] of the string branch, which allows a negative
    amount in parentheses: the first opening parenthesis that has a closing
    one on its line becomes a minus sign, and that closing one goes. *)
Fixpoint paren_negative (s : string) : string :=
  match s with
  | EmptyString => ""
  | String c s' =>
      if Ascii.eqb c "(" then
        match last_close s' with
        | Some (inner, rest) => String "-" (inner ++ rest)
        | None => String c (paren_negative s')
        end
      else String c (paren_negative s')
  end%string.

(** What [new RegExp('[^-\\d' + decimal + ']', 'g')] matches.  The separator
    stands in a negated character class after a minus sign and [\d]: the
    expression matches one character outside the class, the class being a
    minus sign, the digits and the separator.  Two separators change the
    expression: a closing bracket ends the class before the bracket of the
    code, which is then a character to match, so the expression matches a
    character other than a minus sign and a digit that a closing bracket
    follows; a backslash escapes the bracket of the code, the class has no
    end, and the constructor raises a [SyntaxError]. *)
Inductive NonNumeric : Type :=
| Outside (class : ascii -> bool)
| OutsideThenBracket (class : ascii -> bool).

Definition numeric (c : ascii) : bool := Ascii.eqb c "-" || is_digit c.

Definition regex (decimal : ascii) : result NonNumeric :=
  if Ascii.eqb decimal "\" then Err SyntaxError
  else if Ascii.eqb decimal "]" then Ok (OutsideThenBracket numeric)
  else Ok (Outside (fun c => numeric c || Ascii.eqb c decimal)).

(** What [new RegExp('\\' + decimal, 'g')] matches: the separator after a
    backslash is an escape.  It is the separator itself unless the escape
    has a meaning of its own: a class ([\d \D \w \W \s \S]), an assertion
    ([\b], a word boundary, and [\B]), a control character ([\f \n \r \t
    \v]), the character of an octal code ([\0] to [\7]), or, for [\c] with
    no letter after it, a backslash followed by [c]. *)
Inductive DecimalString : Type :=
| OneOf (class : ascii -> bool)
| Boundary (wanted : bool)
| BackslashC.

Definition has_code (n : N) (c : ascii) : bool := (code c =? n)%N.

Definition decimalString (decimal : ascii) : DecimalString :=
  let escape c := Ascii.eqb decimal c in
  if escape "d"%char then OneOf is_digit
  else if escape "D"%char then OneOf (fun c => negb (is_digit c))
  else if escape "w"%char then OneOf is_word
  else if escape "W"%char then OneOf (fun c => negb (is_word c))
  else if escape "s"%char then OneOf is_space
  else if escape "S"%char then OneOf (fun c => negb (is_space c))
  else if escape "b"%char then Boundary true
  else if escape "B"%char then Boundary false
  else if escape "c"%char then BackslashC
  else if escape "f"%char then OneOf (has_code 12)
  else if escape "n"%char then OneOf (has_code 10)
  else if escape "r"%char then OneOf (has_code 13)
  else if escape "t"%char then OneOf (has_code 9)
  else if escape "v"%char then OneOf (has_code 11)
  else if is_digit decimal && (code decimal <=? 55)%N
       then OneOf (has_code (code decimal - 48))
  else OneOf (Ascii.eqb decimal).

(** [s.replace(regex, '')]: every match goes, from left to right. *)
Fixpoint remove_outside (class : ascii -> bool) (s : string) : string :=
  match s with
  | EmptyString => ""
  | String c s' =>
      if class c then String c (remove_outside class s')
      else remove_outside class s'
  end.

Fixpoint remove_before_bracket (class : ascii -> bool) (s : string)
  : string :=
  match s with
  | EmptyString => ""
  | String c s' =>
      match s' with
      | String "]" s'' =>
          if class c then String c (remove_before_bracket class s')
          else remove_before_bracket class s''
      | _ => String c (remove_before_bracket class s')
      end
  end.

Definition strip_non_numeric (regex : NonNumeric) (s : string) : string :=
  match regex with
  | Outside class => remove_outside class s
  | OutsideThenBracket class => remove_before_bracket class s
  end.

(** [s.replace(decimalString, '.')]: every match becomes a point.  An
    assertion matches the empty string, and a point is put in at every
    position where it holds, the two ends of the string included; [before]
    tells whether the character before the position is a word character. *)
Fixpoint replace_one_of (class : ascii -> bool) (s : string) : string :=
  match s with
  | EmptyString => ""
  | String c s' =>
      String (if class c then "."%char else c) (replace_one_of class s')
  end.

Fixpoint replace_backslash_c (s : string) : string :=
  match s with
  | EmptyString => ""
  | String c s' =>
      match s' with
      | String c' s'' =>
          if Ascii.eqb c "\" && Ascii.eqb c' "c"
          then String "." (replace_backslash_c s'')
          else String c (replace_backslash_c s')
      | EmptyString => String c ""
      end
  end.

Fixpoint insert_at_boundaries (wanted before : bool) (s : string) : string :=
  match s with
  | EmptyString => if Bool.eqb before wanted then "." else ""
  | String c s' =>
      ((if Bool.eqb (xorb before (is_word c)) wanted then "." else "")
       ++ String c (insert_at_boundaries wanted (is_word c) s'))%string
  end.

Definition canonical_decimal (decimalString : DecimalString) (s : string)
  : string :=
  match decimalString with
  | OneOf class => replace_one_of class s
  | Boundary wanted => insert_at_boundaries wanted false s
  | BackslashC => replace_backslash_c s
  end.

(** The string branch of [parse] up to [Number]: the two expressions are
    built first, then the three replacements are made. *)
Definition clean (decimal : ascii) (s : string) : result string :=
  regex <- regex decimal ;;
  let decimalString := decimalString decimal in
  Ok (canonical_decimal decimalString
        (strip_non_numeric regex (paren_negative s))).

(** [Number(v.toFixed(4))]. *)
Definition fixed4 (v : float) : result float :=
  s <- toFixed v 4 ;; Ok (Number s).

Definition parse (value : Value) (opts : Settings) (useRounding : bool)
  : result float :=
  let precision := pow (precision opts) in
  v <- match value with
       | VCur c => Ok (Lib.value c * precision)%float
       | VNum n => Ok n
       | VStr s =>
           cleaned <- clean (decimal opts) s ;;
           let v := (Number cleaned * precision)%float in
           Ok (or_else v zero)
       | VOther =>
           if errorOnInvalid opts then Err InvalidInput else Ok zero
       end ;;
  v <- fixed4 v ;;
  Ok (if useRounding then round v else v).

(* ----------------------------------------------------------------- *)
(** *** The constructor *)

Definition is_true (o : option bool) : bool :=
  match o with Some true => true | _ => false end.

(** [increment || (1 / precision)] where [increment] may be absent. *)
Definition increment_or (o : option float) (d : float) : float :=
  match o with Some i => or_else i d | None => d end.

Definition currency (value : Value) (opts : Opts) : result Currency :=
  let settings := assign defaults opts in
  let precision := pow (precision settings) in
  v <- parse value settings true ;;
  let settings := {|
    symbol := symbol settings;
    separator := separator settings;
    decimal := decimal settings;
    formatWithSymbol := formatWithSymbol settings;
    errorOnInvalid := errorOnInvalid settings;
    precision := Lib.precision settings;
    pattern := pattern settings;
    negativePattern := negativePattern settings;
    increment := Some (increment_or (increment settings) (1 / precision)%float);
    useVedic := useVedic settings;
    groups := Some (if is_true (useVedic settings) then vedicRegex else groupRegex)
  |} in
  Ok {| intValue := v;
        value := (v / precision)%float;
        _settings := settings;
        _precision := precision |}.

(* ----------------------------------------------------------------- *)
(** *** Arithmetic *)

Definition add (this : Currency) (number : Value) : result Currency :=
  n <- parse number (_settings this) true ;;
  currency (VNum ((intValue this + n) / _precision this)%float)
           (as_opts (_settings this)).

Definition subtract (this : Currency) (number : Value) : result Currency :=
  n <- parse number (_settings this) true ;;
  currency (VNum ((intValue this - n) / _precision this)%float)
           (as_opts (_settings this)).

Definition multiply (this : Currency) (number : float) : result Currency :=
  currency (VNum ((intValue this * number) / pow (precision (_settings this)))%float)
           (as_opts (_settings this)).

Definition divide (this : Currency) (number : Value) : result Currency :=
  n <- parse number (_settings this) false ;;
  currency (VNum (intValue this / n)%float) (as_opts (_settings this)).

(* ----------------------------------------------------------------- *)
(** *** distribute *)

(** One entry of the distribution: an instance for [split], plus or minus
    one smallest unit while pennies are left. *)
Definition distribute_item (this : Currency) (split pennies : float)
  : result Currency :=
  let unit := VNum (1 / _precision this)%float in
  item <- currency (VNum (split / _precision this)%float)
                   (as_opts (_settings this)) ;;
  if (0 <? pennies)%float
  then (if (0 <=? intValue this)%float
        then add item unit else subtract item unit)
  else Ok item.

(** The largest length of an array. *)
Definition max_length : Z := 2 ^ 32 - 1.

(** [a.push(x)]: the element is added at the end, and the length is set to
    one more; on an array of the largest length the new length is not a
    length of an array, and a [RangeError] is raised. *)
Definition push {A : Type} (a : list A) (x : A) : result (list A) :=
  if Z.of_nat (List.length a) <? max_length then Ok (a ++ [x])%list
  else Err RangeError.

(** The loop of [distribute]: [for (; count !== 0; count--)], on the number
    [count] as it is.  It runs on [fuel]: [None] is a run that has not left
    the loop when the fuel is spent. *)
Fixpoint distribute_loop (fuel : nat) (this : Currency) (split : float)
    (count pennies : float) (distribution : list Currency)
  : option (result (list Currency)) :=
  match fuel with
  | O => None
  | S fuel' =>
      if (count =? 0)%float then Some (Ok distribution)
      else
        match distribute_item this split pennies with
        | Ok item =>
            match push distribution item with
            | Ok distribution' =>
                distribute_loop fuel' this split (count - 1)%float
                                (pennies - 1)%float distribution'
            | Err e => Some (Err e)
            end
        | Err e => Some (Err e)
        end
  end.

(** The amount of one share, rounded towards zero. *)
Definition split_amount (this : Currency) (count : float) : float :=
  (if (0 <=? intValue this)%float then Math_floor else Math_ceil)
    (intValue this / count)%float.

Definition distribute (fuel : nat) (this : Currency) (count : float)
  : option (result (list Currency)) :=
  let split := split_amount this count in
  let pennies := Math_abs (intValue this - split * count)%float in
  distribute_loop fuel this split count pennies [].

(* ----------------------------------------------------------------- *)
(** *** toString and format *)

(** An absent property read as a number is NaN. *)
Definition num (o : option float) : float :=
  match o with Some x => x | None => nan end.

Definition toString (this : Currency) : result string :=
  toFixed (rounding (intValue this / _precision this)%float
                    (num (increment (_settings this))))
          (Z.of_N (precision (_settings this))).

(** The look-ahead of a grouping expression on the text after a digit: the
    digits that follow must be three, six, nine, ... (an odd number from
    three on for the vedic one) and end at a word boundary.  The result is
    what the second group captured last. *)
Definition group_lookahead (g : Groups) (after : string) : option string :=
  let '(run, rest) := span is_digit after in
  let boundary :=
    match rest with
    | EmptyString => true
    | String c _ => negb (is_word c)
    end in
  let n := String.length run in
  match g with
  | groupRegex =>
      if boundary && (3 <=? n)%nat && (n mod 3 =? 0)%nat
      then Some (substring (n - 3) 3 run) else None
  | vedicRegex =>
      if boundary && (3 <=? n)%nat && Nat.odd n
      then Some (substring (n - 3) 2 run) else None
  end.

(** [s.replace(g, repl)] for a grouping expression [g]: every digit whose
    look-ahead succeeds is replaced by the expansion of [repl]. *)
Fixpoint replace_groups_from (g : Groups) (repl : string)
    (before s : string) : string :=
  match s with
  | EmptyString => ""
  | String c rest =>
      (match (if is_digit c then group_lookahead g rest else None) with
       | Some c2 =>
           substitute (String c "") before rest
                      [Some (String c ""); Some c2] repl
       | None => String c ""
       end
       ++ replace_groups_from g repl (before ++ String c "") rest)%string
  end.

(** With no expression at all the search is for the text [undefined], which
    no output of [toFixed] contains. *)
Definition replace_groups (g : option Groups) (repl s : string) : string :=
  match g with
  | Some g => replace_groups_from g repl "" s
  | None => s
  end.

(** The removal of one leading minus sign. *)
Definition strip_minus (s : string) : string :=
  match s with
  | String "-" r => r
  | _ => s
  end.

(** The text that stands for [#]: the grouped whole part, then the decimal
    separator and the fractional part when there is a non-empty one. *)
Definition amount_text (st : Settings) (dollars : string)
    (cents : option string) : string :=
  (replace_groups (groups st) ("$1" ++ separator st) dollars
   ++ match cents with
      | Some (String c r) => String (decimal st) (String c r)
      | _ => ""
      end)%string.

Definition format (this : Currency) (useSymbol : option bool)
  : result string :=
  let st := _settings this in
  str <- toString this ;;
  let '(dollars, rest) := split "." (strip_minus str) in
  let cents := hd_error rest in
  let useSymbol := override useSymbol (formatWithSymbol st) in
  Ok (replace_char "#" (amount_text st dollars cents)
        (replace_char "!" (if useSymbol then symbol st else "")
           (if (0 <=? value this)%float then pattern st
            else negativePattern st))).

Definition toJSON (this : Currency) : float := value this.

End Lib.

(* ================================================================= *)
(** ** Instances as objects in a store

    The instances and their settings are objects, and an instance holds its
    settings by reference.  This layer places the values that [Lib]
    computes in a store, a list of objects addressed by position: the
    constructor allocates the new instance and the settings object that
    [Object.assign] fills, and writes to these two only. *)

Module Store.
Import JS Lib.

Definition loc := nat.

Inductive object :=
| OSettings (s : Settings)
| OOpts (o : Opts)
| OCurrency (intValue value : float) (settings : loc) (precision : float).

Definition store := list object.

(** An argument: a number, a string, a reference to an instance, or a value
    of another type. *)
Inductive SValue :=
| SNum (n : float)
| SStr (s : string)
| SCur (l : loc)
| SOther.

Inductive outcome (A : Type) :=
| Return (a : A) (h : store)
| Throw (e : error) (h : store)
| Stuck.
Arguments Return {A} a h.
Arguments Throw {A} e h.
Arguments Stuck {A}.

Definition settings_at (h : store) (l : loc) : option Settings :=
  match nth_error h l with
  | Some (OSettings s) => Some s
  | _ => None
  end.

Definition settings_ref (h : store) (l : loc) : option loc :=
  match nth_error h l with
  | Some (OCurrency _ _ r _) => Some r
  | _ => None
  end.

(** The instance at [l], with the contents of its settings object. *)
Definition read (h : store) (l : loc) : option Currency :=
  match nth_error h l with
  | Some (OCurrency i v r p) =>
      match settings_at h r with
      | Some s => Some (Build_Currency i v s p)
      | None => None
      end
  | _ => None
  end.

(** The options behind an options argument: none, an options object, or the
    settings object of an instance. *)
Definition read_opts (h : store) (o : option loc) : option Opts :=
  match o with
  | None => Some no_opts
  | Some l =>
      match nth_error h l with
      | Some (OSettings s) => Some (as_opts s)
      | Some (OOpts o) => Some o
      | _ => None
      end
  end.

Definition resolve (h : store) (v : SValue) : option Value :=
  match v with
  | SNum n => Some (VNum n)
  | SStr s => Some (VStr s)
  | SCur l => option_map VCur (read h l)
  | SOther => Some VOther
  end.

(** [new currency(value, opts)]: the instance is the first new object and
    its settings the second. *)
Definition new_currency (value : SValue) (opts : option loc) (h : store)
  : outcome loc :=
  match resolve h value, read_opts h opts with
  | Some v, Some o =>
      match currency v o with
      | Ok c =>
          let this := List.length h in
          Return this
            (h ++ [OCurrency (intValue c) (Lib.value c) (S this) (_precision c);
                   OSettings (_settings c)])%list
      | Err e => Throw e h
      end
  | _, _ => Stuck
  end.

(** A method that parses its argument with the settings of [this] and builds
    a new instance from the number [f intValue parsed _precision]. *)
Definition parsing_method (useRounding : bool)
    (f : float -> float -> float -> float)
    (this : loc) (number : SValue) (h : store) : outcome loc :=
  match nth_error h this with
  | Some (OCurrency i _ r p) =>
      match settings_at h r, resolve h number with
      | Some st, Some v =>
          match parse v st useRounding with
          | Ok n => new_currency (SNum (f i n p)) (Some r) h
          | Err e => Throw e h
          end
      | _, _ => Stuck
      end
  | _ => Stuck
  end.

Definition add : loc -> SValue -> store -> outcome loc :=
  parsing_method true (fun i n p => (i + n) / p)%float.

Definition subtract : loc -> SValue -> store -> outcome loc :=
  parsing_method true (fun i n p => (i - n) / p)%float.

Definition divide : loc -> SValue -> store -> outcome loc :=
  parsing_method false (fun i n p => i / n)%float.

Definition multiply (this : loc) (number : float) (h : store) : outcome loc :=
  match nth_error h this with
  | Some (OCurrency i _ r _) =>
      match settings_at h r with
      | Some st =>
          new_currency (SNum ((i * number) / pow (precision st))%float) (Some r) h
      | None => Stuck
      end
  | _ => Stuck
  end.

(** The four arithmetic operations with their arguments. *)
Inductive operation :=
| Add (number : SValue)
| Subtract (number : SValue)
| Multiply (number : float)
| Divide (number : SValue).

Definition apply (o : operation) (this : loc) (h : store) : outcome loc :=
  match o with
  | Add n => add this n h
  | Subtract n => subtract this n h
  | Multiply n => multiply this n h
  | Divide n => divide this n h
  end.

(** The argument of the operation is one the store can read: a reference
    among the arguments leads to an instance. *)
Definition readable (h : store) (o : operation) : Prop :=
  match o with
  | Add n | Subtract n | Divide n => resolve h n <> None
  | Multiply _ => True
  end.

(** Every object of [h] is in [h'], at its place and as it was. *)
Definition unchanged (h h' : store) : Prop :=
  forall l, (l < List.length h)%nat -> nth_error h' l = nth_error h l.

(** [c] is what a construction returned. *)
Definition constructed (c : Currency) : Prop :=
  exists v o, currency v o = Ok c.

End Store.

(* ================================================================= *)
(** ** Binary64 values as sign, mantissa and exponent

    What the proofs about [count--] need of the specification of the
    primitive floats. *)

Module Binary64.

(** The number of binary digits of a mantissa. *)
Definition D (p : positive) : Z := Zpos (digits2_pos p).

(** A shifted mantissa with nothing lost. *)
Definition exact (m : Z) : shr_record :=
  {| shr_m := m; shr_r := false; shr_s := false |}.

(** The float of sign [s] and magnitude [p], for [p] below [2^53]: the
    mantissa is [p] shifted to 53 digits. *)
Definition canon (s : bool) (p : positive) : spec_float :=
  S754_finite s (Z.to_pos (Zpos p * 2 ^ (53 - D p))) (D p - 53).

(** An infinity or a finite non-zero value of sign [s]. *)
Definition signed_nonzero (s : bool) (x : spec_float) : Prop :=
  x = S754_infinity s \/ exists m e, x = S754_finite s m e.

(** [x < 0]. *)
Definition negative (x : float) : Prop := (x <? 0)%float = true.

(** The power [2^e] as a rational, and the exact value of a mantissa at an
    exponent. *)
Definition pow2 (e : Z) : Q := Qpower 2 e.

Definition magZ (m e : Z) : Q := (inject_Z m * pow2 e)%Q.

(** The rounding error of one operation, relative to the exact result. *)
Definition ulp_rel : Q := 1 # (2 ^ 52).

(** The integer [P] with the sign [s]. *)
Definition signedZ (s : bool) (P : Z) : Z := if s then - P else P.

End Binary64.

(* ================================================================= *)
(** ** Definitions used by the statements *)

Module Obs.
Import JS Lib.

(** A field of the instance that a construction or a method returned. *)
Definition field {A B : Type} (f : A -> B) (r : result A) : option B :=
  match r with
  | Ok a => Some (f a)
  | Err _ => None
  end.

(** [Money(x)] with no options. *)
Definition Money (x : Value) : result Currency := currency x no_opts.

(** The numbers [0.1], [0.2], ... as the language reads them. *)
Definition lit (s : string) : float := Number s.

(** The [intValue] fields of the instances that [distribute] returned. *)
Definition intValues (r : option (result (list Currency)))
  : option (list float) :=
  match r with
  | Some (Ok l) => Some (map intValue l)
  | _ => None
  end.

(** Every character of [s] satisfies [p]. *)
Fixpoint all_chars (p : ascii -> bool) (s : string) : bool :=
  match s with
  | EmptyString => true
  | String c s' => p c && all_chars p s'
  end.




Definition with_symbol : Opts :=
  Build_Opts None None None (Some true) None None None None None None None.

Definition whole_units : Opts :=
  Build_Opts None None None None None (Some 0%N) None None None None None.

(** The options [{ decimal: '\\' }], [{ decimal: 'd' }] and
    [{ errorOnInvalid: true }]. *)
Definition backslash_decimal : Opts :=
  Build_Opts None None (Some "\"%char) None None None None None None None None.


Definition strict : Opts :=
  Build_Opts None None None None (Some true) None None None None None None.

(** The settings of an instance built with no options. *)
Definition default_settings : Settings := {|
  symbol := "$";
  separator := ",";
  decimal := ".";
  formatWithSymbol := false;
  errorOnInvalid := false;
  precision := 2;
  pattern := "!#";
  negativePattern := "-!#";
  increment := Some (1 / 100)%float;
  useVedic := None;
  groups := Some groupRegex
|}.

(** The instance with default settings that holds [v]. *)
Definition holding (v : float) : Currency := {|
  intValue := v;
  value := (v / 100)%float;
  _settings := default_settings;
  _precision := 100%float
|}.

(** [Money(c.toString()).value === c.value]. *)
Definition round_trips (c : Currency) : bool :=
  match toString c with
  | Ok s =>
      match Money (VStr s) with
      | Ok c' => (value c' =? value c)%float
      | Err _ => false
      end
  | Err _ => false
  end.

(** [p] holds of the [k] integers from [z] on and of their opposites. *)
Fixpoint all_from (k : nat) (z : Z) (p : Z -> bool) : bool :=
  match k with
  | O => true
  | S k' => p z && p (- z) && all_from k' (z + 1) p
  end.

(** [p] holds of every integer from [-n] to [n]. *)
Definition all_upto (n : nat) (p : Z -> bool) : bool := all_from (S n) 0 p.

(** Grouping in the words of the specification: the separator stands after
    every digit that has three, six, nine, ... digits to its right. *)
Fixpoint group_spec (sep ds : string) : string :=
  match ds with
  | EmptyString => ""
  | String c rest =>
      let n := String.length rest in
      String c ((if (0 <? n)%nat && (n mod 3 =? 0)%nat then sep else "")
                ++ group_spec sep rest)
  end%string.

(** Vedic grouping: the separator stands after every digit that has three,
    five, seven, ... digits to its right (groups of two before the last
    three). *)
Fixpoint vedic_spec (sep ds : string) : string :=
  match ds with
  | EmptyString => ""
  | String c rest =>
      let n := String.length rest in
      String c ((if (3 <=? n)%nat && Nat.odd n then sep else "")
                ++ vedic_spec sep rest)
  end%string.

(** A store with one instance, [Money("1")], and its settings. *)
Definition example_store : Store.store :=
  [Store.OCurrency 100 1 1%nat 100; Store.OSettings default_settings].

(** The exact value of [x] is an integer, or [x] is an infinity or NaN. *)
Definition whole (x : float) : bool :=
  match Prim2SF x with
  | S754_finite _ m e => (0 <=? e) || (Zpos m mod 2 ^ (- e) =? 0)
  | _ => true
  end.

(** The characters of a decimal that [toFixed] prints. *)
Definition decimal_char (c : ascii) : bool :=
  is_digit c || Ascii.eqb c "-" || Ascii.eqb c ".".

(** The bound of the round trip, in hundredths. *)
Definition round_trip_bound : Z := 2 ^ 49.

End Obs.

(* ================================================================= *)
(** ** Whole units and cents

    The methods [dollars] and [cents], with the two operators they use:
    [~] (a bitwise NOT, on the 32-bit integer that [ToInt32] gives) and [%]
    (the remainder of a division of numbers, with the sign of the
    dividend). *)

Module Units.
Import JS Lib.

(** [ToInt32]: a NaN, an infinity or a zero gives 0; another number is cut
    to an integer towards zero, taken modulo [2^32] and read as a signed
    32-bit integer. *)
Definition ToInt32 (x : float) : Z :=
  match Prim2SF x with
  | S754_finite s m e =>
      let magnitude :=
        if 0 <=? e then Zpos m * 2 ^ e else Zpos m / 2 ^ (- e) in
      let int := if s then - magnitude else magnitude in
      let int32bit := int mod 2 ^ 32 in
      if 2 ^ 31 <=? int32bit then int32bit - 2 ^ 32 else int32bit
  | _ => 0
  end.

(** [~x]: every bit of [ToInt32 x] is flipped, which is [-n - 1] on a
    signed integer. *)
Definition bitwise_not (x : float) : float := of_Z (- ToInt32 x - 1).

(** [n % d]: NaN when [n] is not finite or [d] is a zero, [n] when [d] is
    infinite or [n] a zero, and else [n - d * q] for the quotient [q] cut
    towards zero, which is a float; a zero result has the sign of [n].
    Both numbers are written on their smaller exponent [e], as [N * 2^e]
    and [D * 2^e]. *)
Definition remainder (n d : float) : float :=
  match Prim2SF n, Prim2SF d with
  | S754_nan, _ | _, S754_nan => nan
  | S754_infinity _, _ => nan
  | _, S754_infinity _ => n
  | _, S754_zero _ => nan
  | S754_zero _, _ => n
  | S754_finite sn mn en, S754_finite _ md ed =>
      let e := Z.min en ed in
      let r := (Zpos mn * 2 ^ (en - e)) mod (Zpos md * 2 ^ (ed - e)) in
      if r =? 0 then (if sn then neg_zero else zero)
      else SF2Prim (binary_normalize prec emax (if sn then - r else r) e false)
  end.

(** [currency.prototype.dollars]: [~~this.value]. *)
Definition dollars (this : Currency) : float :=
  bitwise_not (bitwise_not (value this)).

(** [currency.prototype.cents]: [~~(intValue % _precision)]. *)
Definition cents (this : Currency) : float :=
  bitwise_not (bitwise_not (remainder (intValue this) (_precision this))).

(** *** Definitions used by the statements *)

(** A signed 32-bit integer. *)
Definition int32 (z : Z) : Prop := - 2 ^ 31 <= z < 2 ^ 31.

(** The integer [z] read modulo [2^32] as a signed 32-bit integer. *)
Definition wrap32 (z : Z) : Z :=
  let i := z mod 2 ^ 32 in
  if 2 ^ 31 <=? i then i - 2 ^ 32 else i.

(** An instance built from another one holds the same amount. *)
Definition copy_keeps (c : Currency) : bool :=
  match currency (VCur c) no_opts with
  | Ok c' => (intValue c' =? intValue c)%float && (value c' =? value c)%float
  | Err _ => false
  end.


(** The bound of the check of copies, in hundredths. *)
Definition copy_bound : nat := Z.to_nat 10000.

End Units.

(* ================================================================= *)
(** ** The event emitter

    The first part of src/source.ts: [on], [off], [trigger], [_dispatch],
    the three [_off...] helpers, the constructors [Emitter] and [Event], and
    [mixin].

    The field [events] of an emitter is an object used as a map from the
    type of an event to the array of its handlers; it is absent on an object
    that was not made by [Emitter()].  A handler is a function: the code
    compares handlers by identity only ([indexOf]), so a handler is a
    number here, and calling it is recorded, with the arguments it
    received, in the order of the calls.  A handler is taken not to call
    the emitter back, not to change the array of arguments and not to
    raise.  The reading of the clock by [new Date()] is an argument of
    [trigger]. *)

Module Emitter.

Definition handler : Type := nat.

(** An event object: [{ type, timeStamp }]. *)
Record Event : Type := { type : string; timeStamp : Z }.

(** An element of the array [args]: after [unshift] the array holds
    events next to the values of the caller. *)
Inductive arg : Type :=
| AEvent (e : Event)
| AValue (v : Z).

(** The own properties of the object [this.events]. *)
Definition events : Type := list (string * list handler).

Inductive exn : Type := TypeError.

Inductive completion (A : Type) : Type :=
| Normal (a : A)
| Throw (e : exn).
Arguments Normal {A} a.
Arguments Throw {A} e.

(** What a method returns: [this], or nothing. *)
Inductive returned : Type := This | Undefined.

(** The own property [k] of [o]. *)
Fixpoint own (o : events) (k : string) : option (list handler) :=
  match o with
  | [] => None
  | (k', v) :: o' => if (k' =? k)%string then Some v else own o' k
  end.

(** [o] with the own property [k] set to [v]. *)
Fixpoint put (o : events) (k : string) (v : list handler) : events :=
  match o with
  | [] => [(k, v)]
  | (k', v') :: o' =>
      if (k' =? k)%string then (k', v) :: o' else (k', v') :: put o' k v
  end.

(** [delete o[k]]. *)
Fixpoint remove (o : events) (k : string) : events :=
  match o with
  | [] => []
  | (k', v') :: o' =>
      if (k' =? k)%string then remove o' k else (k', v') :: remove o' k
  end.

(** [o[k] = v] on an object whose prototype chain ends in
    [Object.prototype]: the name [__proto__] is an accessor there, and the
    assignment of an array to it replaces the prototype of [o] instead of
    creating a property, unless [o] has an own property of that name.  The
    prototype is not observed by the code, which reads own properties only. *)
Definition assign (o : events) (k : string) (v : list handler) : events :=
  match own o k with
  | None => if (k =? "__proto__")%string then o else put o k v
  | Some _ => put o k v
  end.

(** [o.hasOwnProperty(k)]: the method is inherited, unless an own property
    of that name hides it; the value of such a property is an array here,
    and calling it raises a [TypeError]. *)
Definition hasOwnProperty (o : events) (k : string) : completion bool :=
  match own o "hasOwnProperty" with
  | Some _ => Throw TypeError
  | None => Normal (match own o k with Some _ => true | None => false end)
  end.

(** [o[k] || []]. *)
Definition handlers_of (o : events) (k : string) : list handler :=
  match own o k with
  | Some l => l
  | None => []
  end.

(** [l.indexOf(h)]. *)
Fixpoint indexOf (h : handler) (l : list handler) : Z :=
  match l with
  | [] => -1
  | h' :: l' =>
      if Nat.eqb h' h then 0
      else let i := indexOf h l' in if i <? 0 then -1 else i + 1
  end.

(** [l.splice(i, 1)] for [0 <= i]: what is left in [l]. *)
Fixpoint splice (i : nat) (l : list handler) : list handler :=
  match l, i with
  | [], _ => []
  | _ :: l', O => l'
  | h :: l', S i' => h :: splice i' l'
  end.

(** What a call of a method leaves: the value returned or the exception,
    the field [events] of the receiver, the array [args] of the caller
    when there is one, and the calls of handlers in order. *)
Record output : Type := {
  result : completion returned;
  this_events : option events;
  args_after : option (list arg);
  calls : list (handler * list arg)
}.

Definition quiet (r : completion returned) (this : option events) : output :=
  {| result := r; this_events := this; args_after := None; calls := [] |}.

(** [Emitter()]: a new object with an empty [events]. *)
Definition Emitter : option events := @Some events [].

(** [new Event(type)]. *)
Definition new_Event (ty : string) (now : Z) : Event :=
  {| type := ty; timeStamp := now |}.

(** [emitter.on]: when [events] is absent it is created with the handler
    under [type], and the test that follows is then run on it. *)
Definition on (ty : string) (h : handler) (this : option events) : output :=
  let o := match this with
           | Some o => o
           | None => assign [] ty [h]
           end in
  match hasOwnProperty o ty with
  | Throw e => quiet (Throw e) (Some o)
  | Normal true => quiet (Normal This) (Some (put o ty (handlers_of o ty ++ [h])))
  | Normal false => quiet (Normal This) (Some (assign o ty [h]))
  end.

Definition _offAll (this : option events) : output :=
  quiet (Normal This) (@Some events []).

(** [this.events.hasOwnProperty] on an absent [events] raises. *)
Definition _offByType (ty : string) (this : option events) : output :=
  match this with
  | None => quiet (Throw TypeError) this
  | Some o =>
      match hasOwnProperty o ty with
      | Throw e => quiet (Throw e) this
      | Normal true => quiet (Normal This) (Some (remove o ty))
      | Normal false => quiet (Normal This) this
      end
  end.

Definition _offByHandler (ty : string) (h : handler) (this : option events)
  : output :=
  match this with
  | None => quiet (Throw TypeError) this
  | Some o =>
      match hasOwnProperty o ty with
      | Throw e => quiet (Throw e) this
      | Normal false => quiet (Normal Undefined) this
      | Normal true =>
          let l := handlers_of o ty in
          let i := indexOf h l in
          if -1 <? i
          then quiet (Normal This) (Some (put o ty (splice (Z.to_nat i) l)))
          else quiet (Normal This) this
      end
  end.

(** The arguments of a call of [off]: none, a type (the handler left out or
    [undefined]), or a type and a handler. *)
Inductive off_arguments : Type :=
| NoArguments
| OnlyType (ty : string)
| TypeAndHandler (ty : string) (h : handler).

Definition off (a : off_arguments) (this : option events) : output :=
  match a with
  | NoArguments => _offAll this
  | OnlyType ty => _offByType ty this
  | TypeAndHandler ty h => _offByHandler ty h this
  end.

(** [emitter._dispatch]: [args] is the array of the caller, or absent. *)
Definition _dispatch (event : Event) (args : option (list arg))
  (this : option events) : output :=
  let nothing (r : completion returned) :=
    {| result := r; this_events := this; args_after := args; calls := [] |} in
  match this with
  | None => nothing (Normal Undefined)
  | Some o =>
      match hasOwnProperty o (type event) with
      | Throw e => nothing (Throw e)
      | Normal false => nothing (Normal Undefined)
      | Normal true =>
          let args' := AEvent event :: match args with
                                       | Some a => a
                                       | None => []
                                       end in
          let handlers := handlers_of o (type event) in
          {| result := Normal This;
             this_events := this;
             args_after := match args with
                           | Some _ => Some args'
                           | None => None
                           end;
             calls := map (fun h => (h, args')) handlers |}
      end
  end.

(** [emitter.trigger]: [event] is a string or an event object. *)
Definition trigger (event : string + Event) (args : option (list arg))
  (now : Z) (this : option events) : output :=
  let eventToDispatch := match event with
                         | inl ty => new_Event ty now
                         | inr e => e
                         end in
  _dispatch eventToDispatch args this.

(** *** [mixin]

    A call of [mixin(obj, arr)] makes one emitter and gives [obj], under
    each name of [arr], a function that applies the method of that name to
    this emitter.  The emitters are kept in a store; of [obj] the model
    keeps the methods it was given, each with the emitter it is bound to. *)



(** A call of a method with its arguments. *)
Inductive call : Type :=
| c_on (ty : string) (h : handler)
| c_off (a : off_arguments)
| c__offAll
| c__offByType (ty : string)
| c__offByHandler (ty : string) (h : handler)
| c_trigger (event : string + Event) (args : option (list arg)) (now : Z)
| c__dispatch (event : Event) (args : option (list arg)).


(** [emitter[name].apply(emitter, arguments)]. *)
Definition apply (c : call) (this : option events) : output :=
  match c with
  | c_on ty h => on ty h this
  | c_off a => off a this
  | c__offAll => _offAll this
  | c__offByType ty => _offByType ty this
  | c__offByHandler ty h => _offByHandler ty h this
  | c_trigger event args now => trigger event args now this
  | c__dispatch event args => _dispatch event args this
  end.

(** The emitters made so far. *)
Definition store : Type := list (option events).




Fixpoint update (s : store) (e : nat) (this : option events) : store :=
  match s, e with
  | [], _ => []
  | _ :: s', O => this :: s'
  | x :: s', S e' => x :: update s' e' this
  end.


(** *** Definitions used by the statements *)

(** The calls of [on] of a list of registrations, in order, stopping at
    the first exception. *)
Fixpoint register (regs : list (string * handler)) (this : option events)
  : completion (option events) :=
  match regs with
  | [] => Normal this
  | (ty, h) :: regs' =>
      let out := on ty h this in
      match result out with
      | Normal _ => register regs' (this_events out)
      | Throw e => Throw e
      end
  end.



(** [events] has no own property that hides [hasOwnProperty]. *)
Definition sound (o : events) : Prop := own o "hasOwnProperty" = None.

(** The arguments that the handlers of [event] receive when [trigger] is
    given the array [args]. *)
Definition received (event : Event) (args : option (list arg)) : list arg :=
  AEvent event :: match args with
                  | Some a => a
                  | None => []
                  end.

(** The calls that reset [events]. *)
Definition resets (c : call) : bool :=
  match c with
  | c_off NoArguments | c__offAll => true
  | _ => false
  end.




End Emitter.

(* ================================================================= *)
(** ** Properties *)

Import JS Lib Obs.

(** *** Construction from a number *)

(** C1.  The claim is that construction scales a numeric input by [10^p]:
    [Money(x).intValue] is [x * 10^p], truncated to four decimals and
    rounded.  The number branch of [parse] stores the input as it is: for
    every number and all settings the result is [round(Number(x.toFixed(4)))],
    with no factor.  [Money(1)] holds [intValue = 1] and [value = 0.01],
    where the string branch gives [Money("1")] the [intValue] 100. *)
Theorem number_input_is_stored_unscaled :
  (forall x st, parse (VNum x) st true = (v <- fixed4 x ;; Ok (round v)))
  /\ field intValue (Money (VNum 1)) = Some 1%float
  /\ field value (Money (VNum 1)) = Some (1 / 100)%float
  /\ field intValue (Money (VStr "1")) = Some 100%float
  /\ field value (Money (VStr "1")) = Some 1%float.
Proof.
  split; [reflexivity|].
  repeat split; vm_compute; reflexivity.
Qed.

(** *** distribute *)

(** C2.  The claim is that the [intValue]s of [distribute(N)] sum to the
    [intValue] of the receiver.  [Money("10")] holds 1000; its
    [distribute(3)] returns instances holding 0, 3 and 3, and
    [Money("1").distribute(2)] returns 1 and 1 for a receiver holding 100:
    each entry is built from [split / _precision] by the number branch of the
    constructor, which does not scale it back. *)
Theorem distribute_loses_the_amount :
  field intValue (Money (VStr "10")) = Some 1000%float
  /\ (c <- Money (VStr "10") ;; Ok (intValues (distribute 10 c 3)))
     = Ok (Some [0; 3; 3]%float)
  /\ (c <- Money (VStr "1") ;; Ok (intValues (distribute 10 c 2)))
     = Ok (Some [1; 1]%float).
Proof.
  repeat split; vm_compute; reflexivity.
Qed.

(** *** add *)

(** C3.  The claim is that [Money(a).add(b).value] is [a + b] up to
    [10^-p], with [Money(1).add(Money(2)).value === 3] and
    [Money(0.1).add(0.2).value === 0.3].  Both sums come out as 0: the
    operands hold 1 and 2 (0 and 0 for the second sum), and the new instance
    is built from [(intValue + parsed) / _precision] without scaling. *)
Theorem add_examples_give_zero :
  (a <- Money (VNum 1) ;; b <- Money (VNum 2) ;;
   r <- add a (VCur b) ;; Ok (value r)) = Ok 0%float
  /\ (a <- Money (VNum (lit "0.1")) ;;
      r <- add a (VNum (lit "0.2")) ;; Ok (value r)) = Ok 0%float.
Proof.
  split; vm_compute; reflexivity.
Qed.

(** *** Facts about floats, from the specification of the primitives *)

Lemma is_nan_eq (x : float) : is_nan x = true -> x = nan.
Proof.
  intros H. rewrite <- (SF2Prim_Prim2SF x).
  unfold Prim2SF. rewrite H. reflexivity.
Qed.

Lemma mul_nan_l (p : float) : (nan * p)%float = nan.
Proof.
  rewrite <- (SF2Prim_Prim2SF (nan * p)), mul_spec.
  replace (Prim2SF nan) with S754_nan by (vm_compute; reflexivity).
  reflexivity.
Qed.

Lemma is_zero_Prim2SF (n : float) :
  is_zero n = true -> exists s, Prim2SF n = S754_zero s.
Proof.
  intros Hz. unfold Prim2SF.
  destruct (is_nan n) eqn:Hn.
  - apply is_nan_eq in Hn. subst n. vm_compute in Hz. discriminate.
  - rewrite Hz. eauto.
Qed.

(** A zero times any number is a zero or NaN: falsy. *)
Lemma truthy_zero_mul (n p : float) :
  is_zero n = true -> truthy (n * p) = false.
Proof.
  intros Hz. destruct (is_zero_Prim2SF n Hz) as [s Hs].
  rewrite <- (SF2Prim_Prim2SF (n * p)), mul_spec, Hs.
  destruct (Prim2SF p) as [sy|sy| |sy my ey]; destruct s; try destruct sy;
    vm_compute; reflexivity.
Qed.

Lemma truthy_nan_mul (n p : float) :
  is_nan n = true -> truthy (n * p) = false.
Proof.
  intros Hn. apply is_nan_eq in Hn. subst n. rewrite mul_nan_l.
  vm_compute. reflexivity.
Qed.

(** *** parse *)

(** [Number(v.toFixed(4))] always has a value: four digits are in the range
    of [toFixed]. *)
Lemma fixed4_total (v : float) : exists w, fixed4 v = Ok w.
Proof.
  unfold fixed4, toFixed.
  change (100 <? 4)%N with false. cbv iota.
  destruct (Prim2SF v) as [s|s| |s m e]; try (eexists; reflexivity).
  destruct ((0 <=? e) && (10 ^ 21 <=? Z.pos m * 2 ^ e)); eexists; reflexivity.
Qed.

Lemma fixed4_zero : fixed4 zero = Ok zero.
Proof. vm_compute. reflexivity. Qed.

(** The cleanup of a string raises for one separator, the backslash. *)
Lemma clean_raises (d : ascii) (s : string) :
  (d = "\"%char -> clean d s = Err SyntaxError)
  /\ (d <> "\"%char -> exists t, clean d s = Ok t)
  /\ (forall e, clean d s = Err e -> e = SyntaxError /\ d = "\"%char).
Proof.
  unfold clean, regex. destruct (Ascii.eqb d "\") eqn:E.
  - apply Ascii.eqb_eq in E. subst d. split; [reflexivity|].
    split; [intros N; contradiction|]. intros e H. injection H as <-. auto.
  - apply Ascii.eqb_neq in E. split; [intros ->; contradiction|].
    destruct (Ascii.eqb d "]");
      (split; [intros _; eexists; reflexivity|intros e H; discriminate H]).
Qed.

(** The string branch of [parse]. *)
Lemma parse_string (s : string) (st : Settings) (r : bool) :
  parse (VStr s) st r
  = (t <- clean (decimal st) s ;;
     v <- fixed4 (or_else (Number t * pow (precision st)) zero) ;;
     Ok (if r then round v else v)).
Proof. unfold parse. destruct (clean (decimal st) s); reflexivity. Qed.

(** A string whose cleaned text is falsy after scaling is parsed as 0. *)
Lemma parse_string_falsy (s t : string) (st : Settings) (r : bool) :
  clean (decimal st) s = Ok t ->
  truthy (Number t * pow (precision st)) = false ->
  parse (VStr s) st r = Ok zero.
Proof.
  intros C H. rewrite parse_string, C. cbn. unfold or_else.
  rewrite H, fixed4_zero. destruct r; reflexivity.
Qed.

(** What [parse] raises, for every value and all settings. *)
Lemma parse_raises (value : Value) (st : Settings) (r : bool) (e : error) :
  parse value st r = Err e ->
  (e = InvalidInput /\ errorOnInvalid st = true /\ value = VOther)
  \/ (e = SyntaxError /\ decimal st = "\"%char /\ exists s, value = VStr s).
Proof.
  destruct value as [n|s|c|].
  - unfold parse. destruct (fixed4_total n) as [w ->]. discriminate.
  - rewrite parse_string. destruct (clean (decimal st) s) as [t|e'] eqn:C.
    + cbn. destruct (fixed4_total (or_else (Number t * pow (precision st))
                                     zero)) as [w ->]. discriminate.
    + cbn. intros H. injection H as <-.
      destruct (proj2 (proj2 (clean_raises _ _)) _ C) as [-> D].
      right. eauto.
  - unfold parse.
    destruct (fixed4_total (Lib.value c * pow (precision st))%float)
      as [w ->]. discriminate.
  - unfold parse. destruct (errorOnInvalid st).
    + intros E. injection E as <-. left. auto.
    + destruct (fixed4_total zero) as [w ->]. discriminate.
Qed.

Lemma parse_invalid (st : Settings) (r : bool) :
  errorOnInvalid st = true -> parse VOther st r = Err InvalidInput.
Proof. intros E. unfold parse. rewrite E. reflexivity. Qed.

Lemma parse_syntax_error (s : string) (st : Settings) (r : bool) :
  decimal st = "\"%char -> parse (VStr s) st r = Err SyntaxError.
Proof.
  intros D. rewrite parse_string.
  rewrite (proj1 (clean_raises (decimal st) s) D). reflexivity.
Qed.

(** C4, as stated, fails: [InvalidInput] is not the single kind of error.
    With a backslash as decimal separator the expression
    ['[^-\\d' + decimal + ']'] has a character class with no end, and every
    string input raises the [SyntaxError] of [new RegExp], whatever
    [errorOnInvalid] says. *)
Lemma backslash_separator_counterexample :
  errorOnInvalid (assign defaults backslash_decimal) = false
  /\ decimal (assign defaults backslash_decimal) = "\"%char
  /\ parse (VStr "1") (assign defaults backslash_decimal) true
     = Err SyntaxError
  /\ Money (VStr "1") = Ok (holding 100).
Proof. repeat split; vm_compute; reflexivity. Qed.

(** C4, amended.  [parse] raises two kinds of error: [InvalidInput], exactly
    when [errorOnInvalid] is set and the input is neither a number, a string
    nor an instance; and [SyntaxError], exactly when the input is a string
    and the decimal separator is a backslash.  With any other separator a
    string input always has a result, and that result is 0 when its cleaned
    text is not a number (NaN) or is empty. *)
Theorem parse_raises_two_kinds
    (value : Value) (st : Settings) (useRounding : bool) :
  (parse value st useRounding = Err InvalidInput
   <-> errorOnInvalid st = true /\ value = VOther)
  /\ (parse value st useRounding = Err SyntaxError
      <-> decimal st = "\"%char /\ exists s, value = VStr s)
  /\ (forall e, parse value st useRounding = Err e
      -> e = InvalidInput \/ e = SyntaxError)
  /\ (forall s, value = VStr s -> decimal st <> "\"%char ->
        exists t,
          clean (decimal st) s = Ok t
          /\ (exists v, parse value st useRounding = Ok v)
          /\ (is_nan (Number t) = true ->
              parse value st useRounding = Ok zero)
          /\ (t = "" -> parse value st useRounding = Ok zero)).
Proof.
  split; [|split; [|split]].
  - split.
    + intros H. destruct (parse_raises _ _ _ _ H) as [[_ K]|[K _]];
        [exact K|discriminate K].
    + intros [He ->]. apply parse_invalid, He.
  - split.
    + intros H. destruct (parse_raises _ _ _ _ H) as [[K _]|[_ K]];
        [discriminate K|exact K].
    + intros [D [s ->]]. apply parse_syntax_error, D.
  - intros e H. destruct (parse_raises _ _ _ _ H) as [[-> _]|[-> _]]; auto.
  - intros s -> D.
    destruct (proj1 (proj2 (clean_raises (decimal st) s)) D) as [t C].
    exists t. split; [exact C|]. split; [|split].
    + rewrite parse_string, C. cbn.
      destruct (fixed4_total (or_else (Number t * pow (precision st)) zero))
        as [w ->]. eauto.
    + intros Hn. apply (parse_string_falsy s t st _ C), truthy_nan_mul, Hn.
    + intros ->. apply (parse_string_falsy s "" st _ C).
      apply truthy_zero_mul. vm_compute. reflexivity.
Qed.

(** The two errors, and the string ["abc"] with the default settings. *)
Lemma parse_raises_two_kinds_witness :
  parse VOther (assign defaults strict) true = Err InvalidInput
  /\ parse (VStr "abc") (assign defaults backslash_decimal) true
     = Err SyntaxError
  /\ parse (VStr "abc") defaults true = Ok zero.
Proof.
  split; [|split].
  - apply (proj1 (parse_raises_two_kinds VOther (assign defaults strict)
                    true)).
    split; reflexivity.
  - apply (proj1 (proj2 (parse_raises_two_kinds (VStr "abc")
                           (assign defaults backslash_decimal) true))).
    split; [reflexivity|eauto].
  - destruct (proj2 (proj2 (proj2 (parse_raises_two_kinds (VStr "abc")
                                     defaults true))) "abc" eq_refl)
      as [t [C [_ [_ H]]]]; [discriminate|].
    apply H. vm_compute in C. injection C as <-. reflexivity.
Defined.

(** *** String input *)












(** *** format *)

Lemma append_empty_r (s : string) : (s ++ "")%string = s.
Proof. induction s as [|c s IH]; simpl; [|rewrite IH]; reflexivity. Qed.

(** C5, as stated, fails: [Money(1234.5).format()] is not ["1,234.5"] (the
    instance holds 1235 hundredths and prints as ["12.35"]), and a fractional
    part of zeros is appended all the same: [Money("5").format()] is
    ["5.00"]. *)
Lemma format_1234_5_counterexample :
  (c <- Money (VNum (lit "1234.5")) ;; format c None) <> Ok "1,234.5"
  /\ (c <- Money (VStr "5") ;; format c None) = Ok "5.00".
Proof.
  split; [|vm_compute; reflexivity].
  vm_compute. discriminate.
Qed.

(** C5, amended.  With default settings an instance that holds 1234.50
    ([Money("1234.5")], 123450 hundredths) is formatted as ["1,234.50"], with
    no symbol; with [formatWithSymbol] set, or with [format(true)], as
    ["$1,234.50"].  The text that replaces [#] is the grouped whole part
    followed, whenever the canonical string has a non-empty part after its
    point, by the decimal separator and that part, zeros included; with
    nothing after a point (precision 0) the whole part stands alone. *)
Theorem format_appends_the_fraction :
  (c <- Money (VStr "1234.5") ;; format c None) = Ok "1,234.50"
  /\ (c <- currency (VStr "1234.5") with_symbol ;; format c None)
     = Ok "$1,234.50"
  /\ (c <- Money (VStr "1234.5") ;; format c (Some true)) = Ok "$1,234.50"
  /\ (c <- currency (VStr "1234.5") whole_units ;; format c None)
     = Ok "1,235"
  /\ (forall st dollars c r,
        amount_text st dollars (Some (String c r))
        = (replace_groups (groups st) ("$1" ++ separator st) dollars
           ++ String (decimal st) (String c r))%string)
  /\ (forall st dollars,
        amount_text st dollars None
        = replace_groups (groups st) ("$1" ++ separator st) dollars
        /\ amount_text st dollars (Some "")
           = replace_groups (groups st) ("$1" ++ separator st) dollars)
  /\ (forall this useSymbol str,
        toString this = Ok str ->
        format this useSymbol
        = Ok (replace_char "#"
                (amount_text (_settings this)
                   (fst (split "." (strip_minus str)))
                   (hd_error (snd (split "." (strip_minus str)))))
                (replace_char "!"
                   (if override useSymbol (formatWithSymbol (_settings this))
                    then symbol (_settings this) else "")
                   (if (0 <=? value this)%float
                    then pattern (_settings this)
                    else negativePattern (_settings this))))).
Proof.
  split; [vm_compute; reflexivity|].
  split; [vm_compute; reflexivity|].
  split; [vm_compute; reflexivity|].
  split; [vm_compute; reflexivity|].
  split; [reflexivity|].
  split.
  - intros st dollars. unfold amount_text.
    rewrite append_empty_r. split; reflexivity.
  - intros this useSymbol str H. unfold format. rewrite H.
    destruct (split "." (strip_minus str)). reflexivity.
Qed.

(** The instance that holds 1234.50. *)
Lemma format_appends_the_fraction_witness :
  format (holding 123450) None
  = Ok (replace_char "#"
          (amount_text default_settings "1234" (Some "50"))
          (replace_char "!" "" "!#")).
Proof.
  destruct format_appends_the_fraction as (_ & _ & _ & _ & _ & _ & H).
  exact (H (holding 123450) None "1234.50" eq_refl).
Defined.

(** *** distribute(0) *)

(** C9.  [distribute(0)] returns the empty sequence and raises nothing,
    whatever the receiver: the loop test fails at once.  The split is
    computed before the loop all the same; for [Money("1")] it is
    [floor(100 / 0)], which is infinite. *)
Theorem distribute_zero_is_empty :
  (forall this fuel, distribute (S fuel) this 0 = Some (Ok []))
  /\ (c <- Money (VStr "1") ;; Ok (split_amount c 0)) = Ok infinity.
Proof.
  split; [reflexivity|].
  vm_compute. reflexivity.
Qed.

(** *** Instances with default settings *)

Lemma Money_holding (x : Value) :
  Money x = (v <- parse x defaults true ;; Ok (holding v)).
Proof. reflexivity. Qed.

Lemma all_from_spec (p : Z -> bool) (k : nat) :
  forall z, all_from k z p = true ->
  forall y, z <= Z.abs y < z + Z.of_nat k -> p y = true.
Proof.
  induction k as [|k IH]; intros z H y Hy; [lia|].
  cbn [all_from] in H.
  apply andb_prop in H as [H H3]. apply andb_prop in H as [H1 H2].
  destruct (Z.eq_dec y z) as [->|N1]; [exact H1|].
  destruct (Z.eq_dec y (- z)) as [->|N2]; [exact H2|].
  apply (IH (z + 1) H3). lia.
Qed.

Lemma all_upto_spec (p : Z -> bool) (n : nat) :
  all_upto n p = true -> forall z, Z.abs z <= Z.of_nat n -> p z = true.
Proof.
  intros H z Hz. apply (all_from_spec p (S n) 0 H). lia.
Qed.

Lemma eqb_cases (x y : float) :
  (x =? y)%float = true ->
  x = y \/ ((x = zero \/ x = neg_zero) /\ (y = zero \/ y = neg_zero)).
Proof.
  rewrite eqb_spec. unfold SFeqb. intros H.
  assert (Z : forall f s, Prim2SF f = S754_zero s -> f = zero \/ f = neg_zero).
  { intros f s Hf. rewrite <- (SF2Prim_Prim2SF f), Hf.
    destruct s; [right|left]; reflexivity. }
  assert (E : Prim2SF x = Prim2SF y -> x = y).
  { intros Hxy. rewrite <- (SF2Prim_Prim2SF x), <- (SF2Prim_Prim2SF y), Hxy.
    reflexivity. }
  destruct (Prim2SF x) as [[|]|[|]| |[|] mx ex] eqn:Hx;
    destruct (Prim2SF y) as [[|]|[|]| |[|] my ey] eqn:Hy;
    simpl in H; try discriminate;
    try (right; split; eauto; fail);
    try (left; apply E; reflexivity);
    left; apply E;
    destruct (Z.compare_spec ex ey) as [He|He|He]; try discriminate;
    subst ey;
    destruct (Pos.compare_cont Eq mx my) eqn:Hm; try discriminate;
    apply Pos.compare_eq in Hm; subst; reflexivity.
Qed.

(** *** Arithmetic leaves its receiver alone *)

Lemma increment_or_idem (o : option float) (d : float) :
  or_else (increment_or o d) d = increment_or o d.
Proof.
  unfold increment_or, or_else. destruct o as [x|].
  - destruct (truthy x) eqn:Hx; [rewrite Hx; reflexivity|].
    destruct (truthy d); reflexivity.
  - destruct (truthy d); reflexivity.
Qed.

(** A number is always accepted by the constructor. *)
Lemma currency_number_total (x : float) (o : Opts) :
  exists c, currency (VNum x) o = Ok c.
Proof.
  unfold currency, parse.
  destruct (fixed4_total x) as [w ->]. eexists. reflexivity.
Qed.

(** An instance built with the settings of a constructed instance has
    settings with the same fields. *)
Lemma currency_keeps_settings (c c' : Currency) (x : Value) :
  Store.constructed c ->
  currency x (as_opts (_settings c)) = Ok c' ->
  _settings c' = _settings c.
Proof.
  intros (v0 & o0 & H0) H.
  unfold currency in H0.
  destruct (parse v0 (assign defaults o0) true) as [w0|]; [|discriminate].
  injection H0 as <-. cbn [_settings] in *.
  unfold currency in H.
  match type of H with
  | (v <- parse _ ?st _ ;; _) = _ => destruct (parse x st true) as [w|]
  end; [|discriminate].
  injection H as <-. cbn [_settings].
  rewrite increment_or_idem. destruct (o_useVedic o0); reflexivity.
Qed.

Lemma read_inv (h : Store.store) (l : Store.loc) (c : Currency) :
  Store.read h l = Some c ->
  exists r,
    nth_error h l
    = Some (Store.OCurrency (intValue c) (value c) r (_precision c))
    /\ nth_error h r = Some (Store.OSettings (_settings c)).
Proof.
  unfold Store.read, Store.settings_at. intros H.
  destruct (nth_error h l) as [[s|o|i v r p]|]; try discriminate.
  destruct (nth_error h r) as [[s|o|i' v' r' p']|] eqn:Hr; try discriminate.
  injection H as <-. exists r. auto.
Qed.

Lemma unchanged_app (h l : Store.store) : Store.unchanged h (h ++ l)%list.
Proof. intros k Hk. apply nth_error_app1, Hk. Qed.

Lemma read_unchanged (h h' : Store.store) (l : Store.loc) (c : Currency) :
  Store.unchanged h h' -> Store.read h l = Some c -> Store.read h' l = Some c.
Proof.
  intros U H. destruct (read_inv h l c H) as (r & Hl & Hr).
  unfold Store.read, Store.settings_at.
  rewrite (U l), Hl by (apply nth_error_Some; congruence).
  rewrite (U r), Hr by (apply nth_error_Some; congruence).
  destruct c; reflexivity.
Qed.

Lemma nth_error_new (A : Type) (h : list A) (a b : A) :
  nth_error (h ++ [a; b]) (List.length h) = Some a
  /\ nth_error (h ++ [a; b]) (S (List.length h)) = Some b.
Proof. induction h as [|x h IH]; [split; reflexivity|exact IH]. Qed.

(** What a construction from a number with the settings object at [r]
    does to the store. *)
Lemma new_currency_from_settings (h : Store.store) (c : Currency)
    (this r : Store.loc) (x : float) :
  Store.constructed c ->
  Store.read h this = Some c ->
  nth_error h r = Some (Store.OSettings (_settings c)) ->
  exists res h',
    Store.new_currency (Store.SNum x) (Some r) h = Store.Return res h'
    /\ Store.unchanged h h'
    /\ Store.read h' this = Some c
    /\ (List.length h <= res)%nat
    /\ (exists c', Store.read h' res = Some c'
                   /\ _settings c' = _settings c)
    /\ (exists sr, Store.settings_ref h' res = Some sr
                   /\ (List.length h <= sr)%nat).
Proof.
  intros Hc Hread Hr.
  unfold Store.new_currency, Store.resolve, Store.read_opts. rewrite Hr.
  destruct (currency_number_total x (as_opts (_settings c))) as [c' Hc'].
  rewrite Hc'. eexists. eexists. split; [reflexivity|].
  pose proof (unchanged_app h
    [Store.OCurrency (intValue c') (value c') (S (List.length h))
       (_precision c'); Store.OSettings (_settings c')]) as U.
  split; [exact U|]. split; [exact (read_unchanged _ _ _ _ U Hread)|].
  split; [lia|]. split.
  - exists c'. split; [|exact (currency_keeps_settings c c' _ Hc Hc')].
    unfold Store.read, Store.settings_at.
    rewrite (proj1 (nth_error_new _ h _ _)), (proj2 (nth_error_new _ h _ _)).
    destruct c'; reflexivity.
  - exists (S (List.length h)). split; [|lia].
    unfold Store.settings_ref.
    rewrite (proj1 (nth_error_new _ h _ _)). reflexivity.
Qed.

(** C8, as stated, fails on its last part, read as the spec has it (the
    settings object is kept by reference, not cloned): the sum of an instance
    and a number refers to a settings object of its own, not to the one of
    the receiver.  The two objects have the same contents. *)
Lemma result_settings_counterexample :
  exists a r h h',
    Store.new_currency (Store.SStr "1") None [] = Store.Return a h
    /\ Store.add a (Store.SNum 1) h = Store.Return r h'
    /\ Store.settings_ref h' a = Some 1%nat
    /\ Store.settings_ref h' r = Some 3%nat
    /\ Store.settings_ref h' r <> Store.settings_ref h' a
    /\ Store.settings_at h' 3%nat = Store.settings_at h' 1%nat.
Proof.
  do 4 eexists. split; [vm_compute; reflexivity|].
  split; [vm_compute; reflexivity|].
  split; [reflexivity|]. split; [reflexivity|].
  split; [discriminate|reflexivity].
Qed.

(** C8, amended.  Each of [add], [subtract], [multiply] and [divide], on a
    constructed instance and an argument the store can read, either raises
    and leaves the store as it was, or returns a new instance in a store that
    extends the old one: every object that existed, the receiver and its
    settings object among them, is unchanged, so the receiver reads as
    before; the result is an object that did not exist, and so is its
    settings object, whose fields are those of the receiver's settings. *)
Theorem arithmetic_leaves_the_receiver
    (h : Store.store) (this : Store.loc) (c : Currency)
    (o : Store.operation) :
  Store.read h this = Some c ->
  Store.constructed c ->
  Store.readable h o ->
  match Store.apply o this h with
  | Store.Return res h' =>
      Store.unchanged h h'
      /\ Store.read h' this = Some c
      /\ (List.length h <= res)%nat
      /\ (exists c', Store.read h' res = Some c'
                     /\ _settings c' = _settings c)
      /\ (exists sr, Store.settings_ref h' res = Some sr
                     /\ (List.length h <= sr)%nat)
  | Store.Throw e h' => h' = h
  | Store.Stuck => False
  end.
Proof.
  intros Hread Hc Hok.
  destruct (read_inv h this c Hread) as (r & Hl & Hr).
  assert (New : forall x,
    match Store.new_currency (Store.SNum x) (Some r) h with
    | Store.Return res h' =>
        Store.unchanged h h'
        /\ Store.read h' this = Some c
        /\ (List.length h <= res)%nat
        /\ (exists c', Store.read h' res = Some c'
                       /\ _settings c' = _settings c)
        /\ (exists sr, Store.settings_ref h' res = Some sr
                       /\ (List.length h <= sr)%nat)
    | Store.Throw e h' => h' = h
    | Store.Stuck => False
    end).
  { intros x.
    destruct (new_currency_from_settings h c this r x Hc Hread Hr)
      as (res & h' & -> & H). exact H. }
  assert (Parsing : forall b f n, Store.resolve h n <> None ->
    match Store.parsing_method b f this n h with
    | Store.Return res h' =>
        Store.unchanged h h'
        /\ Store.read h' this = Some c
        /\ (List.length h <= res)%nat
        /\ (exists c', Store.read h' res = Some c'
                       /\ _settings c' = _settings c)
        /\ (exists sr, Store.settings_ref h' res = Some sr
                       /\ (List.length h <= sr)%nat)
    | Store.Throw e h' => h' = h
    | Store.Stuck => False
    end).
  { intros b f n Hn. unfold Store.parsing_method, Store.settings_at.
    rewrite Hl, Hr.
    destruct (Store.resolve h n) as [v|]; [|congruence].
    destruct (parse v (_settings c) b) as [w|e]; [apply New|reflexivity]. }
  destruct o as [n|n|n|n]; cbn [Store.apply Store.readable] in *.
  - apply Parsing, Hok.
  - apply Parsing, Hok.
  - unfold Store.multiply, Store.settings_at. rewrite Hl, Hr. apply New.
  - apply Parsing, Hok.
Qed.

(** [Money("1").add(1)] in the store that holds [Money("1")] alone. *)
Lemma arithmetic_leaves_the_receiver_witness :
  exists res h',
    Store.apply (Store.Add (Store.SNum 1)) 0%nat example_store
    = Store.Return res h'
    /\ Store.unchanged example_store h'
    /\ Store.read h' 0%nat = Some (holding 100)
    /\ (List.length example_store <= res)%nat.
Proof.
  assert (Hc : Store.constructed (holding 100)).
  { exists (VStr "1"), no_opts. vm_compute. reflexivity. }
  assert (Hr : Store.readable example_store (Store.Add (Store.SNum 1))).
  { cbn. discriminate. }
  pose proof (arithmetic_leaves_the_receiver example_store 0%nat
                (holding 100) (Store.Add (Store.SNum 1)) eq_refl Hc Hr) as H.
  destruct (Store.apply (Store.Add (Store.SNum 1)) 0%nat example_store)
    as [res h'|e h'|] eqn:E.
  - exists res, h'. destruct H as (H1 & H2 & H3 & _). auto.
  - vm_compute in E. discriminate E.
  - destruct H.
Defined.

(** *** The loop counter of distribute *)

Import Binary64.

(** The digits of a mantissa: [2^(D p - 1) <= p < 2^(D p)], and only
    [D p] is such. *)
Lemma digits2_size p : digits2_pos p = Pos.size p.
Proof. induction p; simpl; congruence. Qed.

Lemma D_bounds p : 2 ^ (D p - 1) <= Zpos p < 2 ^ D p.
Proof.
  unfold D. rewrite digits2_size.
  pose proof (Pos.size_gt p) as Hg. pose proof (Pos.size_le p) as Hl.
  split.
  - apply Pos2Z.pos_le_pos in Hl. rewrite Pos2Z.inj_pow in Hl.
    replace (Z.pos (Pos.size p)) with (Z.succ (Z.pos (Pos.size p) - 1)) in Hl by lia.
    rewrite Z.pow_succ_r in Hl by lia. lia.
  - apply Pos2Z.pos_lt_pos in Hg. rewrite Pos2Z.inj_pow in Hg. exact Hg.
Qed.

Lemma D_unique p d : 2 ^ (d - 1) <= Zpos p < 2 ^ d -> D p = d.
Proof.
  intros [H1 H2]. pose proof (D_bounds p) as [H3 H4].
  assert (0 < d). { destruct (Z_lt_le_dec 0 d); [auto|]. assert (2 ^ d <= 2 ^ 0) by (apply Z.pow_le_mono_r; lia). simpl in *. lia. }
  assert (0 < D p) by (unfold D; lia).
  destruct (Z_lt_le_dec (D p) d).
  - assert (2 ^ D p <= 2 ^ (d - 1)) by (apply Z.pow_le_mono_r; lia). lia.
  - destruct (Z_lt_le_dec d (D p)); [|lia].
    assert (2 ^ d <= 2 ^ (D p - 1)) by (apply Z.pow_le_mono_r; lia). lia.
Qed.


(** Shifting out zeros loses nothing. *)
Lemma shr_1_exact m : 0 <= m -> shr_1 (exact (2 * m)) = exact m.
Proof. intros H. destruct m as [|p|p]; [reflexivity|reflexivity|lia]. Qed.

Lemma iter_shr_exact j : forall m, 0 <= m ->
  iter_pos shr_1 j (exact (m * 2 ^ Zpos j)) = exact m.
Proof.
  induction j as [j IH|j IH|]; intros m Hm; cbn [iter_pos].
  - replace (m * 2 ^ Z.pos j~1) with (2 * ((m * 2 ^ Zpos j) * 2 ^ Zpos j)).
    2:{ replace (Z.pos j~1) with (Zpos j + Zpos j + 1) by lia.
        rewrite !Z.pow_add_r by lia. rewrite Z.pow_1_r. ring. }
    rewrite shr_1_exact by (apply Z.mul_nonneg_nonneg; [apply Z.mul_nonneg_nonneg|]; lia).
    rewrite IH by (apply Z.mul_nonneg_nonneg; lia). apply IH, Hm.
  - replace (m * 2 ^ Z.pos j~0) with ((m * 2 ^ Zpos j) * 2 ^ Zpos j).
    2:{ replace (Z.pos j~0) with (Zpos j + Zpos j) by lia.
        rewrite !Z.pow_add_r by lia. ring. }
    rewrite IH by (apply Z.mul_nonneg_nonneg; lia). apply IH, Hm.
  - replace (m * 2 ^ 1) with (2 * m) by (rewrite Z.pow_1_r; ring).
    apply shr_1_exact, Hm.
Qed.

(** Shifted mantissas and their digits. *)
Lemma iter_xO p n : Zpos (Pos.iter xO p n) = Zpos p * 2 ^ Zpos n.
Proof.
  induction n as [|n IH] using Pos.peano_ind.
  - change (Z.pos p~0 = Z.pos p * 2). lia.
  - rewrite Pos.iter_succ, Pos2Z.inj_xO, IH, Pos2Z.inj_succ, Z.pow_succ_r by lia. ring.
Qed.

Lemma scaled_pos p k : 0 <= k -> Zpos (Z.to_pos (Zpos p * 2 ^ k)) = Zpos p * 2 ^ k.
Proof. intros Hk. apply Z2Pos.id. apply Z.mul_pos_pos; [lia|apply Z.pow_pos_nonneg; lia]. Qed.

Lemma D_scaled p k : 0 <= k -> D (Z.to_pos (Zpos p * 2 ^ k)) = D p + k.
Proof.
  intros Hk. apply D_unique. rewrite scaled_pos by exact Hk.
  pose proof (D_bounds p) as [H1 H2].
  assert (0 < D p) by (unfold D; lia).
  replace (D p + k - 1) with ((D p - 1) + k) by lia.
  rewrite !Z.pow_add_r by lia.
  assert (0 < 2 ^ k) by (apply Z.pow_pos_nonneg; lia).
  split; [apply Z.mul_le_mono_nonneg_r; lia|apply Z.mul_lt_mono_pos_r; lia].
Qed.

Lemma Zdigits2_scaled q j : 0 <= j -> Zdigits2 (Zpos q * 2 ^ j) = D q + j.
Proof.
  intros Hj. rewrite <- (scaled_pos q j Hj). cbn [Zdigits2]. apply (D_scaled q j Hj).
Qed.

(** A mantissa of 53 digits followed by [j] zeros is rounded to itself. *)
Lemma shr_fexp_exact q j E : D q = 53 -> 0 <= j -> -1074 <= E ->
  shr_fexp prec emax (Zpos q * 2 ^ j) (E - j) loc_Exact = (exact (Zpos q), E).
Proof.
  intros Hq Hj HE. unfold shr_fexp. rewrite (Zdigits2_scaled q j Hj), Hq.
  replace (fexp prec emax (53 + j + (E - j)) - (E - j)) with j
    by (unfold fexp, SpecFloat.emin, prec, emax; lia).
  cbn [shr_record_of_loc]. fold (exact (Zpos q * 2 ^ j)).
  unfold shr. destruct j as [|j|j]; [| |lia].
  - rewrite Z.pow_0_r, Z.mul_1_r, Z.sub_0_r. reflexivity.
  - rewrite iter_shr_exact by lia. f_equal. lia.
Qed.

Lemma binary_round_aux_exact s q j E : D q = 53 -> 0 <= j -> -1074 <= E <= 971 ->
  binary_round_aux prec emax s (Zpos q * 2 ^ j) (E - j) loc_Exact = S754_finite s q E.
Proof.
  intros Hq Hj HE. unfold binary_round_aux.
  rewrite (shr_fexp_exact q j E Hq Hj) by lia.
  cbn [exact shr_m loc_of_shr_record round_nearest_even].
  pose proof (shr_fexp_exact q 0 E Hq) as H0.
  rewrite Z.pow_0_r, Z.mul_1_r, Z.sub_0_r in H0. rewrite H0 by lia.
  cbn [exact shr_m].
  replace (E <=? emax - prec) with true; [reflexivity|].
  symmetry. apply Z.leb_le. unfold emax, prec. lia.
Qed.

Lemma binary_round_aux_exact_eq s q j E m e : D q = 53 -> 0 <= j -> -1074 <= E <= 971 ->
  m = Zpos q * 2 ^ j -> e = E - j ->
  binary_round_aux prec emax s m e loc_Exact = S754_finite s q E.
Proof. intros Hq Hj HE -> ->. apply binary_round_aux_exact; assumption. Qed.


(** Rounding [p * 2^k] at the exponent [-k] gives the float of magnitude
    [p], whatever [k]. *)
Lemma D_pos p : 1 <= D p. Proof. unfold D. lia. Qed.

Lemma binary_round_canon s p k : D p <= 53 -> 0 <= k ->
  binary_round prec emax s (Z.to_pos (Zpos p * 2 ^ k)) (- k) = canon s p.
Proof.
  intros Hp Hk. pose proof (D_pos p) as Hd.
  unfold binary_round. fold (D (Z.to_pos (Z.pos p * 2 ^ k))).
  rewrite (D_scaled p k Hk).
  replace (fexp prec emax (D p + k + - k)) with (D p - 53)
    by (unfold fexp, SpecFloat.emin, prec, emax; lia).
  set (q := Z.to_pos (Zpos p * 2 ^ (53 - D p))).
  assert (Hq : D q = 53). { unfold q. rewrite D_scaled by lia. lia. }
  assert (Hqv : Zpos q = Zpos p * 2 ^ (53 - D p)) by (apply scaled_pos; lia).
  unfold canon. fold q.
  unfold shl_align. destruct (D p - 53 - - k) as [|t|t] eqn:Ht.
  - apply (binary_round_aux_exact_eq s q 0 (D p - 53)); try lia.
    rewrite scaled_pos by exact Hk.
    rewrite Hqv, Z.pow_0_r, Z.mul_1_r. replace k with (53 - D p) by lia.
    reflexivity.
  - apply (binary_round_aux_exact_eq s q (Zpos t) (D p - 53)); try lia.
    rewrite scaled_pos by exact Hk.
    rewrite Hqv. replace k with (53 - D p + Zpos t) by lia.
    rewrite Z.pow_add_r by lia. ring.
  - apply (binary_round_aux_exact_eq s q 0 (D p - 53)); try lia.
    rewrite iter_xO, scaled_pos by exact Hk.
    rewrite Hqv, Z.pow_0_r, Z.mul_1_r.
    replace (53 - D p) with (k + Zpos t) by lia.
    rewrite Z.pow_add_r by lia. ring.
Qed.

(** The floats of the integers below [2^53] in magnitude. *)
Lemma D_le_53 p : Zpos p < 2 ^ 53 -> D p <= 53.
Proof.
  intros H. pose proof (D_bounds p) as [H1 _]. pose proof (D_pos p).
  destruct (Z_lt_le_dec 53 (D p)); [|lia].
  assert (2 ^ 53 <= 2 ^ (D p - 1)) by (apply Z.pow_le_mono_r; lia). lia.
Qed.

Lemma canon_valid s p : D p <= 53 -> valid_binary (canon s p) = true.
Proof.
  intros Hp. pose proof (D_pos p).
  unfold canon, SpecFloat.valid_binary, bounded, canonical_mantissa.
  fold (D (Z.to_pos (Z.pos p * 2 ^ (53 - D p)))).
  rewrite D_scaled by lia.
  apply andb_true_intro. split.
  - apply Z.eqb_eq. unfold fexp, SpecFloat.emin, prec, emax. lia.
  - apply Z.leb_le. unfold prec, emax. lia.
Qed.

Lemma normalize_scaled z k : Z.abs z < 2 ^ 53 -> 0 <= k ->
  binary_normalize prec emax (z * 2 ^ k) (- k) false
  = binary_normalize prec emax z 0 false.
Proof.
  intros Hz Hk. destruct z as [|p|p].
  - reflexivity.
  - pose proof (D_le_53 p Hz) as Hp.
    rewrite <- (scaled_pos p k Hk). cbn [binary_normalize].
    rewrite (binary_round_canon false p k Hp Hk).
    pose proof (binary_round_canon false p 0 Hp (Z.le_refl 0)) as H0.
    rewrite Z.pow_0_r, Z.mul_1_r in H0. exact (eq_sym H0).
  - pose proof (D_le_53 p Hz) as Hp.
    replace (Z.neg p * 2 ^ k) with (Z.neg (Z.to_pos (Zpos p * 2 ^ k))).
    2:{ rewrite <- Pos2Z.opp_pos, scaled_pos by exact Hk. lia. }
    cbn [binary_normalize].
    rewrite (binary_round_canon true p k Hp Hk).
    pose proof (binary_round_canon true p 0 Hp (Z.le_refl 0)) as H0.
    rewrite Z.pow_0_r, Z.mul_1_r in H0. exact (eq_sym H0).
Qed.

Lemma Prim2SF_of_Z s p : Zpos p < 2 ^ 53 ->
  Prim2SF (of_Z (signed s p)) = canon s p.
Proof.
  intros H. pose proof (D_le_53 p H) as Hp.
  pose proof (binary_round_canon s p 0 Hp (Z.le_refl 0)) as H0.
  rewrite Z.pow_0_r, Z.mul_1_r in H0. cbn [Z.to_pos Z.opp] in H0.
  unfold of_Z. destruct s; cbn [signed binary_normalize]; rewrite H0;
    apply Prim2SF_SF2Prim, canon_valid, Hp.
Qed.

(** Subtracting 1 from such a float is exact: [of_Z n - 1 = of_Z (n - 1)]
    for [n] from 1 to [2^53], and [of_Z n] is not zero. *)
Lemma sub_one_canon s p : D p <= 53 ->
  SFsub prec emax (canon s p) (Prim2SF 1)
  = binary_normalize prec emax ((signed s p - 1) * 2 ^ 52) (-52) false.
Proof.
  intros Hp. pose proof (D_pos p) as Hd.
  replace (Prim2SF 1) with (S754_finite false 4503599627370496 (-52))
    by (vm_compute; reflexivity).
  unfold canon. cbn [SFsub].
  replace (Z.min (D p - 53) (-52)) with (-52) by lia.
  set (q := Z.to_pos (Zpos p * 2 ^ (53 - D p))).
  assert (Hqv : Zpos q = Zpos p * 2 ^ (53 - D p)) by (apply scaled_pos; lia).
  assert (A : Zpos (fst (shl_align q (D p - 53) (-52))) = Zpos p * 2 ^ 52).
  { unfold shl_align. destruct (-52 - (D p - 53)) as [|t|t] eqn:Ht; cbn [fst].
    - rewrite Hqv. replace (53 - D p) with 52 by lia. reflexivity.
    - lia.
    - rewrite iter_xO, Hqv. replace 52 with (53 - D p + Zpos t) by lia.
      rewrite Z.pow_add_r by lia. ring. }
  f_equal.
  replace (fst (shl_align 4503599627370496 (-52) (-52))) with 4503599627370496%positive
    by reflexivity.
  destruct s; cbn [cond_Zopp signed]; rewrite A; lia.
Qed.

Lemma of_Z_pred_small n : 1 <= n < 2 ^ 53 -> (of_Z n - 1)%float = of_Z (n - 1).
Proof.
  intros Hn. destruct n as [|p|p]; try lia.
  rewrite <- (SF2Prim_Prim2SF (of_Z (Zpos p) - 1)), sub_spec.
  pose proof (Prim2SF_of_Z false p (proj2 Hn)) as E. cbn [signed] in E.
  rewrite E. unfold SF64sub. rewrite sub_one_canon by (apply D_le_53; lia).
  cbn [signed].
  assert (N : binary_normalize prec emax ((Zpos p - 1) * 2 ^ 52) (-52) false
              = binary_normalize prec emax (Zpos p - 1) 0 false)
    by (apply (normalize_scaled (Zpos p - 1) 52); lia).
  rewrite N. reflexivity.
Qed.

Lemma of_Z_pred n : 1 <= n <= 2 ^ 53 -> (of_Z n - 1)%float = of_Z (n - 1).
Proof.
  intros Hn. destruct (Z.eq_dec n (2 ^ 53)) as [->|Hne].
  - vm_compute. reflexivity.
  - apply of_Z_pred_small. lia.
Qed.

Lemma of_Z_nonzero n : 1 <= n <= 2 ^ 53 -> (of_Z n =? 0)%float = false.
Proof.
  intros Hn. destruct (Z.eq_dec n (2 ^ 53)) as [->|Hne].
  - vm_compute. reflexivity.
  - destruct n as [|p|p]; try lia.
    pose proof (Prim2SF_of_Z false p) as E. cbn [signed] in E.
    rewrite eqb_spec, E by lia.
    replace (Prim2SF 0) with (S754_zero false) by (vm_compute; reflexivity).
    reflexivity.
Qed.

(** A shift divides the mantissa by a power of two, rounding down. *)
Lemma shr_1_m r : 0 <= shr_m r -> shr_m (shr_1 r) = shr_m r / 2.
Proof.
  destruct r as [m rr ss]. cbn [shr_m]. intros H.
  destruct m as [|[p|p|]|p]; cbn [shr_1 shr_m]; try lia.
  - reflexivity.
  - rewrite Pos2Z.inj_xI. apply Z.div_unique with 1; lia.
  - rewrite Pos2Z.inj_xO. apply Z.div_unique with 0; lia.
  - reflexivity.
Qed.

Lemma iter_shr_m j : forall r, 0 <= shr_m r ->
  shr_m (iter_pos shr_1 j r) = shr_m r / 2 ^ Zpos j.
Proof.
  assert (P : forall a b, 0 <= a -> 0 < b -> 0 <= a / b)
    by (intros; apply Z.div_pos; lia).
  assert (Q : forall k, 0 < 2 ^ Zpos k) by (intros; apply Z.pow_pos_nonneg; lia).
  induction j as [j IH|j IH|]; intros r Hr; cbn [iter_pos].
  - assert (H1 : 0 <= shr_m (shr_1 r))
      by (rewrite shr_1_m by exact Hr; apply P; lia).
    assert (H2 : 0 <= shr_m (iter_pos shr_1 j (shr_1 r)))
      by (rewrite IH by exact H1; apply P; [exact H1|apply Q]).
    rewrite (IH _ H2), (IH _ H1), (shr_1_m _ Hr).
    rewrite !Z.div_div by (try apply Q; lia). f_equal.
    replace (Z.pos j~1) with (1 + Zpos j + Zpos j) by lia.
    rewrite !Z.pow_add_r by lia. rewrite Z.pow_1_r. ring.
  - assert (H2 : 0 <= shr_m (iter_pos shr_1 j r))
      by (rewrite IH by exact Hr; apply P; [exact Hr|apply Q]).
    rewrite (IH _ H2), (IH _ Hr).
    rewrite !Z.div_div by (try apply Q; lia). f_equal.
    replace (Z.pos j~0) with (Zpos j + Zpos j) by lia.
    rewrite !Z.pow_add_r by lia. ring.
  - rewrite shr_1_m by exact Hr. rewrite Z.pow_1_r. reflexivity.
Qed.

Lemma shr_m_of_loc m l : shr_m (shr_record_of_loc m l) = m.
Proof. destruct l as [|[ | | ]]; reflexivity. Qed.

(** Rounding does not reach zero from a value of magnitude at least
    [2^-1022], nor once the exponent is the least one. *)
Lemma shr_fexp_positive m e l r e' :
  shr_fexp prec emax (Zpos m) e l = (r, e') ->
  -1074 <= e' /\ (-1074 <= D m + e - 53 \/ -1074 <= e -> 1 <= shr_m r).
Proof.
  unfold shr_fexp, shr. cbn [Zdigits2]. fold (D m).
  assert (F : fexp prec emax (D m + e) = Z.max (D m + e - 53) (-1074))
    by reflexivity.
  rewrite F. pose proof (D_bounds m) as [B1 B2]. pose proof (D_pos m) as Hd.
  destruct (Z.max (D m + e - 53) (-1074) - e) as [|j|j] eqn:Hj;
    intros H; injection H as <- <-.
  - rewrite shr_m_of_loc. lia.
  - split; [lia|]. intros Hc.
    rewrite iter_shr_m by (rewrite shr_m_of_loc; lia).
    rewrite shr_m_of_loc.
    assert (Zpos j = D m - 53) by lia.
    apply Z.div_le_lower_bound; [apply Z.pow_pos_nonneg; lia|].
    rewrite Z.mul_1_r.
    assert (2 ^ Zpos j <= 2 ^ (D m - 1)) by (apply Z.pow_le_mono_r; lia). lia.
  - rewrite shr_m_of_loc. lia.
Qed.


Lemma round_nearest_even_ge m l : m <= round_nearest_even m l.
Proof.
  destruct l as [|[ | | ]]; cbn [round_nearest_even]; try lia.
  destruct (Z.even m); lia.
Qed.

Lemma binary_round_aux_sign s m e l :
  -1074 <= D m + e - 53 \/ -1074 <= e ->
  signed_nonzero s (binary_round_aux prec emax s (Zpos m) e l).
Proof.
  intros H. unfold binary_round_aux.
  destruct (shr_fexp prec emax (Zpos m) e l) as [r1 e1] eqn:H1.
  destruct (shr_fexp_positive _ _ _ _ _ H1) as [He1 Hm1].
  specialize (Hm1 H).
  pose proof (round_nearest_even_ge (shr_m r1) (loc_of_shr_record r1)) as Hr.
  destruct (round_nearest_even (shr_m r1) (loc_of_shr_record r1))
    as [|m2|m2] eqn:H2; try lia.
  destruct (shr_fexp prec emax (Zpos m2) e1 loc_Exact) as [r2 e2] eqn:H3.
  destruct (shr_fexp_positive _ _ _ _ _ H3) as [He2 Hm2].
  specialize (Hm2 (or_intror He1)).
  destruct (shr_m r2) as [|m3|m3]; try lia.
  destruct (e2 <=? emax - prec); [right; eauto|left; reflexivity].
Qed.

Lemma binary_round_sign s m e :
  -1074 <= D m + e - 53 ->
  signed_nonzero s (binary_round prec emax s m e).
Proof.
  intros H. unfold binary_round, shl_align. fold (D m).
  assert (F : fexp prec emax (D m + e) = Z.max (D m + e - 53) (-1074))
    by reflexivity.
  rewrite F.
  destruct (Z.max (D m + e - 53) (-1074) - e) as [|j|j] eqn:Hj.
  - apply binary_round_aux_sign. left. exact H.
  - apply binary_round_aux_sign. left. exact H.
  - apply binary_round_aux_sign. right. lia.
Qed.

(** [x - 1] is negative when [x] is, and a negative number is not zero. *)
Lemma sub_one_sign m e :
  signed_nonzero true (SFsub prec emax (S754_finite true m e) (Prim2SF 1)).
Proof.
  replace (Prim2SF 1) with (S754_finite false 4503599627370496 (-52))
    by (vm_compute; reflexivity).
  cbn [SFsub cond_Zopp].
  set (ez := Z.min e (-52)).
  set (A := fst (shl_align m e ez)).
  set (B := fst (shl_align 4503599627370496 (-52) ez)).
  assert (HB : 2 ^ (- ez) <= Zpos B).
  { unfold B, shl_align.
    destruct (ez - -52) as [|t|t] eqn:Ht; cbn [fst]; try lia.
    - replace (- ez) with 52 by lia. reflexivity.
    - rewrite iter_xO. replace (- ez) with (52 + Zpos t) by lia.
      rewrite Z.pow_add_r by lia. reflexivity. }
  change (Z.neg A - Z.pos B) with (Z.neg (A + B)).
  cbn [binary_normalize].
  apply binary_round_sign.
  pose proof (D_bounds (A + B)) as [_ H2].
  assert (2 ^ (- ez) < 2 ^ D (A + B)) by lia.
  apply Z.pow_lt_mono_r_iff in H; [lia|lia|unfold D; lia].
Qed.


Lemma negative_Prim2SF x : negative x <-> signed_nonzero true (Prim2SF x).
Proof.
  unfold negative. rewrite ltb_spec.
  replace (Prim2SF 0) with (S754_zero false) by (vm_compute; reflexivity).
  unfold signed_nonzero.
  destruct (Prim2SF x) as [s|[|]| |[|] m e]; cbn; split; intros H;
    try discriminate; try reflexivity; eauto;
    try (destruct H as [H|(m' & e' & H)]; discriminate).
Qed.

Lemma negative_pred x : negative x -> negative (x - 1) /\ (x =? 0)%float = false.
Proof.
  intros H. apply negative_Prim2SF in H. split.
  - apply negative_Prim2SF. rewrite sub_spec. unfold SF64sub.
    destruct H as [H|(m & e & H)]; rewrite H.
    + replace (Prim2SF 1) with (S754_finite false 4503599627370496 (-52))
        by (vm_compute; reflexivity).
      left. reflexivity.
    + apply sub_one_sign.
  - rewrite eqb_spec.
    replace (Prim2SF 0) with (S754_zero false) by (vm_compute; reflexivity).
    destruct H as [H|(m & e & H)]; rewrite H; reflexivity.
Qed.

(** *** Termination of distribute *)

Lemma add_number_total (c : Currency) (x : float) :
  exists r, add c (VNum x) = Ok r.
Proof.
  unfold add, parse. destruct (fixed4_total x) as [w ->].
  apply currency_number_total.
Qed.

Lemma subtract_number_total (c : Currency) (x : float) :
  exists r, subtract c (VNum x) = Ok r.
Proof.
  unfold subtract, parse. destruct (fixed4_total x) as [w ->].
  apply currency_number_total.
Qed.

(** Building an entry raises nothing. *)
Lemma distribute_item_total (this : Currency) (split pennies : float) :
  exists item, distribute_item this split pennies = Ok item.
Proof.
  unfold distribute_item.
  destruct (currency_number_total (split / _precision this)
              (as_opts (_settings this))) as [item ->].
  destruct (0 <? pennies)%float; [|eauto].
  destruct (0 <=? intValue this)%float;
    [apply add_number_total|apply subtract_number_total].
Qed.

Lemma max_length_value : max_length = 4294967295.
Proof. reflexivity. Qed.

Lemma push_room (A : Type) (a : list A) (x : A) :
  Z.of_nat (List.length a) < max_length -> push a x = Ok (a ++ [x])%list.
Proof.
  intros H. unfold push. apply Z.ltb_lt in H. rewrite H. reflexivity.
Qed.

Lemma push_full (A : Type) (a : list A) (x : A) :
  max_length <= Z.of_nat (List.length a) -> push a x = Err RangeError.
Proof.
  intros H. unfold push. apply Z.ltb_ge in H. rewrite H. reflexivity.
Qed.

Lemma length_pushed (A : Type) (a : list A) (x : A) :
  Z.of_nat (List.length (a ++ [x])) = Z.of_nat (List.length a) + 1.
Proof. rewrite length_app. cbn [List.length]. lia. Qed.

(** From a count of [k], with room for [k] more entries in the array, the
    loop is left after [k] entries. *)
Lemma loop_terminates (this : Currency) (split : float) (k : nat) :
  forall pennies acc,
    Z.of_nat (List.length acc) + Z.of_nat k <= max_length ->
    exists l,
      List.length l = (List.length acc + k)%nat
      /\ forall fuel, (k < fuel)%nat ->
           distribute_loop fuel this split (of_Z (Z.of_nat k)) pennies acc
           = Some (Ok l).
Proof.
  pose proof max_length_value as M.
  induction k as [|k IH]; intros pennies acc Hk.
  - exists acc. split; [lia|]. intros [|fuel] Hf; [lia|]. reflexivity.
  - destruct (distribute_item_total this split pennies) as [item Hitem].
    destruct (IH (pennies - 1)%float (acc ++ [item])%list)
      as (l & Hlen & Hl); [rewrite length_pushed; lia|].
    exists l. split.
    + rewrite Hlen, length_app. cbn [List.length]. lia.
    + intros [|fuel] Hf; [lia|]. cbn [distribute_loop].
      assert (B : 1 <= Z.of_nat (S k) <= 2 ^ 53)
        by (change (2 ^ 53) with 9007199254740992; lia).
      rewrite of_Z_nonzero by exact B. rewrite Hitem.
      rewrite push_room by lia.
      rewrite of_Z_pred by exact B.
      replace (Z.of_nat (S k) - 1) with (Z.of_nat k) by lia.
      apply Hl. lia.
Qed.

(** From a negative count the loop does not meet zero, and it is stopped by
    [push] when the array has the largest length. *)
Lemma loop_stopped_negative (this : Currency) (split : float) (k : nat) :
  forall count pennies acc,
    negative count ->
    Z.of_nat (List.length acc) + Z.of_nat k = max_length ->
    forall fuel, (k < fuel)%nat ->
      distribute_loop fuel this split count pennies acc
      = Some (Err RangeError).
Proof.
  induction k as [|k IH]; intros count pennies acc Hc Hk [|fuel] Hf;
    try lia; cbn [distribute_loop];
    destruct (negative_pred count Hc) as [Hp ->];
    destruct (distribute_item_total this split pennies) as [item ->].
  - rewrite push_full by lia. reflexivity.
  - rewrite push_room by lia.
    apply IH; [exact Hp|rewrite length_pushed; lia|lia].
Qed.

(** So it is from an integer count above the room that is left. *)
Lemma loop_stopped_large (this : Currency) (split : float) (k : nat) :
  forall n pennies acc,
    Z.of_nat k < n <= 2 ^ 53 ->
    Z.of_nat (List.length acc) + Z.of_nat k = max_length ->
    forall fuel, (k < fuel)%nat ->
      distribute_loop fuel this split (of_Z n) pennies acc
      = Some (Err RangeError).
Proof.
  induction k as [|k IH]; intros n pennies acc Hn Hk [|fuel] Hf;
    try lia; cbn [distribute_loop];
    rewrite of_Z_nonzero by lia;
    destruct (distribute_item_total this split pennies) as [item ->].
  - rewrite push_full by lia. reflexivity.
  - rewrite push_room by lia. rewrite of_Z_pred by lia.
    apply IH; [lia|rewrite length_pushed; lia|lia].
Qed.

(** Whatever the count, the loop is left or stopped once the array is
    full. *)
Lemma loop_ends (this : Currency) (split : float) (k : nat) :
  forall count pennies acc,
    Z.of_nat (List.length acc) + Z.of_nat k = max_length ->
    forall fuel, (k < fuel)%nat ->
      exists r, distribute_loop fuel this split count pennies acc = Some r.
Proof.
  induction k as [|k IH]; intros count pennies acc Hk [|fuel] Hf;
    try lia; cbn [distribute_loop];
    (destruct (count =? 0)%float; [eauto|]);
    destruct (distribute_item_total this split pennies) as [item ->].
  - rewrite push_full by lia. eauto.
  - rewrite push_room by lia.
    apply IH; [rewrite length_pushed; lia|lia].
Qed.

(** C10, as stated, fails on its second half: a negative count does not
    keep the loop running for ever.  Every turn of the loop adds an entry
    to the array, and when the array has [2^32 - 1] entries [push] raises a
    [RangeError], which ends [distribute(-1)]. *)
Lemma distribute_negative_count_counterexample :
  (-1 <? 0)%float = true
  /\ exists fuel,
       distribute fuel (holding 100) (-1) = Some (Err RangeError).
Proof.
  split; [reflexivity|]. exists (S (Z.to_nat max_length)).
  unfold distribute.
  apply (loop_stopped_negative _ _ (Z.to_nat max_length)).
  - reflexivity.
  - cbn [List.length]. rewrite Z2Nat.id by (rewrite max_length_value; lia).
    lia.
  - lia.
Qed.

(** C10, amended.  [distribute(count)] ends for every count: with enough
    fuel, one more than the largest length of an array, the run is over.
    For an integer [count] from 0 to [2^32 - 1] it returns [count] entries.
    For a negative count, integral or not, and for an integer count from
    [2^32] to [2^53], the loop goes on until the array has [2^32 - 1]
    entries and the next [push] raises a [RangeError]: no sequence is
    returned. *)
Theorem distribute_termination (this : Currency) :
  (forall count fuel,
     (Z.to_nat max_length < fuel)%nat ->
     exists r, distribute fuel this count = Some r)
  /\ (forall n, 0 <= n <= max_length ->
      exists l,
        List.length l = Z.to_nat n
        /\ forall fuel, (Z.to_nat n < fuel)%nat ->
             distribute fuel this (of_Z n) = Some (Ok l))
  /\ (forall count fuel,
        (count <? 0)%float = true ->
        (Z.to_nat max_length < fuel)%nat ->
        distribute fuel this count = Some (Err RangeError))
  /\ (forall n fuel,
        max_length < n <= 2 ^ 53 ->
        (Z.to_nat max_length < fuel)%nat ->
        distribute fuel this (of_Z n) = Some (Err RangeError)).
Proof.
  pose proof max_length_value as M.
  assert (K : Z.of_nat (Z.to_nat max_length) = max_length)
    by (apply Z2Nat.id; lia).
  split; [|split; [|split]].
  - intros count fuel Hf. unfold distribute.
    apply (loop_ends _ _ (Z.to_nat max_length)); [|exact Hf].
    cbn [List.length]. lia.
  - intros n Hn.
    destruct (loop_terminates this (split_amount this (of_Z n)) (Z.to_nat n)
                (Math_abs (intValue this
                           - split_amount this (of_Z n) * of_Z n)%float) [])
      as (l & Hlen & Hl); [cbn [List.length]; lia|].
    exists l. split; [exact Hlen|].
    intros fuel Hf. unfold distribute.
    specialize (Hl fuel Hf). rewrite Z2Nat.id in Hl by lia. exact Hl.
  - intros count fuel Hc Hf. unfold distribute.
    apply (loop_stopped_negative _ _ (Z.to_nat max_length));
      [exact Hc| |exact Hf].
    cbn [List.length]. lia.
  - intros n fuel Hn Hf. unfold distribute.
    apply (loop_stopped_large _ _ (Z.to_nat max_length)); [lia| |exact Hf].
    cbn [List.length]. lia.
Qed.

(** Three shares of [Money("1")], and a count of -1. *)
Lemma distribute_termination_witness :
  (exists l,
     List.length l = 3%nat
     /\ forall fuel, (3 < fuel)%nat ->
          distribute fuel (holding 100) 3 = Some (Ok l))
  /\ forall fuel,
       (Z.to_nat max_length < fuel)%nat ->
       distribute fuel (holding 100) (-1) = Some (Err RangeError).
Proof.
  destruct (distribute_termination (holding 100)) as [_ [H1 [H2 _]]].
  split.
  - exact (H1 3 ltac:(rewrite max_length_value; lia)).
  - intros fuel Hf. apply H2; [reflexivity|exact Hf].
Defined.

(** *** The store layer computes what the value layer computes *)

(** How an outcome in the store stands to a result on values: the instance
    returned reads as the value, and an error is the same error. *)
Lemma new_currency_agrees (h : Store.store) (v : Store.SValue)
    (o : option Store.loc) (v' : Value) (o' : Opts) :
  Store.resolve h v = Some v' ->
  Store.read_opts h o = Some o' ->
  match Store.new_currency v o h, currency v' o' with
  | Store.Return r h', Ok c => Store.read h' r = Some c
  | Store.Throw e h', Err e' => e = e' /\ h' = h
  | _, _ => False
  end.
Proof.
  intros Hv Ho. unfold Store.new_currency. rewrite Hv, Ho.
  destruct (currency v' o') as [c|e]; [|auto].
  unfold Store.read, Store.settings_at.
  rewrite (proj1 (nth_error_new _ h _ _)), (proj2 (nth_error_new _ h _ _)).
  destruct c; reflexivity.
Qed.

Lemma store_arithmetic_agrees (h : Store.store) (this : Store.loc)
    (c : Currency) (n : Store.SValue) (v : Value) (x : float) :
  Store.read h this = Some c ->
  Store.resolve h n = Some v ->
  let agrees (a : Store.outcome Store.loc) (b : result Currency) :=
    match a, b with
    | Store.Return r h', Ok c' => Store.read h' r = Some c'
    | Store.Throw e h', Err e' => e = e' /\ h' = h
    | _, _ => False
    end in
  agrees (Store.add this n h) (add c v)
  /\ agrees (Store.subtract this n h) (subtract c v)
  /\ agrees (Store.multiply this x h) (multiply c x)
  /\ agrees (Store.divide this n h) (divide c v).
Proof.
  intros Hread Hn agrees.
  destruct (read_inv h this c Hread) as (r & Hl & Hr).
  assert (Ho : Store.read_opts h (Some r) = Some (as_opts (_settings c)))
    by (unfold Store.read_opts; rewrite Hr; reflexivity).
  assert (P : forall b f,
             agrees (Store.parsing_method b f this n h)
                    (k <- parse v (_settings c) b ;;
                     currency (VNum (f (intValue c) k (_precision c)))
                              (as_opts (_settings c)))).
  { intros b f. unfold Store.parsing_method, Store.settings_at.
    rewrite Hl, Hr, Hn.
    destruct (parse v (_settings c) b) as [k|e]; [|split; reflexivity].
    apply new_currency_agrees; [reflexivity|exact Ho]. }
  repeat split.
  - apply P.
  - apply P.
  - unfold Store.multiply, Store.settings_at, multiply. rewrite Hl, Hr.
    apply new_currency_agrees; [reflexivity|exact Ho].
  - apply P.
Qed.

(** *** The invariant of an instance *)

Lemma finite_mantissa (x : float) (s : bool) (m : positive) (e : Z) :
  Prim2SF x = S754_finite s m e -> Zpos m < 2 ^ 53.
Proof.
  intros H. pose proof (Prim2SF_valid x) as V. rewrite H in V.
  unfold SpecFloat.valid_binary, bounded, canonical_mantissa in V.
  apply andb_prop in V as [V _]. apply Z.eqb_eq in V.
  fold (D m) in V. unfold fexp, SpecFloat.emin, prec, emax in V.
  pose proof (D_bounds m) as [_ B].
  apply Z.lt_le_trans with (2 ^ D m); [exact B|].
  apply Z.pow_le_mono_r; lia.
Qed.

(** The float of an integer below [2^53] is whole. *)
Lemma whole_of_Z (z : Z) : Z.abs z < 2 ^ 53 -> whole (of_Z z) = true.
Proof.
  intros Hz.
  assert (C : forall s p, Zpos p < 2 ^ 53 -> whole (of_Z (signed s p)) = true).
  { intros s p Hp. pose proof (D_le_53 p Hp) as Hd.
    unfold whole. rewrite (Prim2SF_of_Z s p Hp). unfold canon.
    rewrite scaled_pos by lia.
    destruct (0 <=? D p - 53); [reflexivity|]. cbn [orb].
    replace (- (D p - 53)) with (53 - D p) by lia.
    rewrite Z.mod_mul by (apply Z.pow_nonzero; lia). reflexivity. }
  destruct z as [|p|p]; [reflexivity| |].
  - exact (C false p Hz).
  - exact (C true p Hz).
Qed.

(** [Math.round] gives a whole number. *)
Lemma Math_round_whole (x : float) : whole (Math_round x) = true.
Proof.
  unfold Math_round. destruct (Prim2SF x) as [s|s| |s m e] eqn:E;
    try (unfold whole; rewrite E; reflexivity).
  destruct (0 <=? e) eqn:L; [unfold whole; rewrite E, L; reflexivity|].
  apply Z.leb_gt in L.
  set (n := (2 * signed s m + 2 ^ (- e)) / 2 ^ (1 - e)).
  destruct (n =? 0); [destruct s; reflexivity|].
  apply whole_of_Z. pose proof (finite_mantissa x s m e E) as Hm.
  assert (K : 0 < 2 ^ (- e)) by (apply Z.pow_pos_nonneg; lia).
  assert (P : 2 ^ (1 - e) = 2 * 2 ^ (- e)).
  { replace (1 - e) with (1 + - e) by lia.
    rewrite Z.pow_add_r by lia. reflexivity. }
  assert (G : 2 <= 2 ^ (- e)).
  { change 2 with (2 ^ 1) at 1. apply Z.pow_le_mono_r; lia. }
  unfold n. rewrite P.
  assert (U : (2 * signed s m + 2 ^ (- e)) / (2 * 2 ^ (- e)) < 2 ^ 53).
  { apply Z.div_lt_upper_bound; [lia|]. destruct s; cbn [signed]; nia. }
  assert (W : - 2 ^ 53 < (2 * signed s m + 2 ^ (- e)) / (2 * 2 ^ (- e))).
  { apply Z.lt_le_trans with (- 2 ^ 53 + 1); [lia|].
    apply Z.div_le_lower_bound; [lia|]. destruct s; cbn [signed]; nia. }
  lia.
Qed.

(** A constructed instance holds a whole number of smallest units, or an
    infinity or NaN: its [intValue] comes out of [Math.round].  Its [value]
    is [intValue / 10^precision] and its [_precision] is [10^precision],
    for a precision up to 22, where [10^precision] is a float.  Its
    settings have an increment, [1 / 10^precision] when none was given, and
    the grouping expression that [useVedic] selects. *)
Theorem constructed_invariant (v : Value) (o : Opts) (c : Currency) :
  currency v o = Ok c ->
  (precision (_settings c) <= 22)%N ->
  whole (intValue c) = true
  /\ value c
     = (intValue c / of_Z (10 ^ Z.of_N (precision (_settings c))))%float
  /\ _precision c = of_Z (10 ^ Z.of_N (precision (_settings c)))
  /\ precision (_settings c) = override (o_precision o) 2%N
  /\ increment (_settings c)
     = Some (increment_or (override_opt (o_increment o) None)
               (1 / of_Z (10 ^ Z.of_N (precision (_settings c)))))
  /\ groups (_settings c)
     = Some (if is_true (useVedic (_settings c)) then vedicRegex
             else groupRegex).
Proof.
  unfold currency. intros H _.
  destruct (parse v (assign defaults o) true) as [w|] eqn:P; [|discriminate].
  injection H as <-. cbn. repeat split.
  unfold parse in P.
  destruct (match v with
            | VNum n => Ok n
            | VStr s =>
                cleaned <- clean (decimal (assign defaults o)) s ;;
                Ok (or_else (Number cleaned
                             * pow (precision (assign defaults o))) zero)
            | VCur c0 =>
                Ok (value c0 * pow (precision (assign defaults o)))%float
            | VOther =>
                if errorOnInvalid (assign defaults o) then Err InvalidInput
                else Ok zero
            end) as [u|]; [|discriminate P].
  cbn in P. destruct (fixed4 u) as [t|]; [|discriminate P].
  cbn in P. injection P as <-. apply Math_round_whole.
Qed.

Lemma constructed_invariant_witness :
  whole (intValue (holding 100)) = true
  /\ value (holding 100) = (intValue (holding 100) / of_Z (10 ^ 2))%float
  /\ _precision (holding 100) = of_Z (10 ^ 2).
Proof.
  destruct (constructed_invariant (VStr "1") no_opts (holding 100))
    as (H1 & H2 & H3 & _).
  - vm_compute. reflexivity.
  - vm_compute. discriminate.
  - split; [exact H1|]. split; [exact H2|exact H3].
Defined.

(** *** Grouping of the whole part *)

Lemma span_digits_all (s : string) :
  all_chars is_digit s = true -> span is_digit s = (s, "").
Proof.
  induction s as [|c s IH]; [reflexivity|]. simpl. intros H.
  apply andb_prop in H as [Hc Hs]. rewrite Hc, (IH Hs). reflexivity.
Qed.

(** A replacement text with no dollar sign stands for itself. *)
Lemma substitute_plain (m b a : string) (cs : list (option string))
    (repl : string) :
  all_chars (fun c => negb (Ascii.eqb c "$")) repl = true ->
  substitute m b a cs repl = repl.
Proof.
  induction repl as [|c repl IH]; [reflexivity|]. simpl. intros H.
  apply andb_prop in H as [Hc Hr].
  destruct c as [[] [] [] [] [] [] [] []]; try discriminate Hc;
    cbn; rewrite (IH Hr); reflexivity.
Qed.

(** [$1] followed by such a text: the first capture, then the text. *)
Lemma substitute_first_capture (m b a x y sep : string) :
  all_chars (fun c => negb (Ascii.eqb c "$")) sep = true ->
  substitute m b a [Some x; Some y] ("$1" ++ sep) = (x ++ sep)%string.
Proof.
  intros H. pose proof (substitute_plain m b a [Some x; Some y] sep H) as P.
  destruct sep as [|d r]; [cbn; reflexivity|].
  cbn [append substitute]. cbn [append substitute] in P.
  change (is_digit "1") with true. cbv iota.
  change ((1 <=? digit_val "1") && (digit_val "1" <=? N.of_nat 2))%N with true.
  cbv iota. change (nth_capture [Some x; Some y] (digit_val "1")) with x.
  destruct (is_digit d) eqn:Hd.
  - replace (N.of_nat (List.length [Some x; Some y])
             <? 10 * digit_val "1" + digit_val d)%N with true.
    + rewrite P. reflexivity.
    + symmetry. apply N.ltb_lt.
      change (digit_val "1") with 1%N.
      change (N.of_nat (List.length [Some x; Some y])) with 2%N. lia.
  - rewrite P. reflexivity.
Qed.

Lemma group_condition (n : nat) :
  ((3 <=? n)%nat && (n mod 3 =? 0)%nat)
  = ((0 <? n)%nat && (n mod 3 =? 0)%nat).
Proof.
  destruct n as [|[|[|n]]]; reflexivity.
Qed.

Lemma grouping_from (sep ds : string) :
  all_chars (fun c => negb (Ascii.eqb c "$")) sep = true ->
  all_chars is_digit ds = true ->
  forall before,
    replace_groups_from groupRegex ("$1" ++ sep) before ds = group_spec sep ds
    /\ replace_groups_from vedicRegex ("$1" ++ sep) before ds
       = vedic_spec sep ds.
Proof.
  intros Hsep.
  induction ds as [|c ds IH]; intros Hds before; [split; reflexivity|].
  simpl in Hds. apply andb_prop in Hds as [Hc Hds].
  destruct (IH Hds (before ++ String c "")%string) as [IH1 IH2].
  cbn [replace_groups_from group_spec vedic_spec].
  rewrite IH1, IH2, Hc. unfold group_lookahead.
  rewrite (span_digits_all ds Hds). cbn [andb].
  rewrite group_condition.
  split.
  - destruct ((0 <? String.length ds)%nat
              && (String.length ds mod 3 =? 0)%nat);
      [rewrite substitute_first_capture by exact Hsep|]; reflexivity.
  - destruct ((3 <=? String.length ds)%nat && Nat.odd (String.length ds));
      [rewrite substitute_first_capture by exact Hsep|]; reflexivity.
Qed.

(** On a string of digits, and with a separator that has no dollar sign,
    the replacement with either grouping expression places the separator as
    the specification says: every three digits from the right, or, for the
    vedic expression, after the last three digits every two. *)
Theorem grouping_of_digits (sep ds : string) :
  all_chars (fun c => negb (Ascii.eqb c "$")) sep = true ->
  all_chars is_digit ds = true ->
  replace_groups (Some groupRegex) ("$1" ++ sep) ds = group_spec sep ds
  /\ replace_groups (Some vedicRegex) ("$1" ++ sep) ds = vedic_spec sep ds.
Proof.
  intros Hsep Hds. exact (grouping_from sep ds Hsep Hds "").
Qed.

Lemma grouping_of_digits_witness :
  replace_groups (Some groupRegex) ("$1" ++ ",") "1234567" = "1,234,567"
  /\ replace_groups (Some vedicRegex) ("$1" ++ ",") "1234567" = "12,34,567".
Proof.
  exact (grouping_of_digits "," "1234567" eq_refl eq_refl).
Defined.

(** *** The round trip through toString

    Every float operation of the round trip is followed on exact rational
    values: a rounding is within [2^-52] of the exact result, relative to
    it, and the roundings of [Math.round] and [toFixed] absorb what has
    accumulated as long as it is below a half. *)

Lemma round_nearest_even_le m l : round_nearest_even m l <= m + 1.
Proof.
  destruct l as [|[ | | ]]; cbn [round_nearest_even]; try lia.
  destruct (Z.even m); lia.
Qed.

(** The digits of a mantissa between [2^52] and [2^54]. *)
Lemma D_53_54 m : 2 ^ 52 <= Zpos m < 2 ^ 54 ->
  (D m = 53 /\ Zpos m < 2 ^ 53) \/ (D m = 54 /\ 2 ^ 53 <= Zpos m).
Proof.
  intros [L U]. destruct (Z_lt_le_dec (Zpos m) (2 ^ 53)) as [H|H].
  - left. split; [apply D_unique; change (53 - 1) with 52; lia|exact H].
  - right. split; [apply D_unique; change (54 - 1) with 53; lia|exact H].
Qed.

(** The first step of a rounding, on a mantissa of 53 or 54 digits: it is
    cut to 53 digits. *)
Lemma shr_fexp_53_54 m e l r e' :
  2 ^ 52 <= Zpos m < 2 ^ 54 -> -1074 <= e ->
  shr_fexp prec emax (Zpos m) e l = (r, e') ->
  exists a, 0 <= a <= 1 /\ e' = e + a /\ shr_m r = Zpos m / 2 ^ a
            /\ 2 ^ 52 <= shr_m r < 2 ^ 53.
Proof.
  intros B He. unfold shr_fexp, shr. cbn [Zdigits2]. fold (D m).
  assert (F : fexp prec emax (D m + e) = Z.max (D m + e - 53) (-1074))
    by reflexivity.
  rewrite F.
  destruct (D_53_54 m B) as [[Hd Hm]|[Hd Hm]]; rewrite Hd.
  - replace (Z.max (53 + e - 53) (-1074) - e) with 0 by lia.
    intros H. injection H as <- <-. exists 0.
    rewrite shr_m_of_loc, Z.pow_0_r, Z.div_1_r. lia.
  - replace (Z.max (54 + e - 53) (-1074) - e) with 1 by lia.
    intros H. injection H as <- <-. exists 1.
    cbn [iter_pos]. rewrite shr_1_m by (rewrite shr_m_of_loc; lia).
    rewrite shr_m_of_loc. change (2 ^ 1) with 2.
    split; [lia|]. split; [reflexivity|]. split; [reflexivity|].
    change (2 ^ 54) with (2 * 2 ^ 53) in B.
    change (2 ^ 53) with (2 * 2 ^ 52) in Hm.
    split.
    + apply Z.div_le_lower_bound; lia.
    + apply Z.div_lt_upper_bound; lia.
Qed.

Lemma pow2_pos e : (0 < pow2 e)%Q.
Proof. apply Qpower_0_lt. reflexivity. Qed.

Lemma pow2_add a b : (pow2 (a + b) == pow2 a * pow2 b)%Q.
Proof. apply Qpower_plus. discriminate. Qed.

Lemma pow2_Z k : 0 <= k -> (pow2 k == inject_Z (2 ^ k))%Q.
Proof. intros H. symmetry. apply (Zpower_Qpower 2 k H). Qed.

Lemma magZ_scale m j e : 0 <= j -> (magZ (m * 2 ^ j) e == magZ m (e + j))%Q.
Proof.
  intros H. unfold magZ. rewrite inject_Z_mult, pow2_add, (pow2_Z j H).
  ring.
Qed.

Lemma magZ_le a b e : a <= b -> (magZ a e <= magZ b e)%Q.
Proof.
  intros H. unfold magZ. apply Qmult_le_compat_r.
  - rewrite <- Zle_Qle. exact H.
  - apply Qlt_le_weak, pow2_pos.
Qed.

Lemma magZ_succ a e : (magZ (a + 1) e == magZ a e + pow2 e)%Q.
Proof. unfold magZ. rewrite inject_Z_plus. ring. Qed.

(** The first step of a rounding, on a mantissa of at least 53 digits: it
    is cut to 53 digits. *)
Lemma shr_fexp_cut m e l r e' :
  53 <= D m -> -1074 <= e ->
  shr_fexp prec emax (Zpos m) e l = (r, e') ->
  e' = e + (D m - 53) /\ shr_m r = Zpos m / 2 ^ (D m - 53)
  /\ 2 ^ 52 <= shr_m r < 2 ^ 53.
Proof.
  intros B He. unfold shr_fexp, shr. cbn [Zdigits2]. fold (D m).
  assert (F : fexp prec emax (D m + e) = Z.max (D m + e - 53) (-1074))
    by reflexivity.
  rewrite F. pose proof (D_bounds m) as [B1 B2].
  replace (Z.max (D m + e - 53) (-1074) - e) with (D m - 53) by lia.
  assert (G : 2 ^ 52 <= Zpos m / 2 ^ (D m - 53) < 2 ^ 53).
  { assert (K : 0 < 2 ^ (D m - 53)) by (apply Z.pow_pos_nonneg; lia).
    assert (E1 : 2 ^ (D m - 1) = 2 ^ 52 * 2 ^ (D m - 53)).
    { rewrite <- Z.pow_add_r by lia. f_equal. lia. }
    assert (E2 : 2 ^ D m = 2 ^ 53 * 2 ^ (D m - 53)).
    { rewrite <- Z.pow_add_r by lia. f_equal. lia. }
    split.
    - apply Z.div_le_lower_bound; lia.
    - apply Z.div_lt_upper_bound; lia. }
  destruct (D m - 53) as [|j|j] eqn:Hj; intros H; injection H as <- <-.
  - rewrite shr_m_of_loc. rewrite Z.pow_0_r, Z.div_1_r in *. lia.
  - rewrite iter_shr_m by (rewrite shr_m_of_loc; lia).
    rewrite shr_m_of_loc. lia.
  - lia.
Qed.

(** A rounding to nearest of a mantissa of at least 53 digits gives a
    finite float of 53 digits, within [2^-52] of every exact value that the
    mantissa stands for, relative to that value. *)
Lemma round_general s m e l (T : Q) :
  53 <= D m -> -1074 <= e -> D m + e <= 1000 ->
  (magZ (Zpos m) e <= T)%Q -> (T < magZ (Zpos m + 1) e)%Q ->
  exists m3 E,
    binary_round_aux prec emax s (Zpos m) e l = S754_finite s m3 E
    /\ D m3 = 53
    /\ D m + e - 53 <= E <= D m + e - 52
    /\ (T - T * ulp_rel <= magZ (Zpos m3) E)%Q
    /\ (magZ (Zpos m3) E <= T + T * ulp_rel)%Q.
Proof.
  intros B He Hu T1 T2. unfold binary_round_aux.
  destruct (shr_fexp prec emax (Zpos m) e l) as [r1 e1] eqn:H1.
  destruct (shr_fexp_cut m e l r1 e1 B He H1) as [-> [Hr1 Br1]].
  set (j := D m - 53) in *.
  pose proof (round_nearest_even_ge (shr_m r1) (loc_of_shr_record r1)) as G1.
  pose proof (round_nearest_even_le (shr_m r1) (loc_of_shr_record r1)) as G2.
  destruct (round_nearest_even (shr_m r1) (loc_of_shr_record r1))
    as [|M|M] eqn:HM; try lia.
  assert (BM : 2 ^ 52 <= Zpos M < 2 ^ 54).
  { change (2 ^ 54) with (2 * 2 ^ 53). lia. }
  destruct (shr_fexp prec emax (Zpos M) (e + j) loc_Exact) as [r2 e2] eqn:H2.
  destruct (shr_fexp_53_54 M (e + j) loc_Exact r2 e2 BM ltac:(lia) H2)
    as [b [Hb [-> [Hr2 Br2]]]].
  destruct (shr_m r2) as [|m3|m3] eqn:H3; try lia.
  replace (e + j + b <=? emax - prec) with true
    by (symmetry; apply Z.leb_le; unfold emax, prec; lia).
  exists m3, (e + j + b).
  assert (EM : Zpos m3 * 2 ^ b = Zpos M).
  { assert (Hb' : b = 0 \/ b = 1) by lia. destruct Hb' as [-> | ->].
    - rewrite Z.pow_0_r, Z.div_1_r in Hr2. rewrite Z.pow_0_r. lia.
    - change (2 ^ 1) with 2 in *.
      assert (Zpos M = 2 ^ 53).
      { assert (2 ^ 52 * 2 <= Zpos M).
        { destruct (Z_lt_le_dec (Zpos M) (2 ^ 52 * 2)) as [L|L]; [|exact L].
          assert (Zpos M / 2 < 2 ^ 52)
            by (apply Z.div_lt_upper_bound; lia). lia. }
        change (2 ^ 53) with (2 ^ 52 * 2). lia. }
      rewrite Hr2, H. reflexivity. }
  split; [reflexivity|]. split.
  { apply D_unique. change (53 - 1) with 52. lia. }
  split; [unfold j; lia|].
  (* the exact values *)
  assert (V : (magZ (Zpos m3) (e + j + b) == magZ (Zpos M) (e + j))%Q).
  { rewrite <- EM. symmetry. apply magZ_scale. lia. }
  set (Y := pow2 (e + j)).
  assert (HY : (0 < Y)%Q) by apply pow2_pos.
  set (a := magZ (shr_m r1) (e + j)).
  assert (Hj : 0 <= j) by (unfold j; lia).
  assert (K : 0 < 2 ^ j) by (apply Z.pow_pos_nonneg; lia).
  assert (L1 : shr_m r1 * 2 ^ j <= Zpos m).
  { rewrite Hr1. rewrite Z.mul_comm. apply Z.mul_div_le. exact K. }
  assert (L2 : Zpos m + 1 <= (shr_m r1 + 1) * 2 ^ j).
  { rewrite Hr1.
    pose proof (Z.mod_pos_bound (Zpos m) (2 ^ j) K) as R.
    pose proof (Z.div_mod (Zpos m) (2 ^ j) ltac:(lia)) as E. nia. }
  assert (A1 : (a <= T)%Q).
  { apply Qle_trans with (magZ (Zpos m) e); [|exact T1].
    unfold a. rewrite <- (magZ_scale (shr_m r1) j e Hj).
    apply magZ_le. exact L1. }
  assert (A2 : (T < a + Y)%Q).
  { apply Qlt_le_trans with (magZ (Zpos m + 1) e); [exact T2|].
    unfold a, Y. rewrite <- magZ_succ.
    rewrite <- (magZ_scale (shr_m r1 + 1) j e Hj).
    apply magZ_le. exact L2. }
  assert (A3 : (inject_Z (2 ^ 52) * Y <= a)%Q).
  { unfold a, Y. apply (magZ_le (2 ^ 52) (shr_m r1) (e + j)). lia. }
  assert (A4 : (a <= magZ (Zpos M) (e + j))%Q)
    by (apply magZ_le; lia).
  assert (A5 : (magZ (Zpos M) (e + j) <= a + Y)%Q).
  { unfold a, Y. rewrite <- magZ_succ. apply magZ_le. lia. }
  rewrite V. unfold ulp_rel.
  change (inject_Z (2 ^ 52)) with (4503599627370496 # 1)%Q in A3.
  change (1 # 2 ^ 52)%Q with (1 # 4503599627370496)%Q.
  split; lra.
Qed.

Lemma magZ_pos m e : (0 < magZ (Zpos m) e)%Q.
Proof.
  unfold magZ. apply Qmult_lt_0_compat; [reflexivity|apply pow2_pos].
Qed.

Lemma magZ_mul a b e f : (magZ a e * magZ b f == magZ (a * b) (e + f))%Q.
Proof. unfold magZ. rewrite inject_Z_mult, pow2_add. ring. Qed.

(** The quotient of a division that carries [s] more digits: it is the
    exact quotient cut at the exponent [e1 - e2 - s]. *)
Lemma quotient_bounds (m1 m2 q : positive) (e1 e2 s : Z) (T : Q) :
  0 <= s ->
  Zpos q = Zpos m1 * 2 ^ s / Zpos m2 ->
  (T * magZ (Zpos m2) e2 == magZ (Zpos m1) e1)%Q ->
  (magZ (Zpos q) (e1 - e2 - s) <= T)%Q
  /\ (T < magZ (Zpos q + 1) (e1 - e2 - s))%Q.
Proof.
  intros Hs Hq HT.
  pose proof (Z.div_mod (Zpos m1 * 2 ^ s) (Zpos m2) ltac:(lia)) as E.
  pose proof (Z.mod_pos_bound (Zpos m1 * 2 ^ s) (Zpos m2) ltac:(lia)) as R.
  rewrite <- Hq in E.
  assert (L1 : Zpos q * Zpos m2 <= Zpos m1 * 2 ^ s) by lia.
  assert (L2 : Zpos m1 * 2 ^ s < (Zpos q + 1) * Zpos m2) by lia.
  pose proof (magZ_pos m2 e2) as P2.
  assert (S1 : (magZ (Zpos m1) e1 == magZ (Zpos m1 * 2 ^ s) (e1 - e2 - s + e2))%Q).
  { rewrite (magZ_scale (Zpos m1) s (e1 - e2 - s + e2) Hs).
    replace (e1 - e2 - s + e2 + s) with e1 by lia. reflexivity. }
  split.
  - apply (Qmult_le_r _ _ _ P2). rewrite HT, magZ_mul, S1.
    apply magZ_le. exact L1.
  - apply (Qmult_lt_r _ _ _ P2). rewrite HT, magZ_mul, S1.
    unfold magZ. apply Qmult_lt_compat_r; [apply pow2_pos|].
    rewrite <- Zlt_Qlt. exact L2.
Qed.

(** The core of a division of two mantissas, when the quotient is at a
    normal exponent: it carries 53 or 54 digits. *)
Lemma div_core_gen m1 e1 m2 e2 :
  D m1 - D m2 <= 53 ->
  -1074 <= D m1 - D m2 + e1 - e2 - 53 ->
  exists q l,
    SFdiv_core_binary prec emax (Zpos m1) e1 (Zpos m2) e2
    = (Zpos q, D m1 - D m2 + e1 - e2 - 53, l)
    /\ Zpos q = Zpos m1 * 2 ^ (53 - (D m1 - D m2)) / Zpos m2
    /\ 2 ^ 52 <= Zpos q < 2 ^ 54.
Proof.
  intros Hd He. pose proof (D_pos m1) as P1. pose proof (D_pos m2) as P2.
  pose proof (D_bounds m1) as [B1 B1']. pose proof (D_bounds m2) as [B2 B2'].
  unfold SFdiv_core_binary. cbn [Zdigits2]. fold (D m1). fold (D m2).
  assert (F : fexp prec emax (D m1 + e1 - (D m2 + e2))
              = Z.max (D m1 + e1 - (D m2 + e2) - 53) (-1074))
    by reflexivity.
  rewrite F.
  replace (Z.min (Z.max (D m1 + e1 - (D m2 + e2) - 53) (-1074)) (e1 - e2))
    with (D m1 - D m2 + e1 - e2 - 53) by lia.
  replace (e1 - e2 - (D m1 - D m2 + e1 - e2 - 53))
    with (53 - (D m1 - D m2)) by lia.
  set (s := 53 - (D m1 - D m2)).
  assert (Hs : 0 <= s) by (unfold s; lia).
  assert (EM : match s with
               | 0 => Zpos m1
               | Zpos _ => Z.shiftl (Zpos m1) s
               | Zneg _ => 0
               end = Zpos m1 * 2 ^ s).
  { destruct s as [|k|k] eqn:Hk; [rewrite Z.pow_0_r; lia| |lia].
    apply Z.shiftl_mul_pow2. lia. }
  rewrite EM.
  assert (G : 0 < 2 ^ s) by (apply Z.pow_pos_nonneg; lia).
  assert (BQ : 2 ^ 52 <= Zpos m1 * 2 ^ s / Zpos m2 < 2 ^ 54).
  { split.
    - apply Z.div_le_lower_bound; [lia|].
      apply Z.le_trans with (2 ^ D m2 * 2 ^ 52); [nia|].
      apply Z.le_trans with (2 ^ (D m1 - 1) * 2 ^ s); [|nia].
      rewrite <- !Z.pow_add_r by lia. apply Z.pow_le_mono_r; lia.
    - apply Z.div_lt_upper_bound; [lia|].
      apply Z.lt_le_trans with (2 ^ D m1 * 2 ^ s); [nia|].
      apply Z.le_trans with (2 ^ (D m2 - 1) * 2 ^ 54); [|nia].
      rewrite <- !Z.pow_add_r by lia. apply Z.pow_le_mono_r; lia. }
  unfold Z.div in BQ.
  destruct (Z.div_eucl (Zpos m1 * 2 ^ s) (Zpos m2)) as [q r] eqn:DE.
  cbn [fst] in BQ.
  destruct q as [|q|q]; try (change (2 ^ 52) with 4503599627370496 in BQ; lia).
  exists q, (new_location (Zpos m2) r).
  split; [reflexivity|]. split; [|exact BQ].
  unfold Z.div. rewrite DE. reflexivity.
Qed.

(** A finite float of 53 digits at a normal exponent is a valid one. *)
Lemma finite53_valid s m e :
  D m = 53 -> -1074 <= e <= 971 -> valid_binary (S754_finite s m e) = true.
Proof.
  intros Hd He. unfold valid_binary, bounded, canonical_mantissa.
  fold (D m). rewrite Hd.
  assert (F : fexp prec emax (53 + e) = Z.max (53 + e - 53) (-1074))
    by reflexivity.
  rewrite F. apply andb_true_intro. split.
  - apply Z.eqb_eq. lia.
  - apply Z.leb_le. unfold emax, prec. lia.
Qed.

(** The rounded quotient of two floats of 53 digits is within [2^-52] of
    the exact quotient [T], relative to it. *)
Lemma div_rel (x y : float) sx mx ex sy my ey (T : Q) :
  Prim2SF x = S754_finite sx mx ex -> Prim2SF y = S754_finite sy my ey ->
  D mx = 53 -> D my = 53 -> -1021 <= ex - ey <= 900 ->
  (T * magZ (Zpos my) ey == magZ (Zpos mx) ex)%Q ->
  exists m E,
    Prim2SF (x / y) = S754_finite (xorb sx sy) m E
    /\ D m = 53 /\ ex - ey - 53 <= E <= ex - ey - 51
    /\ (T - T * ulp_rel <= magZ (Zpos m) E)%Q
    /\ (magZ (Zpos m) E <= T + T * ulp_rel)%Q.
Proof.
  intros Hx Hy Dx Dy He HT.
  rewrite div_spec. unfold SF64div. rewrite Hx, Hy. cbn [SFdiv].
  destruct (div_core_gen mx ex my ey) as [q [l [C [Eq Bq]]]]; [lia|lia|].
  rewrite C. cbv iota beta. rewrite Dx, Dy in *.
  replace (53 - 53 + ex - ey - 53) with (ex - ey - 53) in * by lia.
  change (53 - (53 - 53)) with 53 in Eq.
  destruct (quotient_bounds mx my q ex ey 53 T ltac:(lia) Eq HT) as [T1 T2].
  destruct (D_53_54 q Bq) as [[Dq _]|[Dq _]].
  - destruct (round_general (xorb sx sy) q (ex - ey - 53) l T)
      as [m [E [R [Dm [BE [U1 U2]]]]]]; try lia; try assumption.
    exists m, E. rewrite Dq in BE. repeat split; try assumption; lia.
  - destruct (round_general (xorb sx sy) q (ex - ey - 53) l T)
      as [m [E [R [Dm [BE [U1 U2]]]]]]; try lia; try assumption.
    exists m, E. rewrite Dq in BE. repeat split; try assumption; lia.
Qed.

(** The rounded product of two floats of 53 digits is within [2^-52] of
    the exact product, relative to it. *)
Lemma mul_rel (x y : float) sx mx ex sy my ey (T : Q) :
  Prim2SF x = S754_finite sx mx ex -> Prim2SF y = S754_finite sy my ey ->
  D mx = 53 -> D my = 53 -> -1074 <= ex + ey <= 800 ->
  (T == magZ (Zpos mx) ex * magZ (Zpos my) ey)%Q ->
  exists m E,
    Prim2SF (x * y) = S754_finite (xorb sx sy) m E
    /\ D m = 53 /\ ex + ey + 52 <= E <= ex + ey + 54
    /\ (T - T * ulp_rel <= magZ (Zpos m) E)%Q
    /\ (magZ (Zpos m) E <= T + T * ulp_rel)%Q.
Proof.
  intros Hx Hy Dx Dy He HT.
  rewrite mul_spec. unfold SF64mul. rewrite Hx, Hy. cbn [SFmul].
  pose proof (D_bounds mx) as [X1 X2]. pose proof (D_bounds my) as [Y1 Y2].
  rewrite Dx in X1, X2. rewrite Dy in Y1, Y2.
  change (53 - 1) with 52 in *.
  assert (Dp : D (mx * my) = 105 \/ D (mx * my) = 106).
  { destruct (Z_lt_le_dec (Zpos (mx * my)) (2 ^ 105)) as [L|L].
    - left. apply D_unique. rewrite Pos2Z.inj_mul in *.
      change (2 ^ (105 - 1)) with (2 ^ 52 * 2 ^ 52). nia.
    - right. apply D_unique. rewrite Pos2Z.inj_mul in *.
      change (2 ^ (106 - 1)) with (2 ^ 105).
      change (2 ^ 106) with (2 ^ 53 * 2 ^ 53). nia. }
  assert (T1 : (magZ (Zpos (mx * my)) (ex + ey) <= T)%Q).
  { rewrite HT, magZ_mul, Pos2Z.inj_mul. apply Qle_refl. }
  assert (T2 : (T < magZ (Zpos (mx * my) + 1) (ex + ey))%Q).
  { rewrite HT, magZ_mul, Pos2Z.inj_mul, magZ_succ.
    pose proof (pow2_pos (ex + ey)). lra. }
  destruct (round_general (xorb sx sy) (mx * my) (ex + ey) loc_Exact T)
    as [m [E [R [Dm [BE [U1 U2]]]]]]; try lia; try assumption.
  exists m, E. repeat split; try assumption; lia.
Qed.

(** The float nearest to [p / q] is within [2^-52] of it, relative to
    it. *)
Lemma ratio_rel (s : bool) (p q : positive) (T : Q) :
  D p - D q <= 53 -> -900 <= D p - D q ->
  (T * inject_Z (Zpos q) == inject_Z (Zpos p))%Q ->
  exists m E,
    Prim2SF (of_ratio s p q) = S754_finite s m E
    /\ D m = 53 /\ D p - D q - 53 <= E <= D p - D q - 51
    /\ (T - T * ulp_rel <= magZ (Zpos m) E)%Q
    /\ (magZ (Zpos m) E <= T + T * ulp_rel)%Q.
Proof.
  intros Hd Hl HT. unfold of_ratio.
  destruct (div_core_gen p 0 q 0) as [k [l [C [Eq Bq]]]]; [lia|lia|].
  rewrite C. cbv iota beta.
  replace (D p - D q + 0 - 0 - 53) with (0 - 0 - (53 - (D p - D q))) in * by lia.
  assert (HT' : (T * magZ (Zpos q) 0 == magZ (Zpos p) 0)%Q).
  { unfold magZ. change (pow2 0) with 1%Q. rewrite !Qmult_1_r. exact HT. }
  destruct (quotient_bounds p q k 0 0 (53 - (D p - D q)) T ltac:(lia) Eq HT')
    as [T1 T2].
  assert (R : exists m E,
            binary_round_aux prec emax s (Zpos k)
              (0 - 0 - (53 - (D p - D q))) l = S754_finite s m E
            /\ D m = 53 /\ D p - D q - 53 <= E <= D p - D q - 51
            /\ (T - T * ulp_rel <= magZ (Zpos m) E)%Q
            /\ (magZ (Zpos m) E <= T + T * ulp_rel)%Q).
  { destruct (D_53_54 k Bq) as [[Dq _]|[Dq _]];
      destruct (round_general s k (0 - 0 - (53 - (D p - D q))) l T)
        as [m [E [R [Dm [BE [U1 U2]]]]]]; try lia; try assumption;
      exists m, E; rewrite Dq in BE; repeat split; try assumption; lia. }
  destruct R as [m [E [R [Dm [BE [U1 U2]]]]]].
  exists m, E. rewrite R.
  rewrite Prim2SF_SF2Prim by (apply finite53_valid; [exact Dm|lia]).
  repeat split; try assumption; lia.
Qed.

(** Comparisons of an exact value at a negative exponent with an integer,
    as comparisons of integers. *)
Lemma magZ_unscale a e : e <= 0 -> (magZ a e * inject_Z (2 ^ (- e)) == inject_Z a)%Q.
Proof.
  intros H. unfold magZ. rewrite <- (pow2_Z (- e)) by lia.
  rewrite <- Qmult_assoc, <- pow2_add.
  replace (e + - e) with 0 by lia. change (pow2 0) with 1%Q. ring.
Qed.

Lemma pow2Z_pos k : 0 <= k -> (0 < inject_Z (2 ^ k))%Q.
Proof.
  intros H. change 0%Q with (inject_Z 0). rewrite <- Zlt_Qlt.
  apply Z.pow_pos_nonneg; lia.
Qed.

Lemma magZ_lt_iff a b e :
  e <= 0 -> (magZ a e < inject_Z b)%Q <-> a < b * 2 ^ (- e).
Proof.
  intros H. rewrite Zlt_Qlt, inject_Z_mult, <- (magZ_unscale a e H).
  symmetry. apply Qmult_lt_r. apply pow2Z_pos. lia.
Qed.

Lemma magZ_gt_iff a b e :
  e <= 0 -> (inject_Z b < magZ a e)%Q <-> b * 2 ^ (- e) < a.
Proof.
  intros H. rewrite Zlt_Qlt, inject_Z_mult, <- (magZ_unscale a e H).
  symmetry. apply Qmult_lt_r. apply pow2Z_pos. lia.
Qed.

Lemma magZ_ge_iff a b e :
  e <= 0 -> (inject_Z b <= magZ a e)%Q <-> b * 2 ^ (- e) <= a.
Proof.
  intros H. rewrite Zle_Qle, inject_Z_mult, <- (magZ_unscale a e H).
  symmetry. apply Qmult_le_r. apply pow2Z_pos. lia.
Qed.

Lemma magZ_double a e : (magZ (2 * a) e == 2 * magZ a e)%Q.
Proof. unfold magZ. rewrite inject_Z_mult. ring. Qed.

(** A float of 53 digits below [2^52] has a negative exponent. *)
Lemma small_negative_exponent m e :
  D m = 53 -> (magZ (Zpos m) e < inject_Z (2 ^ 52))%Q -> e < 0.
Proof.
  intros Hd H. destruct (Z_lt_le_dec e 0) as [L|L]; [exact L|exfalso].
  pose proof (D_bounds m) as [B _]. rewrite Hd in B.
  change (53 - 1) with 52 in B.
  assert (K : 1 <= 2 ^ e) by (apply (Z.pow_le_mono_r 2 0 e); lia).
  assert (G : (inject_Z (2 ^ 52) <= magZ (Zpos m) e)%Q).
  { unfold magZ. rewrite (pow2_Z e L), <- inject_Z_mult, <- Zle_Qle. nia. }
  lra.
Qed.

(** The integer nearest to an exact value at a negative exponent, the
    larger one on a tie. *)
Lemma nearest_spec a e :
  e < 0 ->
  let n := (2 * a + 2 ^ (- e)) / 2 ^ (1 - e) in
  (inject_Z (2 * n - 1) <= magZ (2 * a) e)%Q
  /\ (magZ (2 * a) e < inject_Z (2 * n + 1))%Q.
Proof.
  intros He n.
  assert (K : 0 < 2 ^ (- e)) by (apply Z.pow_pos_nonneg; lia).
  assert (P : 2 ^ (1 - e) = 2 * 2 ^ (- e)).
  { replace (1 - e) with (1 + - e) by lia.
    rewrite Z.pow_add_r by lia. reflexivity. }
  pose proof (Z.div_mod (2 * a + 2 ^ (- e)) (2 ^ (1 - e)) ltac:(lia)) as E.
  pose proof (Z.mod_pos_bound (2 * a + 2 ^ (- e)) (2 ^ (1 - e)) ltac:(lia)) as R.
  fold n in E. rewrite P in *.
  split.
  - apply magZ_ge_iff; [lia|]. nia.
  - apply magZ_lt_iff; [lia|]. nia.
Qed.

(** [Math.round] of a float within a half of a positive integer [P], in
    magnitude, is [P] with the sign of the float. *)
Lemma Math_round_near x s m e (P : Z) :
  Prim2SF x = S754_finite s m e -> D m = 53 ->
  1 <= P < 2 ^ 52 ->
  (inject_Z P - (1 # 2) < magZ (Zpos m) e)%Q ->
  (magZ (Zpos m) e < inject_Z P + (1 # 2))%Q ->
  Math_round x = of_Z (signedZ s P).
Proof.
  intros Hx Hd HP L U.
  assert (He : e < 0).
  { apply (small_negative_exponent m e Hd).
    assert (G : (inject_Z P + inject_Z 1 <= inject_Z (2 ^ 52))%Q).
    { rewrite <- (inject_Z_plus P 1), <- Zle_Qle. lia. }
    change (inject_Z 1) with 1%Q in G. lra. }
  unfold Math_round. rewrite Hx.
  replace (0 <=? e) with false by (symmetry; apply Z.leb_gt; exact He).
  assert (K : 0 < 2 ^ (- e)) by (apply Z.pow_pos_nonneg; lia).
  assert (Pw : 2 ^ (1 - e) = 2 * 2 ^ (- e)).
  { replace (1 - e) with (1 + - e) by lia.
    rewrite Z.pow_add_r by lia. reflexivity. }
  assert (L' : (2 * P - 1) * 2 ^ (- e) < 2 * Zpos m).
  { apply magZ_gt_iff; [lia|]. rewrite magZ_double.
    replace (2 * P - 1) with (2 * P + - 1) by lia.
    rewrite inject_Z_plus, inject_Z_mult.
    change (inject_Z 2) with 2%Q. change (inject_Z (-1)) with (- (1))%Q. lra. }
  assert (U' : 2 * Zpos m < (2 * P + 1) * 2 ^ (- e)).
  { apply magZ_lt_iff; [lia|]. rewrite magZ_double.
    rewrite inject_Z_plus, inject_Z_mult.
    change (inject_Z 2) with 2%Q. change (inject_Z 1) with 1%Q. lra. }
  assert (N : (2 * signed s m + 2 ^ (- e)) / 2 ^ (1 - e) = signedZ s P).
  { rewrite Pw. destruct s; cbn [signed signedZ].
    - symmetry. apply (Z.div_unique _ _ _
        (2 * Z.neg m + 2 ^ (- e) - 2 * 2 ^ (- e) * - P)); [left|]; lia.
    - symmetry. apply (Z.div_unique _ _ _
        (2 * Z.pos m + 2 ^ (- e) - 2 * 2 ^ (- e) * P)); [left|]; lia. }
  rewrite N.
  replace (signedZ s P =? 0) with false; [reflexivity|].
  symmetry. apply Z.eqb_neq. destruct s; cbn [signedZ]; lia.
Qed.

(** [toFixed(f)] of a finite float at a negative exponent: the digits of
    the integer nearest to the magnitude times [10^f]. *)
Lemma toFixed_finite x s m e (f : Z) :
  Prim2SF x = S754_finite s m e -> e < 0 -> 0 <= f <= 100 ->
  exists n,
    toFixed x f
    = Ok ((if s then "-" else "") ++ fixed_point (Z.to_N n) (Z.to_nat f))%string
    /\ 0 <= n
    /\ (inject_Z (2 * n - 1) <= magZ (2 * (Zpos m * 10 ^ f)) e)%Q
    /\ (magZ (2 * (Zpos m * 10 ^ f)) e < inject_Z (2 * n + 1))%Q.
Proof.
  intros Hx He Hf. unfold toFixed.
  replace ((f <? 0) || (100 <? f)) with false.
  2:{ symmetry. apply orb_false_intro; apply Z.ltb_ge; lia. }
  rewrite Hx.
  replace (0 <=? e) with false by (symmetry; apply Z.leb_gt; exact He).
  cbn [andb].
  exists ((2 * Z.pos m * 10 ^ f + 2 ^ (- e)) / 2 ^ (1 - e)).
  split; [reflexivity|]. split.
  - apply Z.div_pos; [|apply Z.pow_pos_nonneg; lia].
    assert (0 < 10 ^ f) by (apply Z.pow_pos_nonneg; lia).
    assert (0 < 2 ^ (- e)) by (apply Z.pow_pos_nonneg; lia). nia.
  - replace (2 * Z.pos m * 10 ^ f) with (2 * (Z.pos m * 10 ^ f)) by ring.
    apply nearest_spec. exact He.
Qed.

(** *** Decimal digits *)

Lemma all_chars_app (p : ascii -> bool) (a b : string) :
  all_chars p (a ++ b) = all_chars p a && all_chars p b.
Proof.
  induction a as [|c a IH]; [reflexivity|]. simpl. rewrite IH.
  apply andb_assoc.
Qed.

Lemma all_chars_impl (p q : ascii -> bool) (s : string) :
  (forall c, p c = true -> q c = true) ->
  all_chars p s = true -> all_chars q s = true.
Proof.
  intros I. induction s as [|c s IH]; [reflexivity|]. simpl. intros H.
  apply andb_prop in H as [Hc Hs]. rewrite (I c Hc), (IH Hs). reflexivity.
Qed.

Lemma string_of_uint_digits (d : Decimal.uint) :
  all_chars is_digit (NilEmpty.string_of_uint d) = true.
Proof. induction d; simpl; try rewrite IHd; reflexivity. Qed.

Lemma string_of_uint_length (d : Decimal.uint) :
  String.length (NilEmpty.string_of_uint d) = Decimal.nb_digits d.
Proof. induction d; simpl; try rewrite IHd; reflexivity. Qed.

Lemma digits_of_digits (n : N) : all_chars is_digit (digits_of n) = true.
Proof.
  unfold digits_of, NilZero.string_of_uint.
  destruct (N.to_uint n); try reflexivity; apply string_of_uint_digits.
Qed.

(** Reading the digits of a number gives the number back. *)
Lemma fold_digits_acc (d : Decimal.uint) (acc : positive) :
  fold_left (fun a c => (10 * a + digit_val c)%N)
    (list_ascii_of_string (NilEmpty.string_of_uint d)) (Npos acc)
  = Npos (Pos.of_uint_acc d acc).
Proof.
  revert acc. induction d; intros acc;
    cbn [NilEmpty.string_of_uint list_ascii_of_string fold_left
         Pos.of_uint_acc];
    [reflexivity|..];
    match goal with
    | |- fold_left _ _ ?a = N.pos (Pos.of_uint_acc _ ?b) =>
        replace a with (N.pos b)
          by (unfold digit_val, code; simpl N_of_ascii; lia)
    end; apply IHd.
Qed.

Lemma fold_digits (d : Decimal.uint) :
  digits_val (NilEmpty.string_of_uint d) = N.of_uint d.
Proof.
  unfold digits_val, N.of_uint.
  induction d;
    cbn [NilEmpty.string_of_uint list_ascii_of_string fold_left Pos.of_uint];
    [reflexivity|exact IHd|..];
    match goal with
    | |- fold_left _ _ ?a = N.pos (Pos.of_uint_acc _ ?b) =>
        replace a with (N.pos b)
          by (unfold digit_val, code; simpl N_of_ascii; lia)
    end; apply fold_digits_acc.
Qed.

Lemma digits_val_digits_of (n : N) : digits_val (digits_of n) = n.
Proof.
  unfold digits_of, NilZero.string_of_uint.
  pose proof (DecimalN.Unsigned.of_to n) as E.
  destruct (N.to_uint n) eqn:U; try (rewrite <- E; apply fold_digits).
  rewrite <- E. reflexivity.
Qed.

(** The number of decimal digits is at most the number of binary ones. *)
Lemma nb_digits_double (d : Decimal.uint) :
  (Decimal.nb_digits (Decimal.Little.double d) <= S (Decimal.nb_digits d))%nat
  /\ (Decimal.nb_digits (Decimal.Little.succ_double d)
      <= S (Decimal.nb_digits d))%nat.
Proof.
  induction d as [|d [I1 I2]|d [I1 I2]|d [I1 I2]|d [I1 I2]|d [I1 I2]
                  |d [I1 I2]|d [I1 I2]|d [I1 I2]|d [I1 I2]|d [I1 I2]];
    simpl; split; lia.
Qed.

Lemma nb_digits_little (p : positive) :
  (Decimal.nb_digits (Pos.to_little_uint p) <= Pos.size_nat p)%nat.
Proof.
  induction p as [p IH|p IH|]; simpl.
  - pose proof (proj2 (nb_digits_double (Pos.to_little_uint p))). lia.
  - pose proof (proj1 (nb_digits_double (Pos.to_little_uint p))). lia.
  - lia.
Qed.

Lemma digits_of_length (p : positive) :
  Z.of_nat (String.length (digits_of (Npos p))) <= D p.
Proof.
  unfold digits_of, NilZero.string_of_uint. cbn [N.to_uint].
  pose proof (nb_digits_little p) as L.
  assert (E : Decimal.nb_digits (Pos.to_uint p)
              = Decimal.nb_digits (Pos.to_little_uint p)).
  { unfold Pos.to_uint. apply DecimalFacts.nb_digits_rev. }
  assert (S : Z.of_nat (Pos.size_nat p) = D p).
  { unfold D. rewrite digits2_size. clear. induction p; simpl Pos.size_nat;
      simpl Pos.size; try rewrite Nat2Z.inj_succ, IHp; lia. }
  destruct (Pos.to_uint p) eqn:U;
    try (rewrite string_of_uint_length; lia).
  pose proof (D_pos p). simpl. lia.
Qed.

Lemma digits_val_zeros (k : nat) (s : string) :
  digits_val (zeros k ++ s) = digits_val s.
Proof. induction k as [|k IH]; [reflexivity|]. exact IH. Qed.

Lemma zeros_digits (k : nat) : all_chars is_digit (zeros k) = true.
Proof. induction k as [|k IH]; [reflexivity|]. exact IH. Qed.

(** *** The layout of toFixed *)

Lemma substring_split (s : string) (a : nat) :
  (a <= String.length s)%nat ->
  (substring 0 a s ++ substring a (String.length s - a) s)%string = s
  /\ String.length (substring 0 a s) = a.
Proof.
  revert a. induction s as [|c s IH]; intros a Ha.
  - simpl in Ha. replace a with 0%nat by lia. split; reflexivity.
  - destruct a as [|a].
    + simpl. split; [|reflexivity]. f_equal.
      destruct (IH 0%nat ltac:(lia)) as [E _].
      rewrite Nat.sub_0_r in E. 
      assert (Z0 : substring 0 0 s = "") by (destruct s; reflexivity).
      rewrite Z0 in E. exact E.
    + simpl in Ha. simpl. destruct (IH a ltac:(lia)) as [E L].
      rewrite E, L. split; reflexivity.
Qed.

Lemma string_length_app (a b : string) :
  String.length (a ++ b) = (String.length a + String.length b)%nat.
Proof. induction a as [|c a IH]; [reflexivity|]. simpl. rewrite IH. reflexivity. Qed.

Lemma length_zeros (k : nat) : String.length (zeros k) = k.
Proof. induction k as [|k IH]; [reflexivity|]. simpl. rewrite IH. reflexivity. Qed.

(** With at least one fractional digit, [toFixed] lays out a number as a
    non-empty whole part, a point and the fractional digits, which read
    together are the number. *)
Lemma fixed_point_split (n : N) (f : nat) :
  (0 < f)%nat ->
  exists d ip fp,
    fixed_point n f = (String d ip ++ "." ++ fp)%string
    /\ all_chars is_digit (String d ip) = true
    /\ all_chars is_digit fp = true
    /\ String.length fp = f
    /\ digits_val (String d ip ++ fp) = n.
Proof.
  intros Hf. unfold fixed_point. destruct f as [|f']; [lia|].
  set (f := S f') in *. set (m := digits_of n).
  set (m' := (zeros (f + 1 - String.length m) ++ m)%string).
  assert (Lm : (f + 1 <= String.length m')%nat).
  { unfold m'. rewrite string_length_app, length_zeros. lia. }
  destruct (substring_split m' (String.length m' - f) ltac:(lia)) as [E L].
  replace (String.length m' - (String.length m' - f))%nat with f in E by lia.
  set (ip := substring 0 (String.length m' - f) m') in *.
  set (fp := substring (String.length m' - f) f m') in *.
  assert (Dm : all_chars is_digit m' = true).
  { unfold m'. rewrite all_chars_app, zeros_digits. apply digits_of_digits. }
  rewrite <- E, all_chars_app in Dm. apply andb_prop in Dm as [Di Df].
  assert (Lf : String.length fp = f).
  { pose proof (f_equal String.length E) as K. rewrite string_length_app in K. lia. }
  destruct ip as [|d ip'] eqn:Hip; [simpl in L; lia|].
  exists d, ip', fp. split; [reflexivity|]. split; [exact Di|].
  split; [exact Df|]. split; [exact Lf|].
  rewrite E. unfold m'. rewrite digits_val_zeros. apply digits_val_digits_of.
Qed.

(** *** Reading a decimal back *)

Lemma string_rev_app_twice (s a b : string) :
  string_rev_app (string_rev_app s a) b = string_rev_app a (s ++ b)%string.
Proof.
  revert a. induction s as [|c s IH]; intros a; [reflexivity|].
  simpl. rewrite IH. reflexivity.
Qed.

Lemma string_rev_involutive (s : string) : string_rev (string_rev s) = s.
Proof.
  unfold string_rev. rewrite string_rev_app_twice. simpl.
  apply append_empty_r.
Qed.

Lemma all_chars_rev_app (p : ascii -> bool) (s a : string) :
  all_chars p (string_rev_app s a) = all_chars p s && all_chars p a.
Proof.
  revert a. induction s as [|c s IH]; intros a; [reflexivity|].
  simpl. rewrite IH. simpl. destruct (p c), (all_chars p s); reflexivity.
Qed.

Lemma drop_while_none (p : ascii -> bool) (s : string) :
  all_chars (fun c => negb (p c)) s = true -> drop_while p s = s.
Proof.
  destruct s as [|c s]; [reflexivity|]. simpl. intros H.
  apply andb_prop in H as [Hc _]. destruct (p c); [discriminate|reflexivity].
Qed.

Lemma trim_none (s : string) :
  all_chars (fun c => negb (is_space c)) s = true -> trim s = s.
Proof.
  intros H. unfold trim. rewrite (drop_while_none _ s H).
  rewrite drop_while_none; [apply string_rev_involutive|].
  unfold string_rev. rewrite all_chars_rev_app, H. reflexivity.
Qed.

Lemma digit_not_space (c : ascii) :
  is_digit c = true -> negb (is_space c) = true.
Proof.
  destruct c as [[|] [|] [|] [|] [|] [|] [|] [|]];
    first [discriminate|reflexivity].
Qed.

Lemma span_app (p : ascii -> bool) (a : string) (c : ascii) (b : string) :
  all_chars p a = true -> p c = false ->
  span p (a ++ String c b) = (a, String c b).
Proof.
  intros Ha Hc. induction a as [|x a IH]; simpl.
  - rewrite Hc. reflexivity.
  - simpl in Ha. apply andb_prop in Ha as [Hx Ha].
    rewrite Hx, (IH Ha). reflexivity.
Qed.

(** An unsigned decimal with digits on both sides of the point. *)
Lemma unsigned_decimal_fixed (s : bool) (d : ascii) (ip fp : string) :
  all_chars is_digit (String d ip) = true ->
  all_chars is_digit fp = true ->
  unsigned_decimal s (String d ip ++ "." ++ fp)
  = of_decimal s (digits_val (String d ip ++ fp))
      (0 - Z.of_nat (String.length fp)).
Proof.
  intros Hi Hf. unfold unsigned_decimal.
  assert (I : (String d ip ++ "." ++ fp =? "Infinity")%string = false).
  { simpl in Hi. apply andb_prop in Hi as [Hd _]. simpl.
    destruct d as [[|] [|] [|] [|] [|] [|] [|] [|]];
      first [discriminate Hd|reflexivity]. }
  rewrite I.
  change (String d ip ++ "." ++ fp)%string
    with (String d ip ++ String "." fp)%string.
  rewrite (span_app is_digit (String d ip) "." fp Hi eq_refl).
  rewrite (span_digits_all fp Hf). reflexivity.
Qed.

(** [Number] of a decimal laid out by [toFixed], with its sign. *)
Lemma Number_fixed (s : bool) (d : ascii) (ip fp : string) :
  all_chars is_digit (String d ip) = true ->
  all_chars is_digit fp = true ->
  Number ((if s then "-" else "") ++ String d ip ++ "." ++ fp)
  = of_decimal s (digits_val (String d ip ++ fp))
      (0 - Z.of_nat (String.length fp)).
Proof.
  intros Hi Hf.
  assert (NS : all_chars (fun c => negb (is_space c))
                 (String d ip ++ "." ++ fp) = true).
  { rewrite all_chars_app.
    rewrite (all_chars_impl _ _ _ digit_not_space Hi).
    change ("." ++ fp)%string with (String "." fp). cbn [all_chars andb].
    change (negb (is_space ".")) with true. cbn [andb].
    exact (all_chars_impl _ _ _ digit_not_space Hf). }
  rewrite <- (unsigned_decimal_fixed s d ip fp Hi Hf).
  unfold Number. destruct s.
  - rewrite trim_none by (rewrite all_chars_app, NS; reflexivity).
    reflexivity.
  - rewrite trim_none by exact NS. cbn [append].
    simpl in Hi. apply andb_prop in Hi as [Hd Hip].
    destruct d as [[|] [|] [|] [|] [|] [|] [|] [|]];
      try discriminate Hd; try reflexivity.
    destruct ip as [|c ip]; [reflexivity|].
    simpl in Hip. apply andb_prop in Hip as [Hc _]. cbn [append].
    destruct c as [[|] [|] [|] [|] [|] [|] [|] [|]];
      first [discriminate Hc|reflexivity].
Qed.

(** The float of a decimal with [f] fractional digits. *)
Lemma of_decimal_ratio (s : bool) (p : positive) (f : Z) :
  0 < f <= 100 -> D p <= 300 ->
  of_decimal s (Npos p) (0 - f) = of_ratio s p (Z.to_pos (10 ^ f)).
Proof.
  intros Hf Hp. unfold of_decimal.
  pose proof (digits_of_length p) as L.
  set (nd := Z.of_nat (String.length (digits_of (N.pos p)))) in *.
  assert (0 <= nd) by (unfold nd; lia).
  replace (400 <? nd + (0 - f)) with false by (symmetry; apply Z.ltb_ge; lia).
  replace (nd + (0 - f) <? -400) with false by (symmetry; apply Z.ltb_ge; lia).
  replace (0 <=? 0 - f) with false by (symmetry; apply Z.leb_gt; lia).
  replace (- (0 - f)) with f by lia. reflexivity.
Qed.

(** *** The cleanup of a string leaves a decimal alone *)

Lemma paren_negative_none (s : string) :
  all_chars decimal_char s = true -> paren_negative s = s.
Proof.
  induction s as [|c s IH]; [reflexivity|]. simpl. intros H.
  apply andb_prop in H as [Hc Hs]. rewrite (IH Hs).
  destruct (Ascii.eqb c "(") eqn:E; [|reflexivity].
  apply Ascii.eqb_eq in E. subst c. discriminate Hc.
Qed.

Lemma remove_outside_none (class : ascii -> bool) (s : string) :
  all_chars class s = true -> remove_outside class s = s.
Proof.
  induction s as [|c s IH]; [reflexivity|]. simpl. intros H.
  apply andb_prop in H as [Hc Hs]. rewrite Hc, (IH Hs). reflexivity.
Qed.

Lemma replace_point (s : string) : replace_one_of (Ascii.eqb ".") s = s.
Proof.
  induction s as [|c s IH]; [reflexivity|]. cbn [replace_one_of].
  rewrite IH. destruct (Ascii.eqb "." c) eqn:E; [|reflexivity].
  apply Ascii.eqb_eq in E. subst c. reflexivity.
Qed.

Lemma clean_decimal (s : string) :
  all_chars decimal_char s = true -> clean "." s = Ok s.
Proof.
  intros H. unfold clean.
  change (regex ".")
    with (Ok (Outside (fun c => numeric c || Ascii.eqb c "."))).
  change (decimalString ".") with (OneOf (Ascii.eqb ".")).
  cbn [canonical_decimal strip_non_numeric].
  rewrite (paren_negative_none s H).
  rewrite remove_outside_none; [rewrite replace_point; reflexivity|].
  apply (all_chars_impl decimal_char); [|exact H].
  intros c. unfold decimal_char, numeric.
  destruct (is_digit c), (Ascii.eqb c "-"), (Ascii.eqb c "."); auto.
Qed.

Lemma fixed_decimal_chars (s : bool) (d : ascii) (ip fp : string) :
  all_chars is_digit (String d ip) = true ->
  all_chars is_digit fp = true ->
  all_chars decimal_char
    ((if s then "-" else "") ++ String d ip ++ "." ++ fp) = true.
Proof.
  intros Hi Hf.
  assert (I : forall c, is_digit c = true -> decimal_char c = true).
  { intros c Hc. unfold decimal_char. rewrite Hc. reflexivity. }
  rewrite !all_chars_app.
  rewrite (all_chars_impl _ _ _ I Hi).
  change ("." ++ fp)%string with (String "." fp). cbn [all_chars].
  rewrite (all_chars_impl _ _ _ I Hf). destruct s; reflexivity.
Qed.

Lemma finite_truthy x s m e : Prim2SF x = S754_finite s m e -> truthy x = true.
Proof.
  unfold truthy, Prim2SF. destruct (is_nan x); [discriminate|].
  destruct (is_zero x); [discriminate|]. reflexivity.
Qed.

Lemma finite_eqb_refl x s m e :
  Prim2SF x = S754_finite s m e -> (x =? x)%float = true.
Proof.
  intros H. rewrite FloatAxioms.eqb_spec, H. unfold SFeqb. cbn [SFcompare].
  destruct s; rewrite Z.compare_refl, Pos.compare_cont_refl; reflexivity.
Qed.

Lemma D_le p k : 0 <= k -> Zpos p < 2 ^ k -> D p <= k.
Proof.
  intros Hk H. pose proof (D_bounds p) as [H1 _]. pose proof (D_pos p).
  destruct (Z_lt_le_dec k (D p)); [|lia].
  assert (2 ^ k <= 2 ^ (D p - 1)) by (apply Z.pow_le_mono_r; lia). lia.
Qed.

(** The float of an integer below [2^53]: 53 digits that stand for it. *)
Lemma of_Z_finite s p :
  Zpos p < 2 ^ 53 ->
  exists m,
    Prim2SF (of_Z (signed s p)) = S754_finite s m (D p - 53)
    /\ D m = 53 /\ (magZ (Zpos m) (D p - 53) == inject_Z (Zpos p))%Q.
Proof.
  intros H. pose proof (D_le_53 p H) as Hd. pose proof (D_pos p) as Hp.
  exists (Z.to_pos (Zpos p * 2 ^ (53 - D p))).
  split; [exact (Prim2SF_of_Z s p H)|]. split.
  - rewrite D_scaled by lia. lia.
  - rewrite scaled_pos by lia. rewrite magZ_scale by lia.
    replace (D p - 53 + (53 - D p)) with 0 by lia.
    unfold magZ. change (pow2 0) with 1%Q. ring.
Qed.

Lemma Prim2SF_100 :
  Prim2SF 100 = S754_finite false 7036874417766400 (-46).
Proof. vm_compute. reflexivity. Qed.

Lemma Prim2SF_hundredth :
  Prim2SF (1 / 100) = S754_finite false 5764607523034235 (-59).
Proof. vm_compute. reflexivity. Qed.

Lemma magZ_100 : (magZ 7036874417766400 (-46) == 100)%Q.
Proof. vm_compute. reflexivity. Qed.

Lemma magZ_hundredth :
  (magZ 5764607523034235 (-59)
   == 5764607523034235 # 576460752303423488)%Q.
Proof. vm_compute. reflexivity. Qed.

Lemma inject_bounds (p : positive) (k : Z) :
  Zpos p < k -> (1 <= inject_Z (Zpos p))%Q /\ (inject_Z (Zpos p) <= inject_Z (k - 1))%Q.
Proof.
  intros H. split.
  - change 1%Q with (inject_Z 1). rewrite <- Zle_Qle. lia.
  - rewrite <- Zle_Qle. lia.
Qed.

(** The canonical string of a small amount: the digits of the amount with
    a point before the last two. *)
Lemma toString_small (s : bool) (p : positive) :
  Zpos p < 2 ^ 49 ->
  toString (holding (of_Z (signed s p)))
  = Ok ((if s then "-" else "") ++ fixed_point (Npos p) 2)%string
  /\ exists m e,
       Prim2SF (of_Z (signed s p) / 100) = S754_finite s m e.
Proof.
  intros Hp.
  assert (Hp53 : Zpos p < 2 ^ 53)
    by (apply Z.lt_trans with (2 ^ 49); [exact Hp|reflexivity]).
  pose proof (D_le p 49 ltac:(lia) Hp) as Dp. pose proof (D_pos p) as Dp1.
  destruct (inject_bounds p (2 ^ 49) Hp) as [P1 P2].
  change (inject_Z (2 ^ 49 - 1)) with (562949953421311 # 1)%Q in P2.
  set (P := inject_Z (Zpos p)) in *.
  destruct (of_Z_finite s p Hp53) as [m0 [X0 [D0 V0]]].
  set (x0 := of_Z (signed s p)) in *.
  (* x0 / 100 *)
  destruct (div_rel x0 100 s m0 (D p - 53) false 7036874417766400 (-46)
              (P * (1 # 100))%Q X0 Prim2SF_100 D0 eq_refl ltac:(lia))
    as [m1 [e1 [X1 [D1 [E1 [L1 U1]]]]]].
  { rewrite magZ_100, V0. fold P. lra. }
  rewrite xorb_false_r in X1.
  set (V1 := magZ (Zpos m1) e1) in *.
  (* (x0 / 100) / (1 / 100) *)
  destruct (div_rel (x0 / 100) (1 / 100) s m1 e1 false 5764607523034235 (-59)
              (V1 * (576460752303423488 # 5764607523034235))%Q
              X1 Prim2SF_hundredth D1 eq_refl ltac:(lia))
    as [m2 [e2 [X2 [D2 [E2 [L2 U2]]]]]].
  { rewrite magZ_hundredth. fold V1. lra. }
  rewrite xorb_false_r in X2.
  set (V2 := magZ (Zpos m2) e2) in *.
  unfold ulp_rel in *.
  change (1 # 2 ^ 52)%Q with (1 # 4503599627370496)%Q in *.
  (* Math.round gives the amount back *)
  assert (R : Math_round (x0 / 100 / (1 / 100)) = x0).
  { rewrite (Math_round_near _ s m2 e2 (Zpos p) X2 D2).
    - destruct s; reflexivity.
    - split; [lia|]. apply Z.lt_trans with (2 ^ 49); [exact Hp|reflexivity].
    - fold P V2. lra.
    - fold P V2. lra. }
  (* x0 * (1 / 100) *)
  destruct (mul_rel x0 (1 / 100) s m0 (D p - 53) false 5764607523034235 (-59)
              (P * (5764607523034235 # 576460752303423488))%Q
              X0 Prim2SF_hundredth D0 eq_refl ltac:(lia))
    as [m4 [e4 [X4 [D4 [E4 [L4 U4]]]]]].
  { rewrite magZ_hundredth, V0. fold P. reflexivity. }
  rewrite xorb_false_r in X4.
  unfold ulp_rel in *.
  change (1 # 2 ^ 52)%Q with (1 # 4503599627370496)%Q in *.
  set (V4 := magZ (Zpos m4) e4) in *.
  assert (He4 : e4 < 0).
  { apply (small_negative_exponent m4 e4 D4). fold V4.
    change (inject_Z (2 ^ 52)) with (4503599627370496 # 1)%Q. lra. }
  destruct (toFixed_finite (x0 * (1 / 100)) s m4 e4 2 X4 He4 ltac:(lia))
    as [n [TF [Hn [Ln Un]]]].
  assert (S4 : (magZ (2 * (Zpos m4 * 10 ^ 2)) e4 == 200 * V4)%Q).
  { unfold V4, magZ. rewrite !inject_Z_mult.
    change (inject_Z 2) with 2%Q. change (inject_Z (10 ^ 2)) with 100%Q.
    ring. }
  rewrite S4 in Ln, Un.
  assert (En : n = Zpos p).
  { replace (2 * n - 1) with (2 * n + - 1) in Ln by lia.
    rewrite inject_Z_plus, inject_Z_mult in Ln, Un.
    change (inject_Z 2) with 2%Q in Ln, Un.
    change (inject_Z (-1)) with (- (1))%Q in Ln.
    change (inject_Z 1) with 1%Q in Un.
    assert (A : (inject_Z n < P + inject_Z 1)%Q)
      by (change (inject_Z 1) with 1%Q; lra).
    assert (B : (P < inject_Z n + inject_Z 1)%Q)
      by (change (inject_Z 1) with 1%Q; lra).
    unfold P in A, B. rewrite <- inject_Z_plus, <- Zlt_Qlt in A, B. lia. }
  split.
  - assert (TS : toString (holding x0)
                 = toFixed (Math_round (x0 / 100 / (1 / 100)) * (1 / 100)) 2)
      by reflexivity.
    rewrite TS, R, TF, En. reflexivity.
  - exists m1, e1. exact X1.
Qed.

(** A string of digits, minus signs and points goes through the cleanup of
    [parse] as it is. *)
Lemma parse_decimal_string (str : string) :
  all_chars decimal_char str = true ->
  parse (VStr str) defaults true
  = (v <- fixed4 (or_else (Number str * 100) zero) ;; Ok (round v)).
Proof.
  intros H. unfold parse. change (decimal defaults) with "."%char.
  rewrite (clean_decimal str H). reflexivity.
Qed.

(** [Number] of what [toFixed] printed, for a positive number: the float
    nearest to the number printed. *)
Lemma Number_fixed_point (s : bool) (q : positive) (f : nat) :
  (0 < f <= 100)%nat -> D q <= 300 ->
  all_chars decimal_char
    ((if s then "-" else "") ++ fixed_point (Npos q) f) = true
  /\ Number ((if s then "-" else "") ++ fixed_point (Npos q) f)
     = of_ratio s q (Z.to_pos (10 ^ Z.of_nat f)).
Proof.
  intros Hf Hq.
  destruct (fixed_point_split (Npos q) f ltac:(lia))
    as [d [ip [fp [E [Di [Df [Lf V]]]]]]].
  rewrite E. split; [apply fixed_decimal_chars; assumption|].
  rewrite (Number_fixed s d ip fp Di Df), V, Lf.
  apply of_decimal_ratio; lia.
Qed.

(** Reading the canonical string of a small amount gives the amount. *)
Lemma parse_small (s : bool) (p : positive) :
  Zpos p < 2 ^ 49 ->
  parse (VStr ((if s then "-" else "") ++ fixed_point (Npos p) 2))
    defaults true
  = Ok (of_Z (signed s p)).
Proof.
  intros Hp.
  pose proof (D_le p 49 ltac:(lia) Hp) as Dp. pose proof (D_pos p) as Dp1.
  destruct (inject_bounds p (2 ^ 49) Hp) as [P1 P2].
  change (inject_Z (2 ^ 49 - 1)) with (562949953421311 # 1)%Q in P2.
  set (P := inject_Z (Zpos p)) in *.
  destruct (Number_fixed_point s p 2 ltac:(lia) ltac:(lia)) as [Ch Nu].
  rewrite (parse_decimal_string _ Ch), Nu.
  change (Z.to_pos (10 ^ Z.of_nat 2)) with 100%positive.
  (* the float nearest to p / 100 *)
  destruct (ratio_rel s p 100 (P * (1 # 100))%Q)
    as [m1 [e1 [X1 [D1 [E1 [L1 U1]]]]]].
  { change (D 100) with 7. lia. }
  { change (D 100) with 7. lia. }
  { change (inject_Z 100) with 100%Q. fold P. lra. }
  change (D 100) with 7 in E1.
  set (y1 := of_ratio s p 100) in *.
  set (V1 := magZ (Zpos m1) e1) in *.
  (* times 100 *)
  destruct (mul_rel y1 100 s m1 e1 false 7036874417766400 (-46)
              (V1 * 100)%Q X1 Prim2SF_100 D1 eq_refl ltac:(lia))
    as [m2 [e2 [X2 [D2 [E2 [L2 U2]]]]]].
  { rewrite magZ_100. reflexivity. }
  rewrite xorb_false_r in X2.
  set (V2 := magZ (Zpos m2) e2) in *.
  unfold ulp_rel in *.
  change (1 # 2 ^ 52)%Q with (1 # 4503599627370496)%Q in *.
  unfold or_else. rewrite (finite_truthy _ _ _ _ X2).
  (* four digits after the point, and back *)
  assert (He2 : e2 < 0).
  { apply (small_negative_exponent m2 e2 D2). fold V2.
    change (inject_Z (2 ^ 52)) with (4503599627370496 # 1)%Q. lra. }
  destruct (toFixed_finite (y1 * 100) s m2 e2 4 X2 He2 ltac:(lia))
    as [n [TF [Hn [Ln Un]]]].
  assert (S2 : (magZ (2 * (Zpos m2 * 10 ^ 4)) e2 == 20000 * V2)%Q).
  { unfold V2, magZ. rewrite !inject_Z_mult.
    change (inject_Z 2) with 2%Q. change (inject_Z (10 ^ 4)) with 10000%Q.
    ring. }
  rewrite S2 in Ln, Un.
  replace (2 * n - 1) with (2 * n + - 1) in Ln by lia.
  rewrite inject_Z_plus, inject_Z_mult in Ln, Un.
  change (inject_Z 2) with 2%Q in Ln, Un.
  change (inject_Z (-1)) with (- (1))%Q in Ln.
  change (inject_Z 1) with 1%Q in Un.
  assert (Bn : 1 <= n < 2 ^ 63).
  { assert (A : (inject_Z 0 < inject_Z n)%Q)
      by (change (inject_Z 0) with 0%Q; lra).
    assert (B : (inject_Z n < inject_Z (2 ^ 63))%Q)
      by (change (inject_Z (2 ^ 63)) with (9223372036854775808 # 1)%Q; lra).
    rewrite <- Zlt_Qlt in A, B. lia. }
  destruct n as [|q|q]; try lia.
  set (Nq := inject_Z (Zpos q)) in *.
  pose proof (D_le q 63 ltac:(lia) (proj2 Bn)) as Dq.
  pose proof (D_pos q) as Dq1.
  destruct (Number_fixed_point s q 4 ltac:(lia) ltac:(lia)) as [_ Nu4].
  unfold fixed4. rewrite TF. cbn [Z.to_N Z.to_nat Pos.to_nat Pos.iter_op Nat.add].
  change (Pos.to_nat 4) with 4%nat. rewrite Nu4.
  change (Z.to_pos (10 ^ Z.of_nat 4)) with 10000%positive.
  destruct (ratio_rel s q 10000 (Nq * (1 # 10000))%Q)
    as [m3 [e3 [X3 [D3 [E3 [L3 U3]]]]]].
  { change (D 10000) with 14. lia. }
  { change (D 10000) with 14. lia. }
  { change (inject_Z 10000) with 10000%Q. fold Nq. lra. }
  unfold ulp_rel in *.
  change (1 # 2 ^ 52)%Q with (1 # 4503599627370496)%Q in *.
  set (V3 := magZ (Zpos m3) e3) in *.
  unfold round.
  rewrite (Math_round_near _ s m3 e3 (Zpos p) X3 D3).
  - destruct s; reflexivity.
  - split; [lia|]. apply Z.lt_trans with (2 ^ 49); [exact Hp|reflexivity].
  - fold P V3. lra.
  - fold P V3. lra.
Qed.

(** The round trip of an instance that holds a small integer. *)
Lemma round_trips_small (n : Z) :
  Z.abs n < round_trip_bound -> round_trips (holding (of_Z n)) = true.
Proof.
  unfold round_trip_bound. intros H.
  assert (G : forall s p, Zpos p < 2 ^ 49 ->
              round_trips (holding (of_Z (signed s p))) = true).
  { intros s p Hp. destruct (toString_small s p Hp) as [TS [m [e X]]].
    unfold round_trips. rewrite TS, Money_holding, (parse_small s p Hp).
    cbn [value holding]. exact (finite_eqb_refl _ _ _ _ X). }
  destruct n as [|p|p].
  - vm_compute. reflexivity.
  - exact (G false p H).
  - exact (G true p H).
Qed.

(** C7, as stated, fails: [Money(Infinity)] has the value [Infinity], its
    canonical string is ["Infinity"], and [Money("Infinity")] is 0, since the
    cleanup of a string drops the letters.  A finite input does the same from
    [1e23] on, where the canonical string is in exponent notation:
    [Money(1e23).toString()] is ["1e+21"], which is read back as 121.  A
    large amount in plain digits can fail too, by the rounding of the float
    operations of [toString]: an instance that holds 3600000000000002
    hundredths prints ["36000000000000.03"], which is read back as
    3600000000000003 hundredths. *)
Lemma round_trip_counterexample :
  (c <- Money (VNum infinity) ;; s <- toString c ;; c' <- Money (VStr s) ;;
   Ok (s, value c, value c', (value c' =? value c)%float))
  = Ok ("Infinity", infinity, zero, false)
  /\ (c <- Money (VNum (lit "1e23")) ;; s <- toString c ;;
      c' <- Money (VStr s) ;; Ok (s, value c', (value c' =? value c)%float))
     = Ok ("1e+21", 121%float, false)
  /\ (c <- Money (VNum 3600000000000002) ;; s <- toString c ;;
      c' <- Money (VStr s) ;;
      Ok (intValue c, s, intValue c', (value c' =? value c)%float))
     = Ok (3600000000000002%float, "36000000000000.03",
           3600000000000003%float, false).
Proof.
  split; [|split]; vm_compute; reflexivity.
Qed.

(** C7, amended.  With default settings the round trip holds on every
    amount below [2^49] hundredths in magnitude: whenever [Money(x)] holds
    an integer number [n] of hundredths with [|n| < round_trip_bound], the
    canonical string of [Money(x)] is read back to an instance of the same
    value. *)
Theorem round_trip_on_small_amounts (x : Value) (c : Currency) (n : Z) :
  Money x = Ok c ->
  Z.abs n < round_trip_bound ->
  (intValue c =? of_Z n)%float = true ->
  exists s c',
    toString c = Ok s /\ Money (VStr s) = Ok c'
    /\ (value c' =? value c)%float = true.
Proof.
  intros Hc Hn Hi. rewrite Money_holding in Hc.
  destruct (parse x defaults true) as [v|e]; [|discriminate].
  injection Hc as <-. cbn [intValue holding] in Hi.
  assert (R : round_trips (holding v) = true).
  { destruct (eqb_cases _ _ Hi) as [->|[[->| ->] _]].
    - exact (round_trips_small n Hn).
    - vm_compute. reflexivity.
    - vm_compute. reflexivity. }
  unfold round_trips in R.
  destruct (toString (holding v)) as [s|]; [|discriminate].
  destruct (Money (VStr s)) as [c'|] eqn:Hm; [|discriminate].
  exists s, c'. auto.
Qed.

(** [Money("12.34")] holds 1234 hundredths. *)
Lemma round_trip_on_small_amounts_witness :
  exists s c',
    toString (holding 1234) = Ok s /\ Money (VStr s) = Ok c'
    /\ (value c' =? value (holding 1234))%float = true.
Proof.
  apply (round_trip_on_small_amounts (VStr "12.34") (holding 1234) 1234).
  - vm_compute. reflexivity.
  - reflexivity.
  - vm_compute. reflexivity.
Defined.

(* ================================================================= *)
(** ** More properties of the currency type *)

Import Units.

Lemma ToInt32_wrap x : exists z, ToInt32 x = wrap32 z.
Proof.
  unfold ToInt32. destruct (Prim2SF x) as [s|s| |s m e];
    try (exists 0; reflexivity).
  eexists. reflexivity.
Qed.

Lemma wrap32_int32 z : int32 (wrap32 z).
Proof.
  unfold int32, wrap32. cbv zeta.
  pose proof (Z.mod_pos_bound z (2 ^ 32) eq_refl) as B.
  destruct (2 ^ 31 <=? z mod 2 ^ 32) eqn:E;
    [apply Z.leb_le in E|apply Z.leb_gt in E]; lia.
Qed.

Lemma wrap32_id z : int32 z -> wrap32 z = z.
Proof.
  unfold int32, wrap32. cbv zeta. intros H.
  destruct (Z_lt_le_dec z 0) as [L|L].
  - replace (z mod 2 ^ 32) with (z + 2 ^ 32)
      by (apply (Z.mod_unique _ _ (-1)); lia).
    destruct (2 ^ 31 <=? z + 2 ^ 32) eqn:E;
      [apply Z.leb_le in E|apply Z.leb_gt in E]; lia.
  - rewrite Z.mod_small by lia.
    destruct (2 ^ 31 <=? z) eqn:E;
      [apply Z.leb_le in E|apply Z.leb_gt in E]; lia.
Qed.

(** [ToInt32] of the float of an integer below [2^53]. *)
Lemma ToInt32_of_Z z : Z.abs z < 2 ^ 53 -> ToInt32 (of_Z z) = wrap32 z.
Proof.
  intros Hz. destruct z as [|p|p].
  - reflexivity.
  - pose proof (Prim2SF_of_Z false p Hz) as E. cbn [signed] in E.
    pose proof (D_le_53 p Hz) as Hd.
    unfold ToInt32. rewrite E. unfold canon.
    rewrite scaled_pos by lia.
    assert (M : (if 0 <=? D p - 53 then Zpos p * 2 ^ (53 - D p) * 2 ^ (D p - 53)
                 else Zpos p * 2 ^ (53 - D p) / 2 ^ (- (D p - 53))) = Zpos p).
    { destruct (0 <=? D p - 53) eqn:L.
      - apply Z.leb_le in L. replace (D p) with 53 by lia. cbn. lia.
      - replace (- (D p - 53)) with (53 - D p) by lia.
        apply Z.div_mul. apply Z.pow_nonzero; lia. }
    rewrite M. reflexivity.
  - pose proof (Prim2SF_of_Z true p Hz) as E. cbn [signed] in E.
    pose proof (D_le_53 p Hz) as Hd.
    unfold ToInt32. rewrite E. unfold canon.
    rewrite scaled_pos by lia.
    assert (M : (if 0 <=? D p - 53 then Zpos p * 2 ^ (53 - D p) * 2 ^ (D p - 53)
                 else Zpos p * 2 ^ (53 - D p) / 2 ^ (- (D p - 53))) = Zpos p).
    { destruct (0 <=? D p - 53) eqn:L.
      - apply Z.leb_le in L. replace (D p) with 53 by lia. cbn. lia.
      - replace (- (D p - 53)) with (53 - D p) by lia.
        apply Z.div_mul. apply Z.pow_nonzero; lia. }
    rewrite M. reflexivity.
Qed.

(** [~~x] is [ToInt32 x] as a number. *)
Lemma bitwise_not_twice x :
  bitwise_not (bitwise_not x) = of_Z (ToInt32 x).
Proof.
  unfold bitwise_not at 1. unfold bitwise_not.
  destruct (ToInt32_wrap x) as [z ->].
  pose proof (wrap32_int32 z) as B. unfold int32 in B.
  rewrite ToInt32_of_Z by (change (2 ^ 53) with 9007199254740992;
                           change (2 ^ 31) with 2147483648 in B; lia).
  rewrite wrap32_id by (unfold int32; lia).
  f_equal. lia.
Qed.

(** The two mantissas of [canon] on a common exponent. *)
Lemma canon_aligned p e : D p <= 53 -> e <= D p - 53 ->
  Zpos (Z.to_pos (Zpos p * 2 ^ (53 - D p))) * 2 ^ (D p - 53 - e)
  = Zpos p * 2 ^ (- e).
Proof.
  intros Hd He. rewrite scaled_pos by lia. rewrite <- Z.mul_assoc.
  rewrite <- Z.pow_add_r by lia. f_equal. f_equal. lia.
Qed.

(** The remainder of two integers below [2^53], computed on floats. *)
Lemma remainder_of_Z s p q :
  Zpos p < 2 ^ 53 -> Zpos q < 2 ^ 53 ->
  remainder (of_Z (signed s p)) (of_Z (Zpos q))
  = if Zpos p mod Zpos q =? 0 then (if s then neg_zero else zero)
    else of_Z (Z.rem (signed s p) (Zpos q)).
Proof.
  intros Hp Hq.
  pose proof (D_le_53 p Hp) as Dp. pose proof (D_le_53 q Hq) as Dq.
  pose proof (Prim2SF_of_Z false q Hq) as Eq. cbn [signed] in Eq.
  unfold remainder. rewrite (Prim2SF_of_Z s p Hp), Eq. unfold canon.
  cbv iota beta.
  set (e := Z.min (D p - 53) (D q - 53)).
  assert (He : e <= D p - 53 /\ e <= D q - 53 /\ 0 <= - e) by (unfold e; lia).
  rewrite (canon_aligned p e), (canon_aligned q e) by lia.
  assert (K : 0 < 2 ^ (- e)) by (apply Z.pow_pos_nonneg; lia).
  rewrite Zmult_mod_distr_r.
  assert (R : 0 <= Zpos p mod Zpos q < Zpos q) by (apply Z.mod_pos_bound; lia).
  destruct (Zpos p mod Zpos q =? 0) eqn:Z0.
  - apply Z.eqb_eq in Z0. rewrite Z0. reflexivity.
  - apply Z.eqb_neq in Z0.
    replace (Zpos p mod Zpos q * 2 ^ (- e) =? 0) with false
      by (symmetry; apply Z.eqb_neq; nia).
    assert (Rm : Z.rem (signed s p) (Zpos q)
                 = if s then - (Zpos p mod Zpos q) else Zpos p mod Zpos q).
    { destruct s; cbn [signed].
      - change (Z.neg p) with (- Zpos p). rewrite Z.rem_opp_l by lia.
        rewrite Z.rem_mod_nonneg by lia. reflexivity.
      - apply Z.rem_mod_nonneg; lia. }
    rewrite Rm. unfold of_Z. f_equal.
    assert (NS : forall z, Z.abs z < 2 ^ 53 ->
              binary_normalize prec emax (z * 2 ^ (- e)) e false
              = binary_normalize prec emax z 0 false).
    { intros z Hz. pose proof (normalize_scaled z (- e) Hz) as NS.
      rewrite Z.opp_involutive in NS. apply NS. lia. }
    destruct s.
    + rewrite <- Z.mul_opp_l. apply NS. lia.
    + apply NS. lia.
Qed.

Lemma of_Z_zero_inv n : Z.abs n < 2 ^ 53 ->
  of_Z n = zero \/ of_Z n = neg_zero -> n = 0.
Proof.
  intros Hn H. destruct n as [|p|p]; [reflexivity| |]; exfalso.
  - pose proof (Prim2SF_of_Z false p Hn) as E. cbn [signed] in E.
    destruct H as [H|H]; rewrite H in E; discriminate E.
  - pose proof (Prim2SF_of_Z true p Hn) as E. cbn [signed] in E.
    destruct H as [H|H]; rewrite H in E; discriminate E.
Qed.

Lemma remainder_zero_l x q : Zpos q < 2 ^ 53 ->
  x = zero \/ x = neg_zero -> remainder x (of_Z (Zpos q)) = x.
Proof.
  intros Hq H. pose proof (Prim2SF_of_Z false q Hq) as Eq. cbn [signed] in Eq.
  unfold remainder. rewrite Eq. destruct H as [-> | ->]; reflexivity.
Qed.

(** [~~(x % d)] for a float [x] that is equal to an integer [n]. *)
Lemma cents_of_Z x n d :
  (x =? of_Z n)%float = true -> Z.abs n < 2 ^ 53 -> 0 < d < 2 ^ 53 ->
  bitwise_not (bitwise_not (remainder x (of_Z d))) = of_Z (wrap32 (Z.rem n d)).
Proof.
  intros E Hn Hd. rewrite bitwise_not_twice.
  destruct d as [|q|q]; try lia.
  destruct (eqb_cases _ _ E) as [->|[Zx Zn]].
  - destruct n as [|p|p].
    + replace (of_Z 0) with zero by reflexivity.
      rewrite (remainder_zero_l zero q) by (lia || (left; reflexivity)).
      reflexivity.
    + change (Zpos p) with (signed false p) at 1.
      rewrite remainder_of_Z by lia. cbn [signed].
      rewrite Z.rem_mod_nonneg by lia.
      destruct (Zpos p mod Zpos q =? 0) eqn:Z0.
      * apply Z.eqb_eq in Z0. rewrite Z0. reflexivity.
      * pose proof (Z.mod_pos_bound (Zpos p) (Zpos q) eq_refl).
        rewrite ToInt32_of_Z by lia. reflexivity.
    + change (Zneg p) with (signed true p) at 1.
      rewrite remainder_of_Z by lia. cbn [signed].
      change (Z.neg p) with (- Zpos p). rewrite Z.rem_opp_l by lia.
      rewrite Z.rem_mod_nonneg by lia.
      destruct (Zpos p mod Zpos q =? 0) eqn:Z0.
      * apply Z.eqb_eq in Z0. rewrite Z0. reflexivity.
      * pose proof (Z.mod_pos_bound (Zpos p) (Zpos q) eq_refl).
        rewrite ToInt32_of_Z by lia. reflexivity.
  - rewrite (of_Z_zero_inv n Hn Zn). rewrite (remainder_zero_l x q) by
      (exact Zx || lia).
    destruct Zx as [-> | ->]; reflexivity.
Qed.

(** [cents()] is the remainder of the amount by [10^precision], with the
    sign of the amount: for an instance that holds the integer [n], below
    [2^53] in magnitude, and a precision up to 15, it is the remainder of
    the division of [n] by [10^precision] cut towards zero, read as a
    signed 32-bit integer, which changes nothing up to a precision of 9. *)
Theorem cents_is_the_remainder (c : Currency) (n : Z) (p : N) :
  (intValue c =? of_Z n)%float = true -> _precision c = pow p ->
  Z.abs n < 2 ^ 53 -> (p <= 15)%N ->
  cents c = of_Z (wrap32 (Z.rem n (10 ^ Z.of_N p)))
  /\ ((p <= 9)%N -> cents c = of_Z (Z.rem n (10 ^ Z.of_N p))).
Proof.
  intros E Ep Hn Hp.
  assert (B : 0 < 10 ^ Z.of_N p <= 10 ^ 15).
  { split; [apply Z.pow_pos_nonneg; lia|apply Z.pow_le_mono_r; lia]. }
  assert (C : cents c = of_Z (wrap32 (Z.rem n (10 ^ Z.of_N p)))).
  { unfold cents. rewrite Ep. unfold pow, pow10.
    apply cents_of_Z; [exact E|exact Hn|].
    change (2 ^ 53) with 9007199254740992.
    change (10 ^ 15) with 1000000000000000 in B. lia. }
  split; [exact C|]. intros H9. rewrite C. f_equal. apply wrap32_id.
  assert (B9 : 10 ^ Z.of_N p <= 10 ^ 9) by (apply Z.pow_le_mono_r; lia).
  pose proof (Z.rem_bound_abs n (10 ^ Z.of_N p)) as R.
  unfold int32. change (10 ^ 9) with 1000000000 in B9.
  change (2 ^ 31) with 2147483648. lia.
Qed.

Lemma cents_is_the_remainder_witness :
  cents (holding (of_Z (-199))) = of_Z (wrap32 (Z.rem (-199) (10 ^ Z.of_N 2)))
  /\ ((2 <= 9)%N
      -> cents (holding (of_Z (-199))) = of_Z (Z.rem (-199) (10 ^ Z.of_N 2))).
Proof.
  apply (cents_is_the_remainder (holding (of_Z (-199))) (-199) 2).
  - vm_compute. reflexivity.
  - vm_compute. reflexivity.
  - vm_compute. reflexivity.
  - vm_compute. discriminate.
Defined.

(** A rounding of a mantissa of 53 or 54 digits: the result is finite, its
    mantissa is the one cut to 53 digits or the next, and a last digit is
    cut when the next has 54 digits. *)
Lemma binary_round_aux_53_54 s m e l :
  2 ^ 52 <= Zpos m < 2 ^ 54 -> -1074 <= e <= 0 ->
  exists a b M m3,
    binary_round_aux prec emax s (Zpos m) e l = S754_finite s m3 (e + a + b)
    /\ 0 <= a <= 1 /\ 0 <= b <= 1
    /\ Zpos m / 2 ^ a <= M <= Zpos m / 2 ^ a + 1
    /\ Zpos m3 = M / 2 ^ b.
Proof.
  intros B He. unfold binary_round_aux.
  destruct (shr_fexp prec emax (Zpos m) e l) as [r1 e1] eqn:H1.
  destruct (shr_fexp_53_54 m e l r1 e1 B (proj1 He) H1)
    as [a [Ha [-> [Hr1 Br1]]]].
  pose proof (round_nearest_even_ge (shr_m r1) (loc_of_shr_record r1)) as G1.
  pose proof (round_nearest_even_le (shr_m r1) (loc_of_shr_record r1)) as G2.
  destruct (round_nearest_even (shr_m r1) (loc_of_shr_record r1))
    as [|M|M] eqn:HM; try lia.
  assert (BM : 2 ^ 52 <= Zpos M < 2 ^ 54).
  { change (2 ^ 54) with (2 * 2 ^ 53). lia. }
  destruct (shr_fexp prec emax (Zpos M) (e + a) loc_Exact) as [r2 e2] eqn:H2.
  destruct (shr_fexp_53_54 M (e + a) loc_Exact r2 e2 BM ltac:(lia) H2)
    as [b [Hb [-> [Hr2 Br2]]]].
  destruct (shr_m r2) as [|m3|m3] eqn:H3; try lia.
  replace (e + a + b <=? emax - prec) with true
    by (symmetry; apply Z.leb_le; unfold emax, prec; lia).
  exists a, b, (Zpos M), m3. rewrite <- Hr1.
  repeat split; lia.
Qed.

(** The division of two canonical mantissas: the quotient carries 53 or 54
    digits. *)
Lemma div_core_canon p q :
  D p <= 53 -> D q <= 53 ->
  exists Q l,
    SFdiv_core_binary prec emax
      (Zpos (Z.to_pos (Zpos p * 2 ^ (53 - D p)))) (D p - 53)
      (Zpos (Z.to_pos (Zpos q * 2 ^ (53 - D q)))) (D q - 53)
    = (Zpos Q, D p - D q - 53, l)
    /\ Zpos Q = Zpos p * 2 ^ (53 + D q - D p) / Zpos q
    /\ 2 ^ 52 <= Zpos Q < 2 ^ 54.
Proof.
  intros Hp Hq. pose proof (D_pos p) as Pp. pose proof (D_pos q) as Pq.
  pose proof (D_bounds p) as [Bp1 Bp2]. pose proof (D_bounds q) as [Bq1 Bq2].
  unfold SFdiv_core_binary. cbn [Zdigits2].
  fold (D (Z.to_pos (Z.pos p * 2 ^ (53 - D p)))).
  fold (D (Z.to_pos (Z.pos q * 2 ^ (53 - D q)))).
  rewrite !D_scaled by lia. rewrite !scaled_pos by lia.
  replace (D p + (53 - D p) + (D p - 53) - (D q + (53 - D q) + (D q - 53)))
    with (D p - D q) by lia.
  assert (F : fexp prec emax (D p - D q) = Z.max (D p - D q - 53) (-1074))
    by reflexivity.
  rewrite F.
  replace (Z.min (Z.max (D p - D q - 53) (-1074)) (D p - 53 - (D q - 53)))
    with (D p - D q - 53) by lia.
  replace (D p - 53 - (D q - 53) - (D p - D q - 53)) with 53 by lia.
  cbv iota. rewrite Z.shiftl_mul_pow2 by lia.
  set (N := Z.pos p * 2 ^ (53 - D p) * 2 ^ 53).
  set (Dn := Z.pos q * 2 ^ (53 - D q)).
  assert (K : 0 < 2 ^ (53 - D q)) by (apply Z.pow_pos_nonneg; lia).
  assert (EN : N = Zpos p * 2 ^ (53 + D q - D p) * 2 ^ (53 - D q)).
  { unfold N. rewrite <- !Z.mul_assoc, <- !Z.pow_add_r by lia.
    f_equal. f_equal. lia. }
  assert (EQ : N / Dn = Zpos p * 2 ^ (53 + D q - D p) / Zpos q).
  { rewrite EN. unfold Dn. apply Z.div_mul_cancel_r; lia. }
  assert (G : 0 < 2 ^ (53 + D q - D p)) by (apply Z.pow_pos_nonneg; lia).
  assert (BQ : 2 ^ 52 <= N / Dn < 2 ^ 54).
  { rewrite EQ. split.
    - apply Z.div_le_lower_bound; [lia|].
      apply Z.le_trans with (2 ^ D q * 2 ^ 52); [nia|].
      apply Z.le_trans with (2 ^ (D p - 1) * 2 ^ (53 + D q - D p)); [|nia].
      rewrite <- !Z.pow_add_r by lia. apply Z.pow_le_mono_r; lia.
    - apply Z.div_lt_upper_bound; [lia|].
      apply Z.lt_le_trans with (2 ^ D p * 2 ^ (53 + D q - D p)); [nia|].
      apply Z.le_trans with (2 ^ (D q - 1) * 2 ^ 54); [|nia].
      rewrite <- !Z.pow_add_r by lia. apply Z.pow_le_mono_r; lia. }
  pose proof (Z_div_mod N Dn ltac:(unfold Dn; lia)) as DM.
  unfold Z.div in EQ, BQ. destruct (Z.div_eucl N Dn) as [Q R].
  cbn [fst] in EQ, BQ.
  destruct Q as [|Q|Q]; try (change (2 ^ 52) with 4503599627370496 in BQ; lia).
  exists Q, (new_location Dn R).
  split; [reflexivity|]. split; [exact EQ|exact BQ].
Qed.

(** The integer part of a quotient that was rounded on a grid finer than
    the divisor: [M] is the quotient [p * g / q] cut to an integer, or the
    next integer. *)
Lemma cut_of_rounded p q g M :
  0 <= p -> 0 < q < g ->
  p * g / q <= M <= p * g / q + 1 ->
  M / g = p / q.
Proof.
  intros Hp Hq HM.
  pose proof (Z.div_mod p q ltac:(lia)) as E.
  pose proof (Z.mod_pos_bound p q ltac:(lia)) as R.
  set (k := p / q) in *.
  assert (L : k * g <= p * g / q).
  { apply Z.div_le_lower_bound; [lia|]. nia. }
  assert (U : p * g / q < (k + 1) * g - 1).
  { apply Z.div_lt_upper_bound; [lia|]. nia. }
  symmetry. apply (Z.div_unique M g k (M - k * g)); [left|]; nia.
Qed.

(** The quotient of two integers, computed on floats and cut to an
    integer, is the quotient of the integers cut towards zero. *)
Lemma ToInt32_div s p q :
  Zpos p < 2 ^ 52 -> Zpos q < 2 ^ 53 ->
  ToInt32 (of_Z (signed s p) / of_Z (Zpos q))
  = wrap32 (Z.quot (signed s p) (Zpos q)).
Proof.
  intros Hp Hq.
  assert (Hp' : Zpos p < 2 ^ 53)
    by (change (2 ^ 53) with (2 * 2 ^ 52); lia).
  pose proof (D_le_53 p Hp') as Dp. pose proof (D_le_53 q Hq) as Dq.
  pose proof (D_pos p) as Pp. pose proof (D_pos q) as Pq.
  assert (Dp52 : D p <= 52).
  { pose proof (D_bounds p) as [B1 _].
    destruct (Z_lt_le_dec 52 (D p)); [|lia].
    assert (2 ^ 52 <= 2 ^ (D p - 1)) by (apply Z.pow_le_mono_r; lia). lia. }
  pose proof (Prim2SF_of_Z false q Hq) as Eq. cbn [signed] in Eq.
  unfold ToInt32. rewrite div_spec. unfold SF64div.
  rewrite (Prim2SF_of_Z s p Hp'), Eq. unfold canon. cbn [SFdiv].
  destruct (div_core_canon p q Dp Dq) as [Q [l [E [EQ BQ]]]].
  rewrite E. cbv iota beta. rewrite xorb_false_r.
  destruct (binary_round_aux_53_54 s Q (D p - D q - 53) l BQ ltac:(lia))
    as [a [b [M [m3 [R [Ha [Hb [HM Hm3]]]]]]]].
  rewrite R.
  set (j := 53 + D q - D p - a).
  assert (Hj : D q <= j) by (unfold j; lia).
  assert (G : Zpos q < 2 ^ j).
  { pose proof (D_bounds q) as [_ B2].
    apply Z.lt_le_trans with (2 ^ D q); [exact B2|].
    apply Z.pow_le_mono_r; lia. }
  assert (A : 0 < 2 ^ a) by (apply Z.pow_pos_nonneg; lia).
  assert (B : 0 < 2 ^ b) by (apply Z.pow_pos_nonneg; lia).
  assert (QA : Zpos Q / 2 ^ a = Zpos p * 2 ^ j / Zpos q).
  { rewrite EQ. rewrite Z.div_div by lia.
    replace (53 + D q - D p) with (j + a) by (unfold j; lia).
    rewrite Z.pow_add_r by lia. rewrite Z.mul_assoc.
    apply Z.div_mul_cancel_r; lia. }
  rewrite QA in HM.
  assert (C : Zpos m3 / 2 ^ (j - b) = Zpos p / Zpos q).
  { rewrite Hm3. rewrite Z.div_div by (try apply Z.pow_pos_nonneg; lia).
    rewrite <- Z.pow_add_r by lia. replace (b + (j - b)) with j by lia.
    apply cut_of_rounded; lia. }
  assert (Mg : (if 0 <=? D p - D q - 53 + a + b
                then Zpos m3 * 2 ^ (D p - D q - 53 + a + b)
                else Zpos m3 / 2 ^ (- (D p - D q - 53 + a + b)))
               = Zpos p / Zpos q).
  { rewrite <- C. destruct (0 <=? D p - D q - 53 + a + b) eqn:L.
    - apply Z.leb_le in L.
      replace (D p - D q - 53 + a + b) with 0 by lia.
      replace (j - b) with 0 by (unfold j; lia).
      rewrite Z.pow_0_r, Z.mul_1_r, Z.div_1_r. reflexivity.
    - f_equal. f_equal. unfold j. lia. }
  rewrite Mg. unfold wrap32. cbv zeta.
  replace (Z.quot (signed s p) (Zpos q))
    with (if s then - (Zpos p / Zpos q) else Zpos p / Zpos q);
    [reflexivity|].
  destruct s; cbn [signed].
  - change (Z.neg p) with (- Zpos p). rewrite Z.quot_opp_l by lia.
    rewrite Z.quot_div_nonneg by lia. reflexivity.
  - rewrite Z.quot_div_nonneg by lia. reflexivity.
Qed.

(** [~~(x / d)] for a float [x] that is equal to an integer [n]. *)
Lemma dollars_of_Z x n d :
  (x =? of_Z n)%float = true -> Z.abs n < 2 ^ 52 -> 0 < d < 2 ^ 53 ->
  bitwise_not (bitwise_not (x / of_Z d)) = of_Z (wrap32 (Z.quot n d)).
Proof.
  intros E Hn Hd. rewrite bitwise_not_twice. f_equal.
  destruct d as [|q|q]; try lia.
  assert (Hn' : Z.abs n < 2 ^ 53)
    by (change (2 ^ 53) with (2 * 2 ^ 52); lia).
  assert (Z0 : forall y, y = zero \/ y = neg_zero ->
               ToInt32 (y / of_Z (Zpos q)) = 0).
  { intros y Hy. unfold ToInt32. rewrite div_spec. unfold SF64div.
    pose proof (Prim2SF_of_Z false q (proj2 Hd)) as Eq. cbn [signed] in Eq.
    rewrite Eq. destruct Hy as [-> | ->]; reflexivity. }
  destruct (eqb_cases _ _ E) as [->|[Zx Zn]].
  - destruct n as [|p|p].
    + apply Z0. left. reflexivity.
    + apply (ToInt32_div false p q); lia.
    + apply (ToInt32_div true p q); lia.
  - rewrite (of_Z_zero_inv n Hn' Zn). apply Z0. exact Zx.
Qed.

(** [dollars()] is the quotient of the amount by [10^precision], cut
    towards zero: for an instance that holds the integer [n], below [2^52]
    in magnitude, and a precision up to 15, it is the quotient of the
    division of [n] by [10^precision], read as a signed 32-bit integer,
    which changes nothing below [2^31] units. *)
Theorem dollars_is_the_quotient (c : Currency) (n : Z) (p : N) :
  value c = (intValue c / _precision c)%float ->
  (intValue c =? of_Z n)%float = true -> _precision c = pow p ->
  Z.abs n < 2 ^ 52 -> (p <= 15)%N ->
  dollars c = of_Z (wrap32 (Z.quot n (10 ^ Z.of_N p)))
  /\ (Z.abs n < 2 ^ 31 * 10 ^ Z.of_N p
      -> dollars c = of_Z (Z.quot n (10 ^ Z.of_N p))).
Proof.
  intros Ev E Ep Hn Hp.
  assert (B : 0 < 10 ^ Z.of_N p <= 10 ^ 15).
  { split; [apply Z.pow_pos_nonneg; lia|apply Z.pow_le_mono_r; lia]. }
  assert (C : dollars c = of_Z (wrap32 (Z.quot n (10 ^ Z.of_N p)))).
  { unfold dollars. rewrite Ev, Ep. unfold pow, pow10.
    apply dollars_of_Z; [exact E|exact Hn|].
    change (2 ^ 53) with 9007199254740992.
    change (10 ^ 15) with 1000000000000000 in B. lia. }
  split; [exact C|]. intros H. rewrite C. f_equal. apply wrap32_id.
  unfold int32. set (d := 10 ^ Z.of_N p) in *.
  assert (Q : Z.abs (Z.quot n d) < 2 ^ 31).
  { rewrite <- Z.quot_abs by lia. rewrite Z.quot_div_nonneg by lia.
    apply Z.div_lt_upper_bound; lia. }
  lia.
Qed.

Lemma dollars_is_the_quotient_witness :
  dollars (holding (of_Z (-199)))
  = of_Z (wrap32 (Z.quot (-199) (10 ^ Z.of_N 2)))
  /\ (Z.abs (-199) < 2 ^ 31 * 10 ^ Z.of_N 2
      -> dollars (holding (of_Z (-199)))
         = of_Z (Z.quot (-199) (10 ^ Z.of_N 2))).
Proof.
  apply (dollars_is_the_quotient (holding (of_Z (-199))) (-199) 2).
  - reflexivity.
  - vm_compute. reflexivity.
  - vm_compute. reflexivity.
  - vm_compute. reflexivity.
  - vm_compute. discriminate.
Defined.

Lemma copies_checked :
  all_upto copy_bound (fun n => copy_keeps (holding (of_Z n))) = true.
Proof. vm_compute. reflexivity. Qed.

(** With default settings, an instance built from an instance that holds
    an integer number [n] of hundredths with [|n|] up to [copy_bound]
    holds the same [intValue] and the same [value]. *)
Theorem copy_keeps_small_amounts (x : Value) (c : Currency) (n : Z) :
  Money x = Ok c ->
  Z.abs n <= Z.of_nat copy_bound ->
  (intValue c =? of_Z n)%float = true ->
  exists c',
    Money (VCur c) = Ok c'
    /\ (intValue c' =? intValue c)%float = true
    /\ (value c' =? value c)%float = true.
Proof.
  intros Hc Hn Hi. rewrite Money_holding in Hc.
  destruct (parse x defaults true) as [v|e]; [|discriminate].
  injection Hc as <-. cbn [intValue holding] in Hi.
  assert (R : copy_keeps (holding v) = true).
  { destruct (eqb_cases _ _ Hi) as [->|[[->| ->] _]].
    - exact (all_upto_spec _ _ copies_checked n Hn).
    - vm_compute. reflexivity.
    - vm_compute. reflexivity. }
  unfold copy_keeps in R. fold (Money (VCur (holding v))) in R.
  destruct (Money (VCur (holding v))) as [c'|]; [|discriminate].
  apply andb_prop in R as [R1 R2]. exists c'. auto.
Qed.

Lemma copy_keeps_small_amounts_witness :
  exists c',
    Money (VCur (holding 1234)) = Ok c'
    /\ (intValue c' =? intValue (holding 1234))%float = true
    /\ (value c' =? value (holding 1234))%float = true.
Proof.
  apply (copy_keeps_small_amounts (VStr "12.34") (holding 1234) 1234).
  - vm_compute. reflexivity.
  - vm_compute. discriminate.
  - vm_compute. reflexivity.
Defined.






(* ================================================================= *)
(** ** Properties of the event emitter *)

Import Emitter.

Lemma own_put_same o k v : own (put o k v) k = Some v.
Proof.
  induction o as [|[k' v'] o IH]; cbn [put own].
  - rewrite String.eqb_refl. reflexivity.
  - destruct (k' =? k)%string eqn:E; cbn [own]; rewrite E; [reflexivity|exact IH].
Qed.


Lemma own_remove_same o k : own (remove o k) k = None.
Proof.
  induction o as [|[k' v'] o IH]; cbn [remove own]; [reflexivity|].
  destruct (k' =? k)%string eqn:E; [exact IH|]. cbn [own]. rewrite E. exact IH.
Qed.

Lemma own_remove_other o k k' : k' <> k -> own (remove o k) k' = own o k'.
Proof.
  intros N. induction o as [|[k0 v0] o IH]; cbn [remove own]; [reflexivity|].
  destruct (k0 =? k)%string eqn:E.
  - apply String.eqb_eq in E. subst k0.
    destruct (k =? k')%string eqn:E'; [|exact IH].
    apply String.eqb_eq in E'. congruence.
  - cbn [own]. rewrite IH. reflexivity.
Qed.




Lemma dispatch_sound o event args :
  sound o ->
  _dispatch event args (Some o)
  = match own o (type event) with
    | Some l =>
        {| result := Normal This;
           this_events := Some o;
           args_after := match args with
                         | Some _ => Some (received event args)
                         | None => None
                         end;
           calls := map (fun h => (h, received event args)) l |}
    | None =>
        {| result := Normal Undefined;
           this_events := Some o;
           args_after := args;
           calls := [] |}
    end.
Proof.
  intros P. unfold _dispatch, hasOwnProperty, handlers_of. rewrite P.
  destruct (own o (type event)); reflexivity.
Qed.















(** On an emitter whose [events] object is present and has no own property
    [hasOwnProperty]: [off(type)] forgets the type and nothing else: the
    other types keep their handlers, and a later dispatch of an event of
    the type calls no handler, leaves the array of arguments as it is and
    returns [undefined]. *)
Theorem off_type_silences_the_type (o : events) (ty : string) :
  sound o ->
  exists o',
    off (OnlyType ty) (Some o) = quiet (Normal This) (Some o')
    /\ sound o'
    /\ (forall ty', ty' <> ty -> own o' ty' = own o ty')
    /\ forall event args,
         type event = ty ->
         _dispatch event args (Some o')
         = {| result := Normal Undefined; this_events := Some o';
              args_after := args; calls := [] |}.
Proof.
  intros P. cbn [off]. unfold _offByType, hasOwnProperty. rewrite P.
  destruct (own o ty) eqn:E.
  - exists (remove o ty).
    assert (P' : sound (remove o ty)).
    { unfold sound. destruct (string_dec "hasOwnProperty" ty) as [<-|D].
      - apply own_remove_same.
      - rewrite own_remove_other by exact D. exact P. }
    split; [reflexivity|]. split; [exact P'|]. split.
    + intros ty' D. apply own_remove_other. exact D.
    + intros event args <-. rewrite (dispatch_sound _ event args P').
      rewrite own_remove_same. reflexivity.
  - exists o. split; [reflexivity|]. split; [exact P|]. split; [reflexivity|].
    intros event args <-. rewrite (dispatch_sound _ event args P), E.
    reflexivity.
Qed.

Lemma off_type_silences_the_type_witness :
  exists o',
    off (OnlyType "open") (Some [("open", [1%nat]); ("close", [2%nat])])
    = quiet (Normal This) (Some o')
    /\ sound o'
    /\ (forall ty', ty' <> "open"
        -> own o' ty' = own [("open", [1%nat]); ("close", [2%nat])] ty')
    /\ forall event args,
         type event = "open" ->
         _dispatch event args (Some o')
         = {| result := Normal Undefined; this_events := Some o';
              args_after := args; calls := [] |}.
Proof.
  apply (off_type_silences_the_type
           [("open", [1%nat]); ("close", [2%nat])] "open").
  reflexivity.
Defined.

Lemma resets_empty c this :
  resets c = true -> apply c this = quiet (Normal This) Emitter.
Proof.
  destruct c as [| [| |] | | | | |]; cbn [resets]; intros R;
    try discriminate R; reflexivity.
Qed.

Lemma apply_hidden c o l :
  own o "hasOwnProperty" = Some l -> resets c = false ->
  result (apply c (Some o)) = Throw TypeError
  /\ this_events (apply c (Some o)) = Some o
  /\ calls (apply c (Some o)) = [].
Proof.
  intros H R.
  destruct c as [ty h| [|ty|ty h] | |ty|ty h|event args now|event args];
    cbn [resets] in R; try discriminate R;
    cbn [apply off]; unfold on, _offByType, _offByHandler, trigger, _dispatch,
      hasOwnProperty; rewrite H; repeat split.
Qed.




(** On an emitter whose [events] object is present and has no own property
    [hasOwnProperty]: registering a handler for the type [hasOwnProperty]
    succeeds and disables the emitter: every later call other than [off()]
    and [_offAll] raises a [TypeError], calls no handler and changes
    nothing; [off()] and [_offAll] empty [events]. *)
Theorem hasOwnProperty_type_disables_the_emitter
  (o : events) (h : handler) :
  sound o ->
  exists o',
    on "hasOwnProperty" h (Some o) = quiet (Normal This) (Some o')
    /\ (forall c, resets c = false ->
          result (apply c (Some o')) = Throw TypeError
          /\ this_events (apply c (Some o')) = Some o'
          /\ calls (apply c (Some o')) = [])
    /\ forall c, resets c = true ->
         apply c (Some o') = quiet (Normal This) Emitter.
Proof.
  intros P. unfold on, hasOwnProperty. rewrite P.
  exists (put o "hasOwnProperty" [h]). split.
  - unfold assign. rewrite P. reflexivity.
  - split.
    + intros c R. apply (apply_hidden c _ [h]); [apply own_put_same|exact R].
    + intros c R. apply resets_empty. exact R.
Qed.

Lemma hasOwnProperty_type_disables_the_emitter_witness :
  exists o',
    on "hasOwnProperty" 1%nat (Some [("open", [2%nat])])
    = quiet (Normal This) (Some o')
    /\ (forall c, resets c = false ->
          result (apply c (Some o')) = Throw TypeError
          /\ this_events (apply c (Some o')) = Some o'
          /\ calls (apply c (Some o')) = [])
    /\ forall c, resets c = true ->
         apply c (Some o') = quiet (Normal This) Emitter.
Proof.
  apply (hasOwnProperty_type_disables_the_emitter [("open", [2%nat])] 1%nat).
  reflexivity.
Defined.






Lemma update_length (s : store) e x :
  List.length (update s e x) = List.length s.
Proof.
  revert e. induction s as [|y s IH]; intros e; [reflexivity|].
  destruct e; cbn; [reflexivity|]. rewrite IH. reflexivity.
Qed.




(** On an emitter whose [events] object is present and has no own property
    named [hasOwnProperty] or [__proto__]: the type [__proto__] is never
    registered: [on] returns the emitter and leaves [events] as it was, and
    [trigger] of that type calls no handler. *)
Theorem proto_type_is_never_registered
  (o : events) (hs : list handler) (args : option (list arg)) (now : Z) :
  sound o -> own o "__proto__" = None ->
  register (map (fun h => ("__proto__", h)) hs) (Some o) = Normal (Some o)
  /\ trigger (inl "__proto__") args now (Some o)
     = {| result := Normal Undefined; this_events := Some o;
          args_after := args; calls := [] |}.
Proof.
  intros P N. split.
  - induction hs as [|h hs IH]; [reflexivity|].
    cbn [map register]. unfold on, hasOwnProperty, assign.
    unfold sound in P. rewrite P, N. cbn [String.eqb Ascii.eqb Bool.eqb].
    cbn [quiet result this_events]. exact IH.
  - unfold trigger. rewrite (dispatch_sound o _ args P).
    cbn [type new_Event]. rewrite N. reflexivity.
Qed.

Lemma proto_type_is_never_registered_witness :
  register (map (fun h => ("__proto__", h)) [1%nat; 2%nat])
    (Some [("open", [3%nat])])
  = Normal (Some [("open", [3%nat])])
  /\ trigger (inl "__proto__") None 0 (Some [("open", [3%nat])])
     = {| result := Normal Undefined;
          this_events := Some [("open", [3%nat])];
          args_after := None; calls := [] |}.
Proof.
  apply (proto_type_is_never_registered [("open", [3%nat])] [1%nat; 2%nat]
           None 0); reflexivity.
Defined.
